(** * New-source coordination of the debugger (src/actions/sources/newSources.js)

    The file embeds the redux thunks of [newSources.js] as command trees
    (one constructor per kind of statement an [async] thunk can perform) and
    gives them an executable semantics: a store, a table of promises, a
    synchronous runner that follows JavaScript's rule that the body of an
    [async] function runs in the caller's stack up to its first [await], and a
    scheduler driven by an explicit list of choices. *)

From stdpp Require Import base option list gmap strings.

Set Default Proof Using "Type".
Open Scope string_scope.
Open Scope list_scope.

(** ** Data model *)

Inductive LoadedState := Unloaded | Loading | Loaded.

Module Src.
  (** The [Source] record of the debugger, with the fields this file reads
      or writes.  [url] is nullable and [sourceMapURL] is optional. *)
Record t := mk {
    id : string;
    url : option string;
    isPrettyPrinted : bool;
    isWasm : bool;
    isBlackBoxed : bool;
    loadedState : LoadedState;
    sourceMapURL : option string
  }.
End Src.
Abbreviation Source := Src.t.

Module Loc.
  (** A pending selected location: a nullable [url] and the other location
      fields. *)
Record t := mk { url : option string; line : nat; column : option nat }.
End Loc.
Abbreviation PendingLocation := Loc.t.

(** The argument of [selectLocation]: [{ ...pendingLocation, sourceId }]. *)
Record Location := { loc_fields : PendingLocation; sourceId : string }.

Record PendingBreakpoint := { pb_sourceUrl : string; pb_line : nat }.

#[global] Instance LoadedState_eq_dec : EqDecision LoadedState.
Proof. solve_decision. Defined.
#[global] Instance Source_eq_dec : EqDecision Source.
Proof. solve_decision. Defined.
#[global] Instance PendingLocation_eq_dec : EqDecision PendingLocation.
Proof. solve_decision. Defined.
#[global] Instance PendingBreakpoint_eq_dec : EqDecision PendingBreakpoint.
Proof. solve_decision. Defined.

(** JavaScript truthiness of a nullable string: [undefined], [null] and the
    empty string are falsy. *)
Definition truthy (o : option string) : bool :=
  match o with
  | Some s => negb (String.eqb s "")
  | None => false
  end.

(** ** The store *)

Record State := {
  sources : gmap string Source;
  pendingSelectedLocation : option PendingLocation;
  pendingBreakpoints : list PendingBreakpoint
}.

Inductive action :=
| ADD_SOURCES (l : list Source)
| UPDATE_SOURCE (s : Source).

(** Modelled from the spec: the selector [getSource] of ../../selectors,
    "fetch current source by identity". *)
Definition getSource (st : State) (i : string) : option Source :=
  sources st !! i.

(** Modelled from the spec: the selector [getPendingSelectedLocation]. *)
Definition getPendingSelectedLocation (st : State) : option PendingLocation :=
  pendingSelectedLocation st.

(** Modelled from the spec: the selector [getPendingBreakpointsForSource],
    "all pending breakpoints keyed by the source's URL", in stored order. *)
Definition getPendingBreakpointsForSource (st : State) (u : option string)
  : list PendingBreakpoint :=
  filter (fun pb => Some (pb_sourceUrl pb) = u) (pendingBreakpoints st).

(** Modelled from the spec: the reducer of the two registry effects.  "sources
    added" enters every record of the batch under its id, "source updated"
    carries a full replacement record. *)
Definition updateSource (m : gmap string Source) (s : Source) : gmap string Source :=
  <[Src.id s := s]> m.

Definition reducer (a : action) (st : State) : State :=
  match a with
  | ADD_SOURCES l =>
      {| sources := foldl updateSource (sources st) l;
         pendingSelectedLocation := pendingSelectedLocation st;
         pendingBreakpoints := pendingBreakpoints st |}
  | UPDATE_SOURCE s =>
      {| sources := updateSource (sources st) s;
         pendingSelectedLocation := pendingSelectedLocation st;
         pendingBreakpoints := pendingBreakpoints st |}
  end.

(** ** Thunks and command trees *)

(** What a thunk's promise can be fulfilled with: [undefined] or an array of
    candidate sources (an absent entry is [None]). *)
Inductive value :=
| VUndefined
| VArray (l : list (option Source)).

Inductive error :=
| TypeError (what : string)
| ExtError (n : nat).

Inductive outcome :=
| Fulfilled (v : value)
| Rejected (e : error).

(** Result of [Promise.all]. *)
Inductive all_outcome :=
| AllFulfilled (vs : list value)
| AllRejected (e : error).

(** Result of awaiting [sourceMaps.getOriginalURLs(source)]: the resolver
    fulfils with a list of urls or with [null]/[undefined], or it throws. *)
Inductive resolver_outcome :=
| Resolved (urls : option (list string))
| Threw (e : error).

Abbreviation promise := nat.

(** The action creators.  The first six are defined in newSources.js, the
    last four are imported from other modules. *)
Inductive thunk :=
| newSource (source : Source)
| newSources (l : list (option Source))
| loadSourceMaps (l : list Source)
| loadSourceMap (sourceId : string)
| checkSelectedSource (sourceId : string)
| checkPendingBreakpoints (sourceId : string)
| togglePrettyPrint (sourceId : string)
| selectLocation (loc : Location)
| loadSourceText (source : Source)
| syncBreakpoint (sourceId : string) (pb : PendingBreakpoint).

(** The body of an [async] thunk as a tree of the statements it performs. *)
Inductive prog :=
| Return (v : value)
| Throw (e : error)
| GetState (k : State -> prog)
| Dispatch (a : action) (k : prog)
| ConsoleError (e : error) (k : prog)
| DispatchThunk (t : thunk) (k : promise -> prog)
| Await (p : promise) (k : outcome -> prog)
| AwaitAll (ps : list promise) (k : all_outcome -> prog)
| AwaitOriginalURLs (s : Source) (k : resolver_outcome -> prog).

(** [await p] outside any [try]: a rejection is rethrown. *)
Definition await (p : promise) (k : value -> prog) : prog :=
  Await p (fun o => match o with Fulfilled v => k v | Rejected e => Throw e end).

(** lodash [flatten], one level deep: an array element is spliced in, any
    other element (here only [undefined]) is kept as it is. *)
Definition flatten (vs : list value) : list (option Source) :=
  flat_map (fun v => match v with VArray l => l | VUndefined => [None] end) vs.

(** The functions the file imports from devtools-source-map and
    ../../utils/source, taken as parameters. *)
Record Deps := {
  isGeneratedId : string -> bool;
  generatedToOriginalId : string -> string -> string;
  getRawSourceURL : string -> string;
  isPrettyURL : string -> bool
}.

Section Thunks.
Context (D : Deps).

Definition createOriginalSource (originalUrl : string) (generatedSource : Source)
  : Source :=
  {| Src.url := Some originalUrl;
     Src.id := generatedToOriginalId D (Src.id generatedSource) originalUrl;
     Src.isPrettyPrinted := false;
     Src.isWasm := false;
     Src.isBlackBoxed := false;
     Src.loadedState := Unloaded;
     Src.sourceMapURL := None |}.

(** [{ ...source, sourceMapURL: "" }] *)
Definition clearSourceMapURL (source : Source) : Source :=
  {| Src.url := Src.url source;
     Src.id := Src.id source;
     Src.isPrettyPrinted := Src.isPrettyPrinted source;
     Src.isWasm := Src.isWasm source;
     Src.isBlackBoxed := Src.isBlackBoxed source;
     Src.loadedState := Src.loadedState source;
     Src.sourceMapURL := Some "" |}.

(** [sources.map(source => dispatch(loadSourceMap(source.id)))] *)
Fixpoint dispatchLoadSourceMap (l : list Source) (k : list promise -> prog) : prog :=
  match l with
  | [] => k []
  | source :: l' =>
      DispatchThunk (loadSourceMap (Src.id source))
        (fun p => dispatchLoadSourceMap l' (fun ps => k (p :: ps)))
  end.

(** The continuation of [loadSourceMaps] after [Promise.all]. *)
Definition afterAll (o : all_outcome) : prog :=
  match o with
  | AllFulfilled originalSources =>
      DispatchThunk (newSources (flatten originalSources)) (fun p =>
        await p (fun _ => Return VUndefined))
  | AllRejected e => Throw e
  end.

Definition loadSourceMaps_body (l : list Source) : prog :=
  dispatchLoadSourceMap l (fun ps => AwaitAll ps afterAll).

(** The part of [loadSourceMap] after the [try]/[catch]. *)
Definition withOriginalURLs (source : Source) (urls : option (list string)) : prog :=
  match urls with
  | None =>
      Dispatch (UPDATE_SOURCE (clearSourceMapURL source)) (Return VUndefined)
  | Some urls =>
      DispatchThunk
        (newSources (map (fun u => Some (createOriginalSource u source)) urls))
        (fun _ => Return VUndefined)
  end.

(** The [try]/[catch] around the resolver call: a failure is logged and
    leaves [urls] null. *)
Definition tryOriginalURLs (source : Source) (r : resolver_outcome) : prog :=
  match r with
  | Resolved urls => withOriginalURLs source urls
  | Threw e => ConsoleError e (withOriginalURLs source None)
  end.

Definition loadSourceMap_body (sourceId : string) : prog :=
  GetState (fun st =>
    match getSource st sourceId with
    | None => Throw (TypeError "toJS")
    | Some source =>
        if negb (isGeneratedId D (Src.id source))
           || negb (truthy (Src.sourceMapURL source))
        then Return VUndefined
        else AwaitOriginalURLs source (tryOriginalURLs source)
    end).

Definition checkSelectedSource_body (sourceId : string) : prog :=
  GetState (fun st1 =>
    match getSource st1 sourceId with
    | None => Throw (TypeError "toJS")
    | Some source =>
        GetState (fun st2 =>
          match getPendingSelectedLocation st2 with
          | None => Return VUndefined
          | Some pendingLocation =>
              match Loc.url pendingLocation with
              | None => Return VUndefined
              | Some pendingUrl =>
                  if negb (truthy (Some pendingUrl)) || negb (truthy (Src.url source))
                  then Return VUndefined
                  else
                    let rawPendingUrl := getRawSourceURL D pendingUrl in
                    if decide (Some rawPendingUrl = Src.url source) then
                      if isPrettyURL D pendingUrl then
                        DispatchThunk (togglePrettyPrint (Src.id source))
                          (fun p => await p (fun v => Return v))
                      else
                        DispatchThunk
                          (selectLocation {| loc_fields := pendingLocation;
                                             sourceId := Src.id source |})
                          (fun p => await p (fun _ => Return VUndefined))
                    else Return VUndefined
              end
          end)
    end).

(** The [for ... of] loop of [checkPendingBreakpoints]. *)
Fixpoint syncPendingBreakpoints (sourceId : string) (pbs : list PendingBreakpoint)
  : prog :=
  match pbs with
  | [] => Return VUndefined
  | pendingBreakpoint :: rest =>
      DispatchThunk (syncBreakpoint sourceId pendingBreakpoint)
        (fun p => await p (fun _ => syncPendingBreakpoints sourceId rest))
  end.

Definition checkPendingBreakpoints_body (sourceId : string) : prog :=
  GetState (fun st1 =>
    GetState (fun st2 =>
      match getSource st1 sourceId with
      | None => Throw (TypeError "get")
      | Some source =>
          let pendingBreakpoints :=
            getPendingBreakpointsForSource st2 (Src.url source) in
          match pendingBreakpoints with
          | [] => Return VUndefined
          | _ :: _ =>
              DispatchThunk (loadSourceText source)
                (fun p => await p (fun _ =>
                   syncPendingBreakpoints sourceId pendingBreakpoints))
          end
      end)).

Definition newSource_body (source : Source) : prog :=
  DispatchThunk (newSources [Some source])
    (fun p => await p (fun _ => Return VUndefined)).

(** [sources.filter(source => source && !getSource(getState(), source.id))]:
    the callback reads the store once for every present candidate. *)
Fixpoint filterSources (l : list (option Source)) (k : list Source -> prog) : prog :=
  match l with
  | [] => k []
  | None :: l' => filterSources l' k
  | Some source :: l' =>
      GetState (fun st =>
        match getSource st (Src.id source) with
        | Some _ => filterSources l' k
        | None => filterSources l' (fun r => k (source :: r))
        end)
  end.

(** The [for ... of] loop of [newSources]. *)
Fixpoint checkEach (l : list Source) (k : prog) : prog :=
  match l with
  | [] => k
  | source :: l' =>
      DispatchThunk (checkSelectedSource (Src.id source)) (fun _ =>
        DispatchThunk (checkPendingBreakpoints (Src.id source)) (fun _ =>
          checkEach l' k))
  end.

Definition newSources_body (l : list (option Source)) : prog :=
  filterSources l (fun filteredSources =>
    match filteredSources with
    | [] => Return VUndefined
    | _ :: _ =>
        Dispatch (ADD_SOURCES filteredSources)
          (checkEach filteredSources
             (DispatchThunk (loadSourceMaps filteredSources) (fun p =>
                await p (fun _ => Return VUndefined))))
    end).

(** The body of a thunk; the imported ones have none here.  An imported
    thunk is opaque: the model gives it a promise, which the scheduler
    settles, and records nothing of what it does, neither its actions nor
    what they make of the store.  The store of a world is the store as the
    thunks of this file have written it. *)
Definition body (t : thunk) : option prog :=
  match t with
  | newSource source => Some (newSource_body source)
  | newSources l => Some (newSources_body l)
  | loadSourceMaps l => Some (loadSourceMaps_body l)
  | loadSourceMap i => Some (loadSourceMap_body i)
  | checkSelectedSource i => Some (checkSelectedSource_body i)
  | checkPendingBreakpoints i => Some (checkPendingBreakpoints_body i)
  | togglePrettyPrint _ | selectLocation _ | loadSourceText _
  | syncBreakpoint _ _ => None
  end.

End Thunks.

(** ** Execution *)

(** What the trace records.  [task] is the promise of the task that performs
    the statement. *)
Inductive event :=
| EAction (task : promise) (a : action)
| ELog (task : promise) (e : error)
| EDispatch (task : promise) (t : thunk) (p : promise)
| EGetOriginalURLs (task : promise) (s : Source)
| EAnswer (p : promise) (r : resolver_outcome)
| ESettle (p : promise) (o : outcome).

Inductive status :=
| Running
| Waiting (c : prog)
| Pending
| Done (o : outcome).

(** One promise of the table: the thunk it belongs to ([None] for the host
    that makes the first dispatch) and where it stands. *)
Record entry := { who : option thunk; state_of : status }.

Record World := {
  store : State;
  promises : list entry;
  trace : list event
}.

Definition emit (e : event) (w : World) : World :=
  {| store := store w; promises := promises w; trace := trace w ++ [e] |}.

Definition set_status (p : promise) (s : status) (w : World) : World :=
  {| store := store w;
     promises := alter (fun e => {| who := who e; state_of := s |}) p (promises w);
     trace := trace w |}.

Definition alloc (t : thunk) (s : status) (w : World) : World :=
  {| store := store w;
     promises := promises w ++ [{| who := Some t; state_of := s |}];
     trace := trace w |}.

Definition apply_action (a : action) (w : World) : World :=
  {| store := reducer a (store w); promises := promises w; trace := trace w |}.

Definition settle (p : promise) (o : outcome) (w : World) : World :=
  emit (ESettle p o) (set_status p (Done o) w).

Definition status_at (w : World) (p : promise) : option status :=
  state_of <$> promises w !! p.

Definition outcome_at (w : World) (p : promise) : option outcome :=
  match status_at w p with
  | Some (Done o) => Some o
  | _ => None
  end.

Section Execution.
Context (D : Deps).

(** Task [p] runs [c] in the current stack until it returns, throws or
    reaches an [await].  [call] runs the body of a dispatched thunk; an
    imported thunk has no body here and only gets its promise, pending. *)
Fixpoint exec_sync (call : promise -> prog -> World -> option World)
    (p : promise) (c : prog) (w : World) {struct c} : option World :=
  match c with
  | Return v => Some (settle p (Fulfilled v) w)
  | Throw e => Some (settle p (Rejected e) w)
  | GetState k => exec_sync call p (k (store w)) w
  | Dispatch a k => exec_sync call p k (emit (EAction p a) (apply_action a w))
  | ConsoleError e k => exec_sync call p k (emit (ELog p e) w)
  | DispatchThunk t k =>
      let q := length (promises w) in
      match body D t with
      | None => exec_sync call p (k q) (emit (EDispatch p t q) (alloc t Pending w))
      | Some b =>
          match call q b (emit (EDispatch p t q) (alloc t Running w)) with
          | None => None
          | Some w' => exec_sync call p (k q) w'
          end
      end
  | Await _ _ | AwaitAll _ _ => Some (set_status p (Waiting c) w)
  | AwaitOriginalURLs s _ =>
      Some (emit (EGetOriginalURLs p s) (set_status p (Waiting c) w))
  end.

(** [fuel] bounds the depth of thunks started inside one another within
    one synchronous stretch. *)
Fixpoint run (fuel : nat) : promise -> prog -> World -> option World :=
  match fuel with
  | O => fun _ _ _ => None
  | S fuel' => exec_sync (run fuel')
  end.

(** [Promise.all]: rejected as soon as a member is, fulfilled with all the
    values once every member is. *)
Fixpoint all_outcome_at (w : World) (ps : list promise) : option all_outcome :=
  match ps with
  | [] => Some (AllFulfilled [])
  | p :: ps' =>
      match outcome_at w p, all_outcome_at w ps' with
      | Some (Rejected e), _ => Some (AllRejected e)
      | _, Some (AllRejected e) => Some (AllRejected e)
      | Some (Fulfilled v), Some (AllFulfilled vs) => Some (AllFulfilled (v :: vs))
      | _, _ => None
      end
  end.

Inductive choice :=
| Settle (q : promise) (o : outcome)
| Answer (p : promise) (r : resolver_outcome)
| Resume (p : promise).

(** One scheduling step.  A choice that is not enabled leaves the world as
    it is; [None] only when [fuel] runs out.  [Settle] is the completion of
    an imported thunk, of which only the outcome of its promise is kept. *)
Definition step (fuel : nat) (ch : choice) (w : World) : option World :=
  match ch with
  | Settle q o =>
      match status_at w q with
      | Some Pending => Some (settle q o w)
      | _ => Some w
      end
  | Answer p r =>
      match status_at w p with
      | Some (Waiting (AwaitOriginalURLs _ k)) =>
          run fuel p (k r) (emit (EAnswer p r) (set_status p Running w))
      | _ => Some w
      end
  | Resume p =>
      match status_at w p with
      | Some (Waiting (Await q k)) =>
          match outcome_at w q with
          | Some o => run fuel p (k o) (set_status p Running w)
          | None => Some w
          end
      | Some (Waiting (AwaitAll ps k)) =>
          match all_outcome_at w ps with
          | Some o => run fuel p (k o) (set_status p Running w)
          | None => Some w
          end
      | _ => Some w
      end
  end.

Fixpoint schedule (fuel : nat) (chs : list choice) (w : World) : option World :=
  match chs with
  | [] => Some w
  | ch :: chs' =>
      match step fuel ch w with
      | None => None
      | Some w' => schedule fuel chs' w'
      end
  end.

(** The host is promise 0; the first thunk it dispatches gets promise 1. *)
Definition initial (st : State) : World :=
  {| store := st; promises := [{| who := None; state_of := Running |}]; trace := [] |}.

(** What the host does: it dispatches [t] and waits for its promise. *)
Definition host_script (t : thunk) : prog :=
  DispatchThunk t (fun p => Await p (fun _ => Return VUndefined)).

Definition dispatch (fuel : nat) (t : thunk) (w : World) : option World :=
  run fuel 0 (host_script t) w.

End Execution.

(** ** A concrete instance, for running the model *)

Module Example.

(** Ids in the style of devtools-source-map (an original id contains
    "/originalSource") and pretty urls in the style of the spec's example. *)
Definition deps : Deps :=
  {| isGeneratedId := fun i =>
       match String.index 0 "/originalSource" i with Some _ => false | None => true end;
     generatedToOriginalId := fun g u => g +:+ "/originalSource-" +:+ u;
     getRawSourceURL := fun u =>
       if String.prefix "pretty://" u then String.substring 9 (String.length u - 9) u else u;
     isPrettyURL := fun u => String.prefix "pretty://" u |}.

Definition plain (i : string) (u : option string) (m : option string) : Source :=
  {| Src.id := i; Src.url := u; Src.isPrettyPrinted := false; Src.isWasm := false;
     Src.isBlackBoxed := false; Src.loadedState := Unloaded; Src.sourceMapURL := m |}.

Definition A : Source := plain "a" (Some "a.js") None.
Definition B : Source := plain "b" (Some "b.js") None.
Definition G : Source := plain "g" (Some "g.js") (Some "g.js.map").

Definition empty_state : State :=
  {| sources := ∅; pendingSelectedLocation := None; pendingBreakpoints := [] |}.

Definition Foo : Source := plain "foo" (Some "foo.js") None.
Definition Bar : Source := plain "bar" (Some "bar.js") None.

(** [Foo] is registered and a selection of "pretty://foo.js" is pending; two
    breakpoints are pending for "foo.js" and one for "bar.js". *)
Definition pending_state : State :=
  {| sources := {[ "foo" := Foo ]};
     pendingSelectedLocation :=
       Some {| Loc.url := Some "pretty://foo.js"; Loc.line := 3; Loc.column := None |};
     pendingBreakpoints :=
       [ {| pb_sourceUrl := "foo.js"; pb_line := 10 |};
         {| pb_sourceUrl := "bar.js"; pb_line := 4 |};
         {| pb_sourceUrl := "foo.js"; pb_line := 2 |} ] |}.

(** A world in which the host has dispatched [t] on the store [st] and the
    body of [t] is about to run as promise 1. *)
Definition started (t : thunk) (st : State) : World :=
  alloc t Running (initial st).

(** The world once [newSource A] has run up to its [await] on an empty
    registry, and the same run continued until the [newSources] task it
    dispatched (promise 2) is settled. *)
Definition newSource_started : World := started (newSource A) empty_state.

Definition newSource_child_settled : World :=
  default newSource_started
    (w1 ← run deps 4 1 (newSource_body A) newSource_started;
     schedule deps 4 [Resume 5; Resume 5; Resume 2] w1).

(** [newSources [G]] on an empty registry: [G] is generated and declares a
    source map.  The world at the resolver call of [loadSourceMap] (promise
    5), the world after the resolver has answered with one url, and the world
    once every task suspended at an [await] has been resumed, in the order
    in which the promises they wait for were settled. *)
Definition at_resolver : World :=
  default (initial empty_state) (dispatch deps 4 (newSources [Some G]) (initial empty_state)).

Definition after_answer : World :=
  default at_resolver
    (schedule deps 4 [Answer 5 (Resolved (Some ["file:///orig.js"]))] at_resolver).

Definition all_settled : World :=
  default after_answer
    (schedule deps 4 [Resume 9; Resume 4; Resume 9; Resume 4; Resume 6; Resume 1]
       after_answer).

(** [newSources [G; G]] on an empty registry: two [loadSourceMap] tasks
    (promises 7 and 8) are suspended at the resolver call for [G]. *)
Definition at_resolver_twice : World :=
  default (initial empty_state)
    (dispatch deps 4 (newSources [Some G; Some G]) (initial empty_state)).

(** The registry holds [G] and, from an earlier load, the original source of
    "file:///orig.js" under the id derived from "g", its text loaded. *)
Definition Orig : Source :=
  {| Src.id := "g/originalSource-file:///orig.js"; Src.url := Some "file:///orig.js";
     Src.isPrettyPrinted := false; Src.isWasm := false; Src.isBlackBoxed := false;
     Src.loadedState := Loaded; Src.sourceMapURL := None |}.

Definition known_state : State := reducer (ADD_SOURCES [G; Orig]) empty_state.

End Example.

(** ** Observations on traces *)

Definition actor (e : event) : promise :=
  match e with
  | EAction p _ | ELog p _ | EDispatch p _ _ | EGetOriginalURLs p _
  | EAnswer p _ | ESettle p _ => p
  end.

(** The events performed by task [p]. *)
Definition own (p : promise) (evs : list event) : list event :=
  filter (fun e => actor e = p) evs.

Definition actions_of (evs : list event) : list action :=
  omap (fun e => match e with EAction _ a => Some a | _ => None end) evs.

Definition dispatches_of (evs : list event) : list thunk :=
  omap (fun e => match e with EDispatch _ t _ => Some t | _ => None end) evs.

(** What [w'] added to the trace of [w]. *)
Definition new_events (w w' : World) : list event :=
  drop (length (trace w)) (trace w').

(** [w'] comes from [w] by a run of task [p]: the trace is extended by events
    of [p] or of promises created meanwhile, and no older promise other than
    [p] is touched. *)
Definition frame (p : promise) (w w' : World) : Prop :=
  (exists evs, trace w' = trace w ++ evs /\
     Forall (fun e => actor e = p \/ length (promises w) <= actor e) evs) /\
  length (promises w) <= length (promises w') /\
  (forall q, q < length (promises w) -> q <> p -> promises w' !! q = promises w !! q) /\
  (forall q, q < length (promises w) ->
     who <$> promises w' !! q = who <$> promises w !! q).

(** A thunk whose body always runs to its first [await] with fuel [n]. *)
Definition total (D : Deps) (n : nat) (t : thunk) : Prop :=
  forall b, body D t = Some b ->
  forall q w, q < length (promises w) -> is_Some (run D n q b w).

(** Every settled promise has its settlement in the trace. *)
Definition settled_in_trace (w : World) : Prop :=
  forall q o, outcome_at w q = Some o -> ESettle q o ∈ trace w.

(** [w'] comes from [w] with [mine] as the events of task [p], whose own
    table entry is left as it was. *)
Definition progress (p : promise) (w w' : World) (mine : list event) : Prop :=
  (exists evs, trace w' = trace w ++ evs /\ own p evs = mine) /\
  length (promises w) <= length (promises w') /\
  promises w' !! p = promises w !! p.

(** ** The operations as the specification words them *)

(** The candidates that survive the filter of [registerSources]: present, and
    with an identity the registry does not hold; in their order. *)
Definition survivors (st : State) (l : list (option Source)) : list Source :=
  omap (fun c =>
    match c with
    | None => None
    | Some s => if decide (getSource st (Src.id s) = None) then Some s else None
    end) l.

(** The two intent checks started for one added source. *)
Definition checks (s : Source) : list thunk :=
  [checkSelectedSource (Src.id s); checkPendingBreakpoints (Src.id s)].

(** What selection-intent resolution asks for, for a newly added source [s]:
    nothing when no selection is pending, when the pending location has no
    url or when the source has none; when the raw url of the pending location
    is the url of the source, a pretty-print toggle if the pending url is a
    pretty url and a selection of the pending location in this source
    otherwise. *)
Definition selectionIntent (D : Deps) (st : State) (s : Source) : option thunk :=
  match getPendingSelectedLocation st with
  | None => None
  | Some pendingLocation =>
      match Loc.url pendingLocation, Src.url s with
      | Some pendingUrl, Some sourceUrl =>
          if truthy (Some pendingUrl) && truthy (Some sourceUrl)
             && bool_decide (getRawSourceURL D pendingUrl = sourceUrl)
          then Some (if isPrettyURL D pendingUrl
                     then togglePrettyPrint (Src.id s)
                     else selectLocation {| loc_fields := pendingLocation;
                                            sourceId := Src.id s |})
          else None
      | _, _ => None
      end
  end.

(** The world after task [p] has dispatched the imported thunk [t] and
    suspended on its promise with continuation [k]. *)
Definition awaiting_imported (p : promise) (t : thunk) (k : value -> prog)
    (w : World) : World :=
  set_status p (Waiting (await (length (promises w)) k))
    (emit (EDispatch p t (length (promises w))) (alloc t Pending w)).

(** How a promise awaited with [await p] and a continuation that returns
    [undefined] settles the awaiting task. *)
Definition passed_on (o : outcome) : outcome :=
  match o with
  | Fulfilled _ => Fulfilled VUndefined
  | Rejected e => Rejected e
  end.

(** ** Ordering of the dispatches of one task *)

(** The thunks task [p] has dispatched, in order. *)
Definition dispatched (p : promise) (tr : list event) : list thunk :=
  dispatches_of (own p tr).

(** In the trace [tr], whenever task [p] dispatches a thunk, the promise of
    every thunk it dispatched earlier has been fulfilled before. *)
Definition awaited_in_order (p : promise) (tr : list event) : Prop :=
  forall pre t q post,
    tr = pre ++ EDispatch p t q :: post ->
    forall t' q', EDispatch p t' q' ∈ pre -> exists v, ESettle q' (Fulfilled v) ∈ pre.

(** What [checkPendingBreakpoints] is to dispatch for the source [s] with id
    [i]: nothing when no breakpoint is pending for its url, otherwise the
    text load followed by one synchronisation per pending breakpoint, in
    stored order. *)
Definition breakpointIntent (st : State) (i : string) (s : Source) : list thunk :=
  match getPendingBreakpointsForSource st (Src.url s) with
  | [] => []
  | pbs => loadSourceText s :: map (syncBreakpoint i) pbs
  end.

(** The schedule in which, [k] times, the promise the task awaits is
    fulfilled and task 1 is resumed; the awaited promises are [q], [q+1], ... *)
Definition fulfil_and_resume (q k : nat) : list choice :=
  flat_map (fun j => [Settle (q + j) (Fulfilled VUndefined); Resume 1]) (seq 0 k).

(** The worlds a run of [checkPendingBreakpoints i] as promise 1 goes
    through, the host being promise 0 and every later promise an imported
    thunk: [todo] is what the task may still dispatch. *)
Record breakpoint_run (i : string) (intent : list thunk) (w : World) : Prop := {
  bp_order : awaited_in_order 1 (trace w);
  bp_settled : settled_in_trace w;
  bp_host : status_at w 0 = Some (Waiting (Await 1 (fun _ => Return VUndefined)))
            \/ exists o, status_at w 0 = Some (Done o);
  bp_imported : forall p, 2 <= p -> p < length (promises w) ->
                status_at w p = Some Pending \/ exists o, status_at w p = Some (Done o);
  bp_task :
    (dispatched 1 (trace w) `prefix_of` intent /\
     exists o, status_at w 1 = Some (Done o)) \/
    (exists q rest,
       status_at w 1
         = Some (Waiting (await q (fun _ => syncPendingBreakpoints i rest))) /\
       intent = dispatched 1 (trace w) ++ map (syncBreakpoint i) rest /\
       2 <= q < length (promises w) /\
       (forall t' q', EDispatch 1 t' q' ∈ trace w -> q' <> q ->
                      exists v, ESettle q' (Fulfilled v) ∈ trace w))
}.

(** ** Shapes of suspended tasks *)

(** [residual b c]: the statements [c] are what is left of [b] after some of
    its statements have run, whatever they were answered. *)
Inductive residual : prog -> prog -> Prop :=
| residual_refl c : residual c c
| residual_GetState k st c : residual (k st) c -> residual (GetState k) c
| residual_Dispatch a k c : residual k c -> residual (Dispatch a k) c
| residual_ConsoleError e k c : residual k c -> residual (ConsoleError e k) c
| residual_DispatchThunk t k q c : residual (k q) c -> residual (DispatchThunk t k) c
| residual_Await q k o c : residual (k o) c -> residual (Await q k) c
| residual_AwaitAll ps k o c : residual (k o) c -> residual (AwaitAll ps k) c
| residual_AwaitOriginalURLs s k r c :
    residual (k r) c -> residual (AwaitOriginalURLs s k) c.

(** [returns c v]: the statements [c] can end by returning [v]. *)
Definition returns (c : prog) (v : value) : Prop := residual c (Return v).

Definition is_wait (c : prog) : Prop :=
  match c with
  | Await _ _ | AwaitAll _ _ | AwaitOriginalURLs _ _ => True
  | _ => False
  end.

(** The statements of the owner of a table entry: the body of its thunk, or
    for the host the dispatch of the thunk [root]. *)
Definition script (D : Deps) (root : thunk) (o : option thunk) : option prog :=
  match o with
  | None => Some (host_script root)
  | Some t => body D t
  end.

(** A table entry is in order when a suspended task waits at an [await] left
    of its own script, a fulfilled one holds a value its script returns, and
    only imported thunks are pending. *)
Definition ok_entry (D : Deps) (root : thunk) (e : entry) : Prop :=
  match state_of e with
  | Running => True
  | Waiting c =>
      is_wait c /\ exists b, script D root (who e) = Some b /\ residual b c
  | Pending => script D root (who e) = None
  | Done (Fulfilled v) =>
      forall b, script D root (who e) = Some b -> residual b (Return v)
  | Done (Rejected _) => True
  end.

Definition shaped (D : Deps) (root : thunk) (w : World) : Prop :=
  forall p e, promises w !! p = Some e -> ok_entry D root e.

(** The continuation of the [await] [c] runs to its next [await] with fuel
    [fuel], whatever the awaited promise brings. *)
Definition resumable (D : Deps) (fuel : nat) (c : prog) : Prop :=
  forall p w,
    match c with
    | Await _ k => forall o, is_Some (run D fuel p (k o) w)
    | AwaitAll _ k => forall o, p < length (promises w) -> is_Some (run D fuel p (k o) w)
    | AwaitOriginalURLs _ k =>
        forall r, p < length (promises w) -> is_Some (run D fuel p (k r) w)
    | _ => True
    end.

(** The [await]s of the thunks of newSources.js and of the host. *)
Inductive known_wait (D : Deps) : prog -> Prop :=
| wait_return q : known_wait D (await q (fun _ => Return VUndefined))
| wait_return_value q : known_wait D (await q (fun v => Return v))
| wait_host q : known_wait D (Await q (fun _ => Return VUndefined))
| wait_all ps : known_wait D (AwaitAll ps afterAll)
| wait_resolver s : known_wait D (AwaitOriginalURLs s (tryOriginalURLs D s))
| wait_sync q i rest :
    known_wait D (await q (fun _ => syncPendingBreakpoints i rest)).

(** ** The changes a run makes to the world, one at a time *)

Inductive prim : World -> World -> Prop :=
| prim_settle p o w : prim w (settle p o w)
| prim_action p a w : prim w (emit (EAction p a) (apply_action a w))
| prim_log p e w : prim w (emit (ELog p e) w)
| prim_dispatch p t s w :
    s = Running \/ s = Pending ->
    prim w (emit (EDispatch p t (length (promises w))) (alloc t s w))
| prim_await p q k w : prim w (set_status p (Waiting (Await q k)) w)
| prim_awaitAll p ps k w : prim w (set_status p (Waiting (AwaitAll ps k)) w)
| prim_resolver p s k w :
    prim w (emit (EGetOriginalURLs p s)
              (set_status p (Waiting (AwaitOriginalURLs s k)) w)).

Definition registered (st : State) (i : string) : Prop := is_Some (getSource st i).

(** A task suspended at the resolver has its call in the trace. *)
Definition resolver_calls_traced (w : World) : Prop :=
  forall r s k, status_at w r = Some (Waiting (AwaitOriginalURLs s k)) ->
                EGetOriginalURLs r s ∈ trace w.

(** Every original source the resolver has named is in the registry. *)
Definition originals_registered (D : Deps) (w : World) : Prop :=
  forall r urls, EAnswer r (Resolved (Some urls)) ∈ trace w ->
    exists s, EGetOriginalURLs r s ∈ trace w /\
      forall u, u ∈ urls -> registered (store w) (generatedToOriginalId D (Src.id s) u).

(** ** The promise of a batch *)

Definition who_at (w : World) (p : promise) : option thunk :=
  promises w !! p ≫= who.

(** Task [p] has dispatched the thunk [t], whose promise is [q]. *)
Definition spawned (w : World) (p : promise) (t : thunk) (q : promise) : Prop :=
  who_at w q = Some t /\ EDispatch p t q ∈ trace w.

(** The task a scheduling choice acts on. *)
Definition subject (ch : choice) : promise :=
  match ch with
  | Settle q _ => q
  | Answer p _ | Resume p => p
  end.

(** The worlds a run of [newSources] as promise 1 goes through, seen from
    its own promise and from [q0], the promise of the [loadSourceMaps] it
    awaits; [ps0] are the promises of the [loadSourceMap] calls of [q0], one
    for each of the sources [f] the batch added. *)
Record batch_run (f : list Source) (q0 : promise) (ps0 : list promise) (w : World)
  : Prop := {
  batch_q0_after_root : 1 < q0;
  batch_who_q0 : spawned w 1 (loadSourceMaps f) q0;
  batch_who_ps0 :
    Forall2 (fun r s => spawned w q0 (loadSourceMap (Src.id s)) r) ps0 f;
  batch_root :
    status_at w 1 = Some (Waiting (await q0 (fun _ => Return VUndefined))) \/
    (exists e, outcome_at w 1 = Some (Rejected e)) \/
    ((exists v, outcome_at w 1 = Some (Fulfilled v)) /\
     exists v0, outcome_at w q0 = Some (Fulfilled v0));
  batch_q0 :
    status_at w q0 = Some (Waiting (AwaitAll ps0 afterAll)) \/
    (exists e, outcome_at w q0 = Some (Rejected e)) \/
    (exists vs r',
       Forall2 (fun r v => outcome_at w r = Some (Fulfilled v)) ps0 vs /\
       spawned w q0 (newSources (flatten vs)) r' /\
       (status_at w q0 = Some (Waiting (await r' (fun _ => Return VUndefined))) \/
        ((exists v0, outcome_at w q0 = Some (Fulfilled v0)) /\
         exists v', outcome_at w r' = Some (Fulfilled v'))))
}.

(** ** Source-map resolution still under way *)

(** [loadSourceMap i] asks the resolver: the source registered as [i] has a
    generated id and declares a source map. *)
Definition asks_resolver (D : Deps) (st : State) (i : string) : bool :=
  match getSource st i with
  | Some s => isGeneratedId D (Src.id s) && truthy (Src.sourceMapURL s)
  | None => false
  end.

(** Task [r] is suspended at a call of the resolver. *)
Definition resolving (w : World) (r : promise) : Prop :=
  exists s k, status_at w r = Some (Waiting (AwaitOriginalURLs s k)).

(** The tasks suspended at the resolver are among [P], and every
    [Promise.all] a task is suspended at is over [loadSourceMap] tasks. *)
Definition calm (P : promise -> Prop) (w : World) : Prop :=
  (forall r, resolving w r -> P r) /\
  (forall q ps k, status_at w q = Some (Waiting (AwaitAll ps k)) ->
     Forall (fun r => exists i, who_at w r = Some (loadSourceMap i)) ps).

(** From [w] to [w'] the store is unchanged and no action was dispatched. *)
Definition silent (w w' : World) : Prop :=
  store w' = store w /\
  exists evs, trace w' = trace w ++ evs /\ actions_of evs = [].

Definition who_kept (w w' : World) : Prop :=
  forall r t, who_at w r = Some t -> who_at w' r = Some t.

(** Statements that, up to their first [await], only read the store and
    dispatch imported thunks. *)
Inductive inert (D : Deps) : prog -> Prop :=
| inert_Return v : inert D (Return v)
| inert_Throw e : inert D (Throw e)
| inert_GetState k : (forall st, inert D (k st)) -> inert D (GetState k)
| inert_Await q k : inert D (Await q k)
| inert_imported t k :
    body D t = None -> (forall q, inert D (k q)) -> inert D (DispatchThunk t k).


(** ** Tasks of a batch that cannot fail *)

(** The tasks of a batch seen from their outcomes: a [loadSourceMap] task of
    the batch is at the resolver or fulfilled; the [loadSourceMaps] task [q0]
    is at its [Promise.all], or awaits a fulfilled promise, or is fulfilled;
    the batch itself (promise 1) awaits [q0] or is fulfilled. *)
Record batch_sound (q0 : promise) (ps0 : list promise) (w : World) : Prop := {
  sound_ps :
    Forall (fun r => resolving w r \/ exists v, outcome_at w r = Some (Fulfilled v)) ps0;
  sound_q0 :
    status_at w q0 = Some (Waiting (AwaitAll ps0 afterAll)) \/
    (exists r' v,
       status_at w q0 = Some (Waiting (await r' (fun _ => Return VUndefined))) /\
       outcome_at w r' = Some (Fulfilled v)) \/
    (exists v, outcome_at w q0 = Some (Fulfilled v));
  sound_root :
    status_at w 1 = Some (Waiting (await q0 (fun _ => Return VUndefined))) \/
    (exists v, outcome_at w 1 = Some (Fulfilled v))
}.


(** The worlds of a batch whose [loadSourceMaps] task [q0] is still at its
    [Promise.all] over [ps0]; the promises of [w0] other than that of the
    batch, [q0] and [ps0] are as in [w0]. *)
Definition at_join (D : Deps) (root : thunk) (P : promise -> Prop)
    (q0 : promise) (ps0 : list promise) (w0 w : World) : Prop :=
  shaped D root w /\ calm P w /\ batch_sound q0 ps0 w /\
  status_at w q0 = Some (Waiting (AwaitAll ps0 afterAll)) /\
  status_at w 1 = Some (Waiting (await q0 (fun _ => Return VUndefined))) /\
  length (promises w0) <= length (promises w) /\
  (forall r, r < length (promises w0) -> r <> 1 -> r <> q0 -> r ∉ ps0 ->
             status_at w r = status_at w0 r).


(** Where the first stretch of [loadSourceMap i] leaves its task on the
    store [st]: rejected when [i] is not registered, fulfilled when the
    record is not generated or declares no source map, at the resolver call
    with the record otherwise. *)
Definition loadSourceMap_start (D : Deps) (st : State) (i : string) : status :=
  match getSource st i with
  | None => Done (Rejected (TypeError "toJS"))
  | Some s =>
      if negb (isGeneratedId D (Src.id s)) || negb (truthy (Src.sourceMapURL s))
      then Done (Fulfilled VUndefined)
      else Waiting (AwaitOriginalURLs s (tryOriginalURLs D s))
  end.


(** ** Actions of a batch *)

(** The actions a batch of candidates [l] gives rise to, [w] being the world
    reached.  A registration: ADD_SOURCES of a list that is not empty and
    holds present entries of [l] or original sources created for a record
    that a task of the run has handed to the resolver.  The fallback of task
    [r]: UPDATE_SOURCE of the record that [r] itself has handed to the
    resolver, its [sourceMapURL] set to the empty string. *)
Definition batch_action (D : Deps) (l : list (option Source)) (w : World)
    (r : promise) (a : action) : Prop :=
  match a with
  | ADD_SOURCES f =>
      f <> [] /\
      Forall (fun s => Some s ∈ l \/
                       exists g u p, EGetOriginalURLs p g ∈ trace w /\
                                     s = createOriginalSource D u g) f
  | UPDATE_SOURCE x =>
      exists s, x = clearSourceMapURL s /\ EGetOriginalURLs r s ∈ trace w
  end.


(** * Properties *)

(** ** The runner *)

Lemma frame_refl p w : frame p w w.
Proof.
  split; [exists []; split; [by rewrite app_nil_r | constructor] | by split; [lia|]].
Qed.

Lemma frame_trans p q w w1 w2 :
  frame p w w1 -> frame q w1 w2 -> q = p \/ length (promises w) <= q ->
  frame p w w2.
Proof.
  intros ((evs1 & Ht1 & Hf1) & Hl1 & Hp1 & Hw1)
         ((evs2 & Ht2 & Hf2) & Hl2 & Hp2 & Hw2) Hq.
  split; [|split; [|split]].
  - exists (evs1 ++ evs2). split; [by rewrite Ht2, Ht1, app_assoc|].
    apply Forall_app; split; [done|].
    eapply Forall_impl; [exact Hf2|]. simpl. intros e He. lia.
  - lia.
  - intros r Hr Hne. rewrite Hp2, Hp1; [done..| lia | lia].
  - intros r Hr. rewrite Hw2, Hw1; [done..| lia].
Qed.

Lemma frame_emit p e w : actor e = p -> frame p w (emit e w).
Proof.
  intros He. split; [|done].
  exists [e]. split; [done|]. constructor; [by left | constructor].
Qed.

Lemma frame_set_status p s w : frame p w (set_status p s w).
Proof.
  split; [|split; [|split]].
  - exists []. simpl. split; [by rewrite app_nil_r | constructor].
  - simpl. by rewrite length_alter.
  - intros q _ Hq. simpl. by rewrite list_lookup_alter_ne.
  - intros q _. simpl. destruct (decide (p = q)) as [->|Hne].
    + rewrite list_lookup_alter_eq. by destruct (promises w !! q).
    + by rewrite list_lookup_alter_ne.
Qed.

Lemma frame_apply_action p a w : frame p w (apply_action a w).
Proof.
  split; [|done].
  exists []. simpl. split; [by rewrite app_nil_r | constructor].
Qed.

Lemma frame_alloc p t s w : frame p w (alloc t s w).
Proof.
  split; [|split; [|split]].
  - exists []. simpl. split; [by rewrite app_nil_r | constructor].
  - simpl. rewrite length_app. lia.
  - intros q Hq _. simpl. by rewrite lookup_app_l.
  - intros q Hq. simpl. by rewrite lookup_app_l.
Qed.

Lemma frame_settle p o w : frame p w (settle p o w).
Proof.
  eapply frame_trans; [apply frame_set_status | by apply frame_emit | by left].
Qed.

Lemma length_promises_alloc t s w :
  length (promises (alloc t s w)) = S (length (promises w)).
Proof. simpl. rewrite length_app. simpl. lia. Qed.

Section Runner.
Context (D : Deps).

Lemma run_frame fuel : forall p c w w',
  run D fuel p c w = Some w' -> frame p w w'.
Proof.
  induction fuel as [|fuel IHfuel]; [done|].
  intros p c. simpl.
  induction c as [v|e|k IH|a k IH|e k IH|t k IH|q k IH|ps k IH|s k IH];
    intros w w' H; simpl in H.
  - injection H as <-. apply frame_settle.
  - injection H as <-. apply frame_settle.
  - by apply IH in H.
  - apply IH in H.
    eapply frame_trans; [|exact H|by left].
    eapply frame_trans; [apply frame_apply_action | by apply frame_emit | by left].
  - apply IH in H.
    eapply frame_trans; [|exact H|by left]. by apply frame_emit.
  - destruct (body D t) as [b|].
    + destruct (run D fuel _ b _) as [w1|] eqn:Hcall; [|done].
      apply IHfuel in Hcall. apply IH in H.
      eapply frame_trans; [|exact H|by left].
      eapply frame_trans; [|exact Hcall|right; simpl; lia].
      eapply frame_trans; [apply frame_alloc | by apply frame_emit | by left].
    + apply IH in H.
      eapply frame_trans; [|exact H|by left].
      eapply frame_trans; [apply frame_alloc | by apply frame_emit | by left].
  - injection H as <-. apply frame_set_status.
  - injection H as <-. apply frame_set_status.
  - injection H as <-.
    eapply frame_trans; [apply frame_set_status | by apply frame_emit | by left].
Qed.

End Runner.

Section Bodies.
Context (D : Deps).

Lemma run_mono n : forall p c w w',
  run D n p c w = Some w' -> forall m, n <= m -> run D m p c w = Some w'.
Proof.
  induction n as [|n IHn]; [done|].
  intros p c w w' H [|m] Hm; [lia|]. simpl in *.
  revert w w' H.
  induction c as [v|e|k IH|a k IH|e k IH|t k IH|q k IH|ps k IH|s k IH];
    intros w w' H; simpl in *; try done; try (by apply IH).
  destruct (body D t) as [b|]; [|by apply IH].
  destruct (run D n _ b _) as [w1|] eqn:Hcall; [|done].
  rewrite (IHn _ _ _ _ Hcall m) by lia. by apply IH.
Qed.

Lemma own_app p evs1 evs2 : own p (evs1 ++ evs2) = own p evs1 ++ own p evs2.
Proof. apply filter_app. Qed.

Lemma progress_refl p w : progress p w w [].
Proof. split; [exists []; by rewrite app_nil_r | split; [lia|done]]. Qed.

Lemma progress_trans p w w1 w2 m1 m2 :
  progress p w w1 m1 -> progress p w1 w2 m2 -> progress p w w2 (m1 ++ m2).
Proof.
  intros ((evs1 & Ht1 & Ho1) & Hl1 & Hp1) ((evs2 & Ht2 & Ho2) & Hl2 & Hp2).
  split; [|split; [lia|congruence]].
  exists (evs1 ++ evs2). rewrite Ht2, Ht1, app_assoc, own_app. by subst.
Qed.

Lemma progress_emit p e w : actor e = p -> progress p w (emit e w) [e].
Proof.
  intros He. split; [|done]. exists [e]. split; [done|].
  unfold own. rewrite filter_cons_True by done. done.
Qed.

Lemma progress_apply_action p a w : progress p w (apply_action a w) [].
Proof. split; [exists []; simpl; by rewrite app_nil_r | done]. Qed.

Lemma progress_alloc p t s w :
  p < length (promises w) -> progress p w (alloc t s w) [].
Proof.
  intros Hp. split; [exists []; simpl; by rewrite app_nil_r |].
  split; [rewrite length_promises_alloc; lia|]. simpl. by rewrite lookup_app_l.
Qed.

Lemma frame_progress p q w w' :
  frame q w w' -> p < length (promises w) -> p <> q -> progress p w w' [].
Proof.
  intros ((evs & Ht & Hf) & Hl & Hp & _) Hlt Hne.
  split; [|split; [done|by apply Hp]].
  exists evs. split; [done|]. clear Ht. unfold own.
  induction Hf as [|e evs He _ IH]; [done|].
  rewrite filter_cons_False; [exact IH|]. lia.
Qed.

Lemma progress_new_events p w w' mine :
  progress p w w' mine -> own p (new_events w w') = mine.
Proof.
  intros ((evs & Ht & Ho) & _). unfold new_events.
  by rewrite Ht, drop_app_length.
Qed.

Lemma progress_own_in p w w' mine e :
  progress p w w' mine -> e ∈ mine -> e ∈ trace w'.
Proof.
  intros ((evs & Ht & Ho) & _) He. rewrite Ht. apply elem_of_app. right.
  subst mine. unfold own in He. by apply list_elem_of_filter in He as [_ He].
Qed.

Lemma frame_trace_in p w w' e : frame p w w' -> e ∈ trace w -> e ∈ trace w'.
Proof. intros ((evs & Ht & _) & _) He. rewrite Ht. apply elem_of_app. by left. Qed.

(** One [dispatch(thunk)] statement of task [p]. *)
Lemma exec_DispatchThunk n p t k w :
  p < length (promises w) -> total D n t ->
  exists w1,
    exec_sync D (run D n) p (DispatchThunk t k) w
      = exec_sync D (run D n) p (k (length (promises w))) w1 /\
    progress p w w1 [EDispatch p t (length (promises w))] /\
    who <$> promises w1 !! length (promises w) = Some (Some t) /\
    frame p w w1.
Proof.
  intros Hp Ht. simpl. unfold total in Ht.
  set (q := length (promises w)).
  assert (Hq : forall s, who <$> promises (emit (EDispatch p t q) (alloc t s w)) !! q
                         = Some (Some t)).
  { intros s. simpl. by rewrite list_lookup_middle. }
  destruct (body D t) as [b|].
  - destruct (Ht b eq_refl q (emit (EDispatch p t q) (alloc t Running w)))
      as [w1 Hw1]; [simpl; rewrite length_app; simpl; lia|].
    exists w1. rewrite Hw1. split; [done|].
    pose proof (run_frame D _ _ _ _ _ Hw1) as Hf.
    split.
    + change [EDispatch p t q] with ([] ++ [EDispatch p t q] ++ []).
      eapply progress_trans; [by apply progress_alloc|].
      eapply progress_trans; [by apply progress_emit|].
      eapply frame_progress; [exact Hf| |].
      * simpl. rewrite length_app. simpl. lia.
      * unfold q. lia.
    + split.
      * destruct Hf as (_ & _ & _ & Hf). rewrite Hf; [apply Hq|].
        simpl. rewrite length_app. simpl. lia.
      * eapply frame_trans; [|exact Hf|right; unfold q; lia].
        eapply frame_trans; [apply frame_alloc | by apply frame_emit | by left].
  - exists (emit (EDispatch p t q) (alloc t Pending w)). split; [done|].
    split; [|split; [apply Hq|]].
    + change [EDispatch p t q] with ([] ++ [EDispatch p t q]).
      eapply progress_trans; [by apply progress_alloc | by apply progress_emit].
    + eapply frame_trans; [apply frame_alloc | by apply frame_emit | by left].
Qed.


Lemma status_at_set_status p s w :
  p < length (promises w) -> status_at (set_status p s w) p = Some s.
Proof.
  intros Hp. unfold status_at. simpl. rewrite list_lookup_alter_eq.
  destruct (lookup_lt_is_Some_2 _ _ Hp) as [e ->]. done.
Qed.

Lemma outcome_at_settle p o w :
  p < length (promises w) -> outcome_at (settle p o w) p = Some o.
Proof.
  intros Hp. unfold outcome_at, settle.
  change (status_at (emit _ ?w') p) with (status_at w' p).
  by rewrite status_at_set_status.
Qed.

Lemma new_events_app w w' evs : trace w' = trace w ++ evs -> new_events w w' = evs.
Proof. intros H. unfold new_events. by rewrite H, drop_app_length. Qed.

Lemma total_checkSelectedSource n i : total D (S n) (checkSelectedSource i).
Proof.
  intros b [= <-] q w _. unfold checkSelectedSource_body. simpl.
  destruct (getSource (store w) i) as [s|]; simpl; [|done].
  destruct (getPendingSelectedLocation (store w)) as [pl|]; simpl; [|done].
  destruct (Loc.url pl) as [u|]; simpl; [|done].
  destruct (negb _ || negb _); simpl; [done|].
  destruct (decide _); simpl; [|done].
  destruct (isPrettyURL D u); simpl; done.
Qed.

Lemma total_checkPendingBreakpoints n i : total D (S n) (checkPendingBreakpoints i).
Proof.
  intros b [= <-] q w _. unfold checkPendingBreakpoints_body. simpl.
  destruct (getSource (store w) i) as [s|]; simpl; [|done].
  destruct (getPendingBreakpointsForSource (store w) (Src.url s)); simpl; done.
Qed.

(** The synchronous stretch of [loadSourceMap]. *)
Lemma loadSourceMap_sync n p i w :
  run D (S n) p (loadSourceMap_body D i) w =
  Some match getSource (store w) i with
       | None => settle p (Rejected (TypeError "toJS")) w
       | Some s =>
           if negb (isGeneratedId D (Src.id s)) || negb (truthy (Src.sourceMapURL s))
           then settle p (Fulfilled VUndefined) w
           else emit (EGetOriginalURLs p s)
                  (set_status p (Waiting (AwaitOriginalURLs s (tryOriginalURLs D s))) w)
       end.
Proof.
  unfold loadSourceMap_body. simpl.
  destruct (getSource (store w) i) as [s|]; simpl; [|done].
  destruct (negb _ || negb _); done.
Qed.

Lemma total_loadSourceMap n i : total D (S n) (loadSourceMap i).
Proof. intros b [= <-] q w _. rewrite loadSourceMap_sync. done. Qed.

(** The filter reads the same store at every candidate. *)
Lemma filterSources_run call p l : forall k w,
  exec_sync D call p (filterSources l k) w
  = exec_sync D call p (k (survivors (store w) l)) w.
Proof.
  induction l as [|[s|] l IH]; intros k w; simpl; [done| |by apply IH].
  unfold survivors. simpl. fold (survivors (store w) l).
  destruct (getSource (store w) (Src.id s)) as [s'|] eqn:Hs.
  - rewrite decide_False by done. apply IH.
  - rewrite decide_True by done. rewrite IH. done.
Qed.

(** The loop that starts the two intent checks for each added source. *)
Lemma checkEach_run n p l k : forall w,
  p < length (promises w) ->
  exists w1 mine,
    exec_sync D (run D (S n)) p (checkEach l k) w = exec_sync D (run D (S n)) p k w1 /\
    progress p w w1 mine /\
    actions_of mine = [] /\
    dispatches_of mine = flat_map checks l /\
    frame p w w1.
Proof.
  induction l as [|s l IH]; intros w Hp.
  - exists w, []. split; [done|]. split; [apply progress_refl|].
    split; [done|]. split; [done|apply frame_refl].
  - cbn [checkEach].
    destruct (exec_DispatchThunk (S n) p (checkSelectedSource (Src.id s))
                (fun _ => DispatchThunk (checkPendingBreakpoints (Src.id s))
                            (fun _ => checkEach l k)) w Hp
                (total_checkSelectedSource _ _)) as (w1 & -> & Hpr1 & _ & Hf1).
    assert (Hp1 : p < length (promises w1)) by (destruct Hpr1 as (_ & ? & _); lia).
    destruct (exec_DispatchThunk (S n) p (checkPendingBreakpoints (Src.id s))
                (fun _ => checkEach l k) w1 Hp1
                (total_checkPendingBreakpoints _ _)) as (w2 & -> & Hpr2 & _ & Hf2).
    assert (Hp2 : p < length (promises w2)) by (destruct Hpr2 as (_ & ? & _); lia).
    destruct (IH w2 Hp2) as (w3 & mine & -> & Hpr3 & Ha & Hd & Hf3).
    eexists w3, _. split; [done|].
    split; [eapply progress_trans; [exact Hpr1|];
            eapply progress_trans; [exact Hpr2|exact Hpr3]|].
    simpl. rewrite Ha, Hd. split; [done|]. split; [done|].
    eapply frame_trans; [|exact Hf3|by left].
    eapply frame_trans; [exact Hf1|exact Hf2|by left].
Qed.


(** [sources.map(source => dispatch(loadSourceMap(source.id)))] *)
Lemma dispatchLoadSourceMap_run n p l : forall k w,
  p < length (promises w) ->
  exists w1 ps mine,
    exec_sync D (run D (S n)) p (dispatchLoadSourceMap l k) w
      = exec_sync D (run D (S n)) p (k ps) w1 /\
    progress p w w1 mine /\
    actions_of mine = [] /\
    dispatches_of mine = map (fun s => loadSourceMap (Src.id s)) l /\
    length ps = length l /\
    Forall2 (fun r s =>
               who <$> promises w1 !! r = Some (Some (loadSourceMap (Src.id s))) /\
               EDispatch p (loadSourceMap (Src.id s)) r ∈ trace w1)
      ps l /\
    frame p w w1.
Proof.
  induction l as [|s l IH]; intros k w Hp.
  - exists w, [], []. split; [done|]. split; [apply progress_refl|].
    do 3 (split; [done|]). split; [constructor|apply frame_refl].
  - cbn [dispatchLoadSourceMap].
    destruct (exec_DispatchThunk (S n) p (loadSourceMap (Src.id s))
                (fun q => dispatchLoadSourceMap l (fun ps => k (q :: ps))) w Hp
                (total_loadSourceMap _ _)) as (w1 & Heq1 & Hpr1 & Hwho1 & Hf1).
    rewrite Heq1. cbv beta.
    assert (Hp1 : p < length (promises w1)) by (destruct Hpr1 as (_ & ? & _); lia).
    destruct (IH (fun ps => k (length (promises w) :: ps)) w1 Hp1)
      as (w2 & ps & mine & Heq2 & Hpr2 & Ha & Hd & Hl & Hwho2 & Hf2).
    eexists w2, (_ :: ps), _. split; [exact Heq2|].
    split; [eapply progress_trans; [exact Hpr1|exact Hpr2]|].
    simpl. rewrite Ha, Hd, Hl. do 3 (split; [done|]). split.
    + constructor; [|done]. split.
      * destruct Hf2 as (_ & _ & _ & Hw2). rewrite Hw2; [done|].
        destruct (promises w1 !! length (promises w)) as [e|] eqn:E; [|done].
        by apply lookup_lt_Some in E.
      * eapply frame_trace_in; [exact Hf2|].
        eapply progress_own_in; [exact Hpr1|]. by apply list_elem_of_singleton.
    + eapply frame_trans; [exact Hf1|exact Hf2|by left].
Qed.

Lemma loadSourceMaps_sync n p l w :
  p < length (promises w) ->
  exists w1 ps mine,
    run D (S (S n)) p (loadSourceMaps_body l) w
      = Some (set_status p (Waiting (AwaitAll ps afterAll)) w1) /\
    progress p w w1 mine /\
    actions_of mine = [] /\
    dispatches_of mine = map (fun s => loadSourceMap (Src.id s)) l /\
    length ps = length l /\
    Forall2 (fun r s =>
               who <$> promises w1 !! r = Some (Some (loadSourceMap (Src.id s))) /\
               EDispatch p (loadSourceMap (Src.id s)) r ∈ trace w1)
      ps l /\
    frame p w w1.
Proof.
  intros Hp. unfold loadSourceMaps_body.
  destruct (dispatchLoadSourceMap_run n p l (fun ps => AwaitAll ps afterAll) w Hp)
    as (w1 & ps & mine & Heq & Hpr & Ha & Hd & Hl).
  exists w1, ps, mine. split; [|done].
  change (run D (S (S n))) with (exec_sync D (run D (S n))). by rewrite Heq.
Qed.

Lemma total_loadSourceMaps n l : total D (S (S n)) (loadSourceMaps l).
Proof.
  intros b [= <-] q w Hq.
  destruct (loadSourceMaps_sync n q l w Hq) as (w1 & ps & mine & -> & _). done.
Qed.


Lemma who_set_status p s w q :
  who <$> promises (set_status p s w) !! q = who <$> promises w !! q.
Proof.
  simpl. destruct (decide (p = q)) as [->|Hne].
  - rewrite list_lookup_alter_eq. by destruct (promises w !! q).
  - by rewrite list_lookup_alter_ne.
Qed.

(** [newSources] when nothing survives the filter: it returns at once. *)
Lemma newSources_sync_empty n p l w :
  survivors (store w) l = [] ->
  run D (S n) p (newSources_body l) w = Some (settle p (Fulfilled VUndefined) w).
Proof.
  intros Hf. unfold newSources_body. cbn [run].
  rewrite filterSources_run, Hf. done.
Qed.

(** [newSources] when something survives: one ADD_SOURCES, then the checks of
    every survivor, then [loadSourceMaps], which it awaits. *)
Lemma newSources_sync_add n p l w :
  p < length (promises w) ->
  survivors (store w) l <> [] ->
  exists w' q mine,
    run D (S (S (S n))) p (newSources_body l) w = Some w' /\
    own p (new_events w w') = EAction p (ADD_SOURCES (survivors (store w) l)) :: mine /\
    actions_of mine = [] /\
    dispatches_of mine
      = flat_map checks (survivors (store w) l) ++ [loadSourceMaps (survivors (store w) l)] /\
    status_at w' p = Some (Waiting (await q (fun _ => Return VUndefined))) /\
    who <$> promises w' !! q = Some (Some (loadSourceMaps (survivors (store w) l))) /\
    length (promises w) <= q.
Proof.
  intros Hp Hf. unfold newSources_body.
  change (run D (S (S (S n)))) with (exec_sync D (run D (S (S n)))).
  rewrite filterSources_run.
  set (f := survivors (store w) l) in *.
  destruct f as [|s f'] eqn:Ef; [done|]. rewrite <- Ef. clear Hf.
  cbn [exec_sync].
  set (wa := emit (EAction p (ADD_SOURCES f)) (apply_action (ADD_SOURCES f) w)).
  assert (Hpa : p < length (promises wa)) by done.
  destruct (checkEach_run (S n) p f
              (DispatchThunk (loadSourceMaps f) (fun q => await q (fun _ => Return VUndefined)))
              wa Hpa) as (wb & mine1 & Heq1 & Hpr1 & Ha1 & Hd1 & _).
  rewrite Heq1.
  assert (Hpb : p < length (promises wb)) by (destruct Hpr1 as (_ & ? & _); lia).
  destruct (exec_DispatchThunk (S (S n)) p (loadSourceMaps f)
              (fun q => await q (fun _ => Return VUndefined)) wb Hpb
              (total_loadSourceMaps _ _)) as (wc & Heq2 & Hpr2 & Hwho & _).
  rewrite Heq2. cbn [exec_sync await].
  assert (Hpc : p < length (promises wc)) by (destruct Hpr2 as (_ & ? & _); lia).
  eexists _, (length (promises wb)), _. split; [done|].
  assert (Hpr : progress p w wc
            ([EAction p (ADD_SOURCES f)]
               ++ mine1 ++ [EDispatch p (loadSourceMaps f) (length (promises wb))])).
  { eapply progress_trans; [|eapply progress_trans; [exact Hpr1|exact Hpr2]].
    change [EAction p (ADD_SOURCES f)] with ([] ++ [EAction p (ADD_SOURCES f)]).
    eapply progress_trans; [apply progress_apply_action | by apply progress_emit]. }
  split; [|split; [|split; [|split; [|split]]]].
  - destruct Hpr as ((evs & Ht & Ho) & _).
    rewrite (new_events_app w _ evs); [by rewrite Ho|done].
  - unfold actions_of. rewrite omap_app. fold (actions_of mine1). by rewrite Ha1.
  - unfold dispatches_of. rewrite omap_app. fold (dispatches_of mine1).
    by rewrite Hd1.
  - by rewrite status_at_set_status.
  - by rewrite who_set_status.
  - destruct Hpr1 as (_ & ? & _). simpl in *. lia.
Qed.

Lemma total_newSources n l : total D (S (S (S n))) (newSources l).
Proof.
  intros b [= <-] q w Hq.
  destruct (survivors (store w) l) as [|s f] eqn:Ef.
  - by rewrite newSources_sync_empty.
  - destruct (newSources_sync_add n q l w Hq) as (w' & ? & ? & -> & _); [|done].
    by rewrite Ef.
Qed.

End Bodies.

(** ** Registration of a batch *)

(** C1: [newSources] keeps, in order, the candidates that are present and
    whose id the registry does not hold.  When none is left it returns at
    once and the world only records that its promise is fulfilled; otherwise
    the task dispatches exactly one ADD_SOURCES, first among its events,
    carrying all the survivors in that order, and what remains after its
    [await] is a plain return. *)
Theorem newSources_registers_survivors_once (D : Deps) n p l w :
  p < length (promises w) ->
  exists w',
    run D (S (S (S n))) p (newSources_body l) w = Some w' /\
    match survivors (store w) l with
    | [] => w' = settle p (Fulfilled VUndefined) w
    | f =>
        actions_of (own p (new_events w w')) = [ADD_SOURCES f] /\
        head (own p (new_events w w')) = Some (EAction p (ADD_SOURCES f)) /\
        exists q, status_at w' p = Some (Waiting (await q (fun _ => Return VUndefined)))
    end.
Proof.
  intros Hp. destruct (survivors (store w) l) as [|s f] eqn:Ef.
  - exists (settle p (Fulfilled VUndefined) w). split; [|done].
    eapply run_mono; [by apply (newSources_sync_empty D 0)|lia].
  - destruct (newSources_sync_add D n p l w Hp) as (w' & q & mine & Hrun & Ho & Ha & _ & Hs & _);
      [by rewrite Ef|].
    exists w'. split; [done|]. rewrite Ho, <- Ef. simpl. rewrite Ha.
    split; [done|]. split; [done|]. by exists q.
Qed.

Lemma newSources_registers_survivors_once_witness :
  1 < length (promises (alloc (newSources []) Running (initial Example.empty_state))) /\
  exists w',
    run Example.deps 3 1
      (newSources_body [Some Example.A; None; Some Example.B])
      (alloc (newSources []) Running (initial Example.empty_state)) = Some w' /\
    match survivors Example.empty_state [Some Example.A; None; Some Example.B] with
    | [] => w' = settle 1 (Fulfilled VUndefined)
                   (alloc (newSources []) Running (initial Example.empty_state))
    | f =>
        actions_of (own 1 (new_events
           (alloc (newSources []) Running (initial Example.empty_state)) w'))
          = [ADD_SOURCES f] /\
        head (own 1 (new_events
           (alloc (newSources []) Running (initial Example.empty_state)) w'))
          = Some (EAction 1 (ADD_SOURCES f)) /\
        exists q, status_at w' 1 = Some (Waiting (await q (fun _ => Return VUndefined)))
    end.
Proof.
  split; [simpl; lia|].
  apply (newSources_registers_survivors_once Example.deps 0 1
           [Some Example.A; None; Some Example.B]
           (alloc (newSources []) Running (initial Example.empty_state))).
  simpl; lia.
Defined.

(** C2, as the specification states it, fails: with an empty registry the
    batch [A, B, A] is added whole, the second A included. *)
Lemma newSources_ABA_counterexample :
  getSource Example.empty_state (Src.id Example.A) = None /\
  getSource Example.empty_state (Src.id Example.B) = None /\
  exists w',
    dispatch Example.deps 4
      (newSources [Some Example.A; Some Example.B; Some Example.A])
      (initial Example.empty_state) = Some w' /\
    actions_of (own 1 (trace w'))
      = [ADD_SOURCES [Example.A; Example.B; Example.A]] /\
    actions_of (own 1 (trace w')) <> [ADD_SOURCES [Example.A; Example.B]].
Proof.
  split; [done|]. split; [done|].
  eexists. split; [vm_compute; reflexivity|].
  split; [vm_compute; reflexivity|]. vm_compute. discriminate.
Qed.

(** C2, amended: the store is read and not written while the batch is
    filtered, so for A and B both unknown to the registry the batch
    [A, B, A] gives exactly one ADD_SOURCES carrying [A, B, A]. *)
Theorem newSources_keeps_duplicates_of_the_batch (D : Deps) n p w (A B : Source) :
  p < length (promises w) ->
  getSource (store w) (Src.id A) = None ->
  getSource (store w) (Src.id B) = None ->
  exists w',
    run D (S (S (S n))) p (newSources_body [Some A; Some B; Some A]) w = Some w' /\
    actions_of (own p (new_events w w')) = [ADD_SOURCES [A; B; A]].
Proof.
  intros Hp HA HB.
  assert (Hf : survivors (store w) [Some A; Some B; Some A] = [A; B; A]).
  { unfold survivors. simpl. by rewrite !decide_True by done. }
  destruct (newSources_sync_add D n p [Some A; Some B; Some A] w Hp)
    as (w' & q & mine & Hrun & Ho & Ha & _); [by rewrite Hf|].
  exists w'. split; [done|]. rewrite Ho, Hf. simpl. by rewrite Ha.
Qed.

Lemma newSources_keeps_duplicates_of_the_batch_witness :
  exists w',
    run Example.deps 3 1
      (newSources_body [Some Example.A; Some Example.B; Some Example.A])
      (alloc (newSources []) Running (initial Example.empty_state)) = Some w' /\
    actions_of (own 1 (new_events
       (alloc (newSources []) Running (initial Example.empty_state)) w'))
      = [ADD_SOURCES [Example.A; Example.B; Example.A]].
Proof.
  apply (newSources_keeps_duplicates_of_the_batch Example.deps 0 1
           (alloc (newSources []) Running (initial Example.empty_state))
           Example.A Example.B); [simpl; lia | reflexivity | reflexivity].
Defined.

(** ** Source-map resolution of one source *)

(** C6: for a source that is not generated, or that declares no source-map
    url, [loadSourceMap] returns [undefined] at once: the only new event is
    the settlement of its promise, so the resolver is not called, nothing is
    dispatched and the store is as before. *)
Theorem loadSourceMap_without_map_is_silent (D : Deps) n p i s w :
  getSource (store w) i = Some s ->
  isGeneratedId D (Src.id s) = false \/ truthy (Src.sourceMapURL s) = false ->
  exists w',
    run D (S n) p (loadSourceMap_body D i) w = Some w' /\
    w' = settle p (Fulfilled VUndefined) w /\
    new_events w w' = [ESettle p (Fulfilled VUndefined)] /\
    store w' = store w /\
    length (promises w') = length (promises w).
Proof.
  intros Hs Hc. eexists. split; [apply loadSourceMap_sync|].
  rewrite Hs.
  assert (negb (isGeneratedId D (Src.id s)) || negb (truthy (Src.sourceMapURL s)) = true)
    as -> by (destruct Hc as [-> | ->]; [done|by rewrite orb_true_r]).
  split; [done|]. split; [by apply new_events_app|]. split; [done|].
  simpl. by rewrite length_alter.
Qed.

Lemma loadSourceMap_without_map_is_silent_witness :
  exists w',
    run Example.deps 1 1 (loadSourceMap_body Example.deps "a")
      (alloc (loadSourceMap "a") Running
         (apply_action (ADD_SOURCES [Example.A]) (initial Example.empty_state)))
      = Some w' /\
    w' = settle 1 (Fulfilled VUndefined)
           (alloc (loadSourceMap "a") Running
              (apply_action (ADD_SOURCES [Example.A]) (initial Example.empty_state))) /\
    new_events
      (alloc (loadSourceMap "a") Running
         (apply_action (ADD_SOURCES [Example.A]) (initial Example.empty_state))) w'
      = [ESettle 1 (Fulfilled VUndefined)] /\
    store w' = reducer (ADD_SOURCES [Example.A]) Example.empty_state /\
    length (promises w') = 2.
Proof.
  apply (loadSourceMap_without_map_is_silent Example.deps 0 1 "a" Example.A
           (alloc (loadSourceMap "a") Running
              (apply_action (ADD_SOURCES [Example.A]) (initial Example.empty_state))));
    [reflexivity | right; reflexivity].
Defined.

(** C4: a generated source with a source-map url whose resolver call throws.
    The synchronous stretch of [loadSourceMap] only calls the resolver; when
    the resolver throws [e], the task logs [e], dispatches one UPDATE_SOURCE
    carrying the record with [sourceMapURL] set to the empty string and every
    other field kept, dispatches no thunk (no promise is created, so no
    original source is registered), and fulfils its promise: the failure is
    not passed on. *)
Theorem loadSourceMap_resolver_failure (D : Deps) n m p i s e w :
  p < length (promises w) ->
  getSource (store w) i = Some s ->
  isGeneratedId D (Src.id s) = true ->
  truthy (Src.sourceMapURL s) = true ->
  exists w1 w2,
    run D (S n) p (loadSourceMap_body D i) w = Some w1 /\
    new_events w w1 = [EGetOriginalURLs p s] /\
    step D (S m) (Answer p (Threw e)) w1 = Some w2 /\
    new_events w1 w2
      = [EAnswer p (Threw e); ELog p e;
         EAction p (UPDATE_SOURCE (clearSourceMapURL s));
         ESettle p (Fulfilled VUndefined)] /\
    clearSourceMapURL s
      = Src.mk (Src.id s) (Src.url s) (Src.isPrettyPrinted s) (Src.isWasm s)
          (Src.isBlackBoxed s) (Src.loadedState s) (Some "") /\
    length (promises w2) = length (promises w) /\
    outcome_at w2 p = Some (Fulfilled VUndefined).
Proof.
  intros Hp Hs Hg Hm. eexists _, _.
  split; [apply loadSourceMap_sync|]. rewrite Hs, Hg, Hm. cbn [negb orb].
  split; [by apply new_events_app|].
  unfold step.
  change (status_at (emit ?e ?w0) p) with (status_at w0 p).
  rewrite status_at_set_status by done.
  cbn [run exec_sync tryOriginalURLs withOriginalURLs].
  split; [done|]. split; [apply new_events_app; simpl; by rewrite <- !app_assoc|].
  split; [done|]. split; [simpl; by rewrite !length_alter|].
  apply outcome_at_settle. simpl. by rewrite !length_alter.
Qed.

Lemma loadSourceMap_resolver_failure_witness :
  exists w1 w2,
    run Example.deps 1 1 (loadSourceMap_body Example.deps "g")
      (alloc (loadSourceMap "g") Running
         (apply_action (ADD_SOURCES [Example.G]) (initial Example.empty_state)))
      = Some w1 /\
    new_events
      (alloc (loadSourceMap "g") Running
         (apply_action (ADD_SOURCES [Example.G]) (initial Example.empty_state))) w1
      = [EGetOriginalURLs 1 Example.G] /\
    step Example.deps 1 (Answer 1 (Threw (ExtError 7))) w1 = Some w2 /\
    new_events w1 w2
      = [EAnswer 1 (Threw (ExtError 7)); ELog 1 (ExtError 7);
         EAction 1 (UPDATE_SOURCE (clearSourceMapURL Example.G));
         ESettle 1 (Fulfilled VUndefined)] /\
    clearSourceMapURL Example.G
      = Src.mk "g" (Some "g.js") false false false Unloaded (Some "") /\
    length (promises w2) = 2 /\
    outcome_at w2 1 = Some (Fulfilled VUndefined).
Proof.
  apply (loadSourceMap_resolver_failure Example.deps 0 0 1 "g" Example.G (ExtError 7)
           (alloc (loadSourceMap "g") Running
              (apply_action (ADD_SOURCES [Example.G]) (initial Example.empty_state))));
    [simpl; lia | reflexivity | reflexivity | reflexivity].
Defined.

(** ** Selection intent *)

(** C7: the synchronous stretch of [checkSelectedSource] for a registered
    source [s].  With no intent to resolve the task returns at once;
    otherwise it dispatches one thunk, the pretty-print toggle when the
    pending url is a pretty url and else the selection of the pending
    location with this source's id, and awaits it; after the await the task
    only returns, the value of the toggle or [undefined] after a selection,
    so the toggle stands instead of the selection and not beside it. *)
Theorem checkSelectedSource_resolves_intent (D : Deps) n p i s w :
  getSource (store w) i = Some s ->
  exists w',
    run D (S n) p (checkSelectedSource_body D i) w = Some w' /\
    match selectionIntent D (store w) s with
    | None => w' = settle p (Fulfilled VUndefined) w
    | Some t =>
        w' = awaiting_imported p t
               match t with
               | togglePrettyPrint _ => fun v => Return v
               | _ => fun _ => Return VUndefined
               end w
    end.
Proof.
  intros Hs. unfold checkSelectedSource_body, selectionIntent. cbn [run exec_sync].
  rewrite Hs. cbn [exec_sync].
  destruct (getPendingSelectedLocation (store w)) as [pl|];
    [|eexists; split; [reflexivity|done]].
  destruct (Loc.url pl) as [u|]; [|eexists; split; [reflexivity|done]].
  destruct (Src.url s) as [su|] eqn:Hu.
  - destruct (truthy (Some u)), (truthy (Some su)); cbn [negb orb andb];
      try (eexists; split; [reflexivity|done]).
    destruct (decide (Some (getRawSourceURL D u) = Some su)) as [Heq|Hne].
    + rewrite bool_decide_eq_true_2 by congruence.
      destruct (isPrettyURL D u); cbn [exec_sync body await];
        eexists; (split; reflexivity).
    + rewrite bool_decide_eq_false_2 by congruence.
      eexists; split; [reflexivity|done].
  - cbn [truthy negb]. rewrite orb_true_r. eexists; split; [reflexivity|done].
Qed.

Lemma checkSelectedSource_resolves_intent_witness :
  exists w',
    run Example.deps 1 1 (checkSelectedSource_body Example.deps "foo")
      (Example.started (checkSelectedSource "foo") Example.pending_state) = Some w' /\
    w' = awaiting_imported 1 (togglePrettyPrint "foo") (fun v => Return v)
           (Example.started (checkSelectedSource "foo") Example.pending_state).
Proof.
  apply (checkSelectedSource_resolves_intent Example.deps 0 1 "foo" Example.Foo
           (Example.started (checkSelectedSource "foo") Example.pending_state)).
  reflexivity.
Defined.

Lemma survivors_novel st (l : list Source) :
  Forall (fun o => getSource st (Src.id o) = None) l ->
  survivors st (map Some l) = l.
Proof.
  induction 1 as [|o l Ho _ IH]; [done|].
  unfold survivors in *. simpl. rewrite decide_True by done. simpl.
  f_equal. exact IH.
Qed.

Lemma createOriginalSource_each (D : Deps) (s : Source) (urls : list string) :
  Forall2 (fun u o =>
             Src.url o = Some u /\
             Src.id o = generatedToOriginalId D (Src.id s) u /\
             Src.loadedState o = Unloaded /\
             Src.isWasm o = false)
    urls (map (fun u => createOriginalSource D u s) urls).
Proof. induction urls as [|u urls IH]; simpl; by constructor. Qed.

Lemma own_cons_eq p e evs : actor e = p -> own p (e :: evs) = e :: own p evs.
Proof. intros He. unfold own. by rewrite filter_cons_True. Qed.

Lemma own_cons_ne p e evs : actor e <> p -> own p (e :: evs) = own p evs.
Proof. intros He. unfold own. by rewrite filter_cons_False. Qed.

Lemma own_nil p : own p [] = [].
Proof. done. Qed.

Lemma own_frame_nil p q w w' evs :
  frame q w w' -> trace w' = trace w ++ evs ->
  p < length (promises w) -> p <> q -> own p evs = [].
Proof.
  intros Hf Ht Hp Hne.
  destruct (frame_progress p q w w' Hf Hp Hne) as ((evs' & Ht' & Ho) & _).
  rewrite Ht in Ht'. by apply app_inv_head in Ht' as ->.
Qed.

(** The answer of the resolver with a list of urls, seen from any world in
    which task [p] is suspended at the resolver call of [loadSourceMap]. *)
Lemma loadSourceMap_answer_urls (D : Deps) n p s urls w :
  p < length (promises w) ->
  status_at w p = Some (Waiting (AwaitOriginalURLs s (tryOriginalURLs D s))) ->
  exists w' q,
    step D (S (S (S (S n)))) (Answer p (Resolved (Some urls))) w = Some w' /\
    own p (new_events w w')
      = [EAnswer p (Resolved (Some urls));
         EDispatch p
           (newSources (map (fun u => Some (createOriginalSource D u s)) urls)) q;
         ESettle p (Fulfilled VUndefined)] /\
    actions_of (own q (new_events w w'))
      = match survivors (store w)
                (map (fun u => Some (createOriginalSource D u s)) urls) with
        | [] => []
        | f => [ADD_SOURCES f]
        end /\
    outcome_at w' p = Some (Fulfilled VUndefined) /\
    length (promises w) <= q.
Proof.
  intros Hp Hst. unfold step. rewrite Hst.
  set (cands := map (fun u => Some (createOriginalSource D u s)) urls).
  set (wA := emit (EAnswer p (Resolved (Some urls))) (set_status p Running w)).
  set (q := length (promises wA)).
  set (wB := emit (EDispatch p (newSources cands) q) (alloc (newSources cands) Running wA)).
  assert (HlA : length (promises wA) = length (promises w))
    by (simpl; by rewrite length_alter).
  assert (HlB : length (promises wB) = S q)
    by (unfold wB, q; simpl; rewrite length_app; simpl; lia).
  assert (HqB : q < length (promises wB)) by lia.
  assert (HpB : p < length (promises wB)) by (unfold q in HlB; lia).
  destruct (total_newSources D n cands _ eq_refl q wB HqB) as [wC HC].
  pose proof (run_frame D _ _ _ _ _ HC) as HfC.
  destruct HfC as ((evs & Ht & Hall) & HlC & HpC & HwC).
  assert (Hown : own p evs = []).
  { eapply (own_frame_nil p q wB wC); [|done|done|lia].
    by split; [exists evs|]. }
  exists (settle p (Fulfilled VUndefined) wC), q.
  split.
  { change (run D (S (S (S (S n))))) with (exec_sync D (run D (S (S (S n))))).
    cbn [tryOriginalURLs withOriginalURLs exec_sync body]. fold cands wA q wB.
    by rewrite HC. }
  assert (Htr : trace (settle p (Fulfilled VUndefined) wC)
                = trace w ++ [EAnswer p (Resolved (Some urls))]
                    ++ [EDispatch p (newSources cands) q] ++ evs
                    ++ [ESettle p (Fulfilled VUndefined)]).
  { simpl. rewrite Ht. simpl. by rewrite <- !app_assoc. }
  rewrite (new_events_app _ _ _ Htr).
  split; [|split; [|split]].
  - rewrite !own_app, Hown. by rewrite !own_cons_eq, !own_nil by done.
  - rewrite !own_app. rewrite !(own_cons_ne q) by (simpl; lia).
    rewrite !own_nil, app_nil_r. cbn [app].
    assert (Hst' : store wB = store w) by done.
    destruct (survivors (store w) cands) as [|s0 f] eqn:Ef.
    + rewrite (run_mono D _ _ _ _ _ (newSources_sync_empty D 0 q cands wB
                 ltac:(by rewrite Hst')) (S (S (S n)))) in HC by lia.
      injection HC as <-. simpl in Ht.
      apply app_inv_head in Ht as <-. by rewrite own_cons_eq, own_nil.
    + destruct (newSources_sync_add D n q cands wB HqB)
        as (w' & q' & mine & Hrun & Ho & Ha & _); [by rewrite Hst', Ef|].
      rewrite Hrun in HC. injection HC as ->.
      rewrite (new_events_app _ _ _ Ht) in Ho. rewrite Ho, Hst', Ef.
      simpl. by rewrite Ha.
  - apply outcome_at_settle. lia.
  - lia.
Qed.

(** C5, as the specification states it, fails: the registry holds the
    generated source [G] and already holds a record under the id derived
    from "g" and "file:///orig.js", its text loaded.  The resolver answers
    with that one url; no action is dispatched, the registry is as it was
    and the record under the derived id is the loaded one, so no original
    source with [loadedState] "unloaded" has been registered for the url. *)
Lemma loadSourceMap_known_original_counterexample :
  getSource Example.known_state "g" = Some Example.G /\
  isGeneratedId Example.deps (Src.id Example.G) = true /\
  truthy (Src.sourceMapURL Example.G) = true /\
  exists w1 w2,
    run Example.deps 1 1 (loadSourceMap_body Example.deps "g")
      (Example.started (loadSourceMap "g") Example.known_state) = Some w1 /\
    step Example.deps 4 (Answer 1 (Resolved (Some ["file:///orig.js"]))) w1 = Some w2 /\
    outcome_at w2 1 = Some (Fulfilled VUndefined) /\
    actions_of (new_events w1 w2) = [] /\
    store w2 = Example.known_state /\
    getSource (store w2) (generatedToOriginalId Example.deps "g" "file:///orig.js")
      = Some Example.Orig /\
    Src.loadedState Example.Orig <> Unloaded.
Proof.
  split; [reflexivity|]. split; [reflexivity|]. split; [reflexivity|].
  eexists. eexists. split; [vm_compute; reflexivity|].
  split; [vm_compute; reflexivity|].
  split; [reflexivity|]. split; [reflexivity|]. split; [reflexivity|].
  split; [reflexivity|]. discriminate.
Qed.

(** C5, amended: a generated source with a source-map url whose resolver
    answers with the non-empty list [urls].  The task builds one original
    source per url, in order, each with the url, the id derived from the
    generated id and the url, [loadedState] "unloaded" and [isWasm] false,
    and hands them to one [newSources] dispatch, which it does not await; it
    dispatches no action of its own (no UPDATE_SOURCE) and fulfils its
    promise.  The [newSources] task adds, in one ADD_SOURCES, those of them
    whose id the registry does not hold yet, and dispatches no action when
    it holds them all; when every derived id is new, all are added. *)
Theorem loadSourceMap_registers_originals (D : Deps) n m p i s urls w :
  p < length (promises w) ->
  getSource (store w) i = Some s ->
  isGeneratedId D (Src.id s) = true ->
  truthy (Src.sourceMapURL s) = true ->
  urls <> [] ->
  exists w1 w2 q,
    run D (S n) p (loadSourceMap_body D i) w = Some w1 /\
    step D (S (S (S (S m)))) (Answer p (Resolved (Some urls))) w1 = Some w2 /\
    own p (new_events w1 w2)
      = [EAnswer p (Resolved (Some urls));
         EDispatch p
           (newSources (map Some (map (fun u => createOriginalSource D u s) urls))) q;
         ESettle p (Fulfilled VUndefined)] /\
    actions_of (own p (new_events w1 w2)) = [] /\
    Forall2 (fun u o =>
               Src.url o = Some u /\
               Src.id o = generatedToOriginalId D (Src.id s) u /\
               Src.loadedState o = Unloaded /\
               Src.isWasm o = false)
      urls (map (fun u => createOriginalSource D u s) urls) /\
    actions_of (own q (new_events w1 w2))
      = match survivors (store w)
                (map Some (map (fun u => createOriginalSource D u s) urls)) with
        | [] => []
        | f => [ADD_SOURCES f]
        end /\
    (Forall (fun o => getSource (store w) (Src.id o) = None)
       (map (fun u => createOriginalSource D u s) urls) ->
     survivors (store w) (map Some (map (fun u => createOriginalSource D u s) urls))
       = map (fun u => createOriginalSource D u s) urls).
Proof.
  intros Hp Hs Hg Hm _.
  set (w1 := emit (EGetOriginalURLs p s)
               (set_status p (Waiting (AwaitOriginalURLs s (tryOriginalURLs D s))) w)).
  assert (Hp1 : p < length (promises w1)) by (simpl; by rewrite length_alter).
  assert (Hst : status_at w1 p
                = Some (Waiting (AwaitOriginalURLs s (tryOriginalURLs D s)))).
  { unfold w1. change (status_at (emit ?e ?w0) p) with (status_at w0 p).
    by apply status_at_set_status. }
  destruct (loadSourceMap_answer_urls D m p s urls w1 Hp1 Hst)
    as (w2 & q & Hstep & Ho & Ha & _ & _).
  rewrite map_map. exists w1, w2, q.
  split; [rewrite loadSourceMap_sync, Hs, Hg, Hm; done|].
  split; [done|]. split; [done|]. split; [by rewrite Ho|].
  split; [apply createOriginalSource_each|]. split; [exact Ha|].
  intros Hnovel. rewrite <- map_map. by apply survivors_novel.
Qed.

Lemma loadSourceMap_registers_originals_witness :
  exists w1 w2 q,
    run Example.deps 1 1 (loadSourceMap_body Example.deps "g")
      (Example.started (loadSourceMap "g")
         (reducer (ADD_SOURCES [Example.G]) Example.empty_state)) = Some w1 /\
    step Example.deps 4 (Answer 1 (Resolved (Some ["file:///orig.js"]))) w1 = Some w2 /\
    own 1 (new_events w1 w2)
      = [EAnswer 1 (Resolved (Some ["file:///orig.js"]));
         EDispatch 1
           (newSources
              [Some (Example.plain "g/originalSource-file:///orig.js"
                       (Some "file:///orig.js") None)]) q;
         ESettle 1 (Fulfilled VUndefined)] /\
    actions_of (own 1 (new_events w1 w2)) = [] /\
    Forall2 (fun u o =>
               Src.url o = Some u /\
               Src.id o = generatedToOriginalId Example.deps "g" u /\
               Src.loadedState o = Unloaded /\
               Src.isWasm o = false)
      ["file:///orig.js"]
      [Example.plain "g/originalSource-file:///orig.js" (Some "file:///orig.js") None] /\
    actions_of (own q (new_events w1 w2))
      = [ADD_SOURCES
           [Example.plain "g/originalSource-file:///orig.js"
              (Some "file:///orig.js") None]] /\
    (Forall (fun o => getSource
                        (reducer (ADD_SOURCES [Example.G]) Example.empty_state)
                        (Src.id o) = None)
       [Example.plain "g/originalSource-file:///orig.js" (Some "file:///orig.js") None] ->
     survivors (reducer (ADD_SOURCES [Example.G]) Example.empty_state)
       [Some (Example.plain "g/originalSource-file:///orig.js"
                (Some "file:///orig.js") None)]
       = [Example.plain "g/originalSource-file:///orig.js" (Some "file:///orig.js") None]).
Proof.
  apply (loadSourceMap_registers_originals Example.deps 0 0 1 "g" Example.G
           ["file:///orig.js"]
           (Example.started (loadSourceMap "g")
              (reducer (ADD_SOURCES [Example.G]) Example.empty_state)));
    [simpl; lia | reflexivity | reflexivity | reflexivity | discriminate].
Defined.

(** ** The single-source entry point *)

Lemma resume_await (D : Deps) m p q o w :
  status_at w p = Some (Waiting (await q (fun _ => Return VUndefined))) ->
  outcome_at w q = Some o ->
  step D (S m) (Resume p) w = Some (settle p (passed_on o) (set_status p Running w)).
Proof.
  intros Hs Ho. unfold step. rewrite Hs. unfold await. rewrite Ho.
  by destruct o.
Qed.

(** C10: [newSource(s)] does what [newSources([s])] does and nothing more.
    Run as task [p], it dispatches [newSources [s]], whose body runs as the
    next promise [q] exactly as a dispatch of the singleton batch does; the
    only event [newSource] adds is that dispatch; it then awaits [q], and when
    [q] is settled it settles the same way, a fulfilment with [undefined] or
    the rejection of [q]. *)
Theorem newSource_is_singleton_newSources (D : Deps) n m p s w w2 o :
  p < length (promises w) ->
  status_at w2 p
    = Some (Waiting (await (length (promises w)) (fun _ => Return VUndefined))) ->
  outcome_at w2 (length (promises w)) = Some o ->
  exists wc,
    run D (S (S (S n))) (length (promises w)) (newSources_body [Some s])
      (emit (EDispatch p (newSources [Some s]) (length (promises w)))
         (alloc (newSources [Some s]) Running w)) = Some wc /\
    run D (S (S (S (S n)))) p (newSource_body s) w
      = Some (set_status p
                (Waiting (await (length (promises w)) (fun _ => Return VUndefined))) wc) /\
    own p (new_events w wc) = [EDispatch p (newSources [Some s]) (length (promises w))] /\
    step D (S m) (Resume p) w2
      = Some (settle p (passed_on o) (set_status p Running w2)).
Proof.
  intros Hp Hs Ho.
  set (q := length (promises w)) in *.
  set (w0 := emit (EDispatch p (newSources [Some s]) q)
               (alloc (newSources [Some s]) Running w)).
  assert (Hq : q < length (promises w0))
    by (unfold w0, q; simpl; rewrite length_app; simpl; lia).
  destruct (total_newSources D n [Some s] _ eq_refl q w0 Hq) as [wc Hc].
  exists wc. split; [done|]. split; [|split].
  - change (run D (S (S (S (S n))))) with (exec_sync D (run D (S (S (S n))))).
    unfold newSource_body. cbn [exec_sync body]. fold q w0. by rewrite Hc.
  - pose proof (run_frame D _ _ _ _ _ Hc) as Hf.
    assert (Hpr : progress p w wc ([] ++ [EDispatch p (newSources [Some s]) q] ++ [])).
    { eapply progress_trans; [by apply progress_alloc|].
      eapply progress_trans; [by apply progress_emit|].
      eapply frame_progress; [exact Hf| |unfold q; lia].
      unfold w0. simpl. rewrite length_app. simpl. lia. }
    by apply progress_new_events in Hpr.
  - by apply (resume_await D m p q).
Qed.

Lemma newSource_is_singleton_newSources_witness :
  exists wc,
    run Example.deps 3 2 (newSources_body [Some Example.A])
      (emit (EDispatch 1 (newSources [Some Example.A]) 2)
         (alloc (newSources [Some Example.A]) Running Example.newSource_started))
      = Some wc /\
    run Example.deps 4 1 (newSource_body Example.A) Example.newSource_started
      = Some (set_status 1 (Waiting (await 2 (fun _ => Return VUndefined))) wc) /\
    own 1 (new_events Example.newSource_started wc)
      = [EDispatch 1 (newSources [Some Example.A]) 2] /\
    step Example.deps 1 (Resume 1) Example.newSource_child_settled
      = Some (settle 1 (Fulfilled VUndefined)
                (set_status 1 Running Example.newSource_child_settled)).
Proof.
  apply (newSource_is_singleton_newSources Example.deps 0 0 1 Example.A
           Example.newSource_started Example.newSource_child_settled
           (Fulfilled VUndefined));
    [simpl; lia | vm_compute; reflexivity | vm_compute; reflexivity].
Defined.

(** ** Pending breakpoints *)

Lemma status_at_emit e w p : status_at (emit e w) p = status_at w p.
Proof. done. Qed.

Lemma status_at_set_status_ne p s w q :
  q <> p -> status_at (set_status p s w) q = status_at w q.
Proof. intros Hne. unfold status_at. simpl. by rewrite list_lookup_alter_ne. Qed.

Lemma status_at_alloc_lt t s w q :
  q < length (promises w) -> status_at (alloc t s w) q = status_at w q.
Proof. intros Hq. unfold status_at. simpl. by rewrite lookup_app_l. Qed.

Lemma status_at_alloc_eq t s w : status_at (alloc t s w) (length (promises w)) = Some s.
Proof. unfold status_at. simpl. by rewrite list_lookup_middle. Qed.

Lemma status_at_lt w p s : status_at w p = Some s -> p < length (promises w).
Proof.
  unfold status_at. intros H.
  destruct (promises w !! p) as [e|] eqn:E; [|done].
  by apply lookup_lt_Some in E.
Qed.

Lemma status_at_settle_ne p o w q :
  q <> p -> status_at (settle p o w) q = status_at w q.
Proof. intros Hne. unfold settle. by rewrite status_at_emit, status_at_set_status_ne. Qed.

Lemma outcome_at_status w p o : outcome_at w p = Some o <-> status_at w p = Some (Done o).
Proof.
  unfold outcome_at. destruct (status_at w p) as [[| | |o']|]; split; congruence.
Qed.

Lemma settled_in_trace_emit e w : settled_in_trace w -> settled_in_trace (emit e w).
Proof.
  intros H q o Ho. simpl. apply elem_of_app. left. by apply H.
Qed.

Lemma settled_in_trace_set_status p s w :
  (forall o, s <> Done o) -> settled_in_trace w -> settled_in_trace (set_status p s w).
Proof.
  intros Hs H q o Ho. simpl. apply H. apply outcome_at_status in Ho.
  apply outcome_at_status. destruct (decide (q = p)) as [->|Hne].
  - pose proof (status_at_lt _ _ _ Ho) as Hlt. simpl in Hlt. rewrite length_alter in Hlt.
    rewrite status_at_set_status in Ho by done. naive_solver.
  - by rewrite status_at_set_status_ne in Ho.
Qed.

Lemma settled_in_trace_settle p o w : settled_in_trace w -> settled_in_trace (settle p o w).
Proof.
  intros H q o' Ho. simpl. apply elem_of_app. apply outcome_at_status in Ho.
  destruct (decide (q = p)) as [->|Hne].
  - pose proof (status_at_lt _ _ _ Ho) as Hlt. simpl in Hlt. rewrite length_alter in Hlt.
    unfold settle in Ho. rewrite status_at_emit, status_at_set_status in Ho by done.
    right. injection Ho as ->. by apply list_elem_of_singleton.
  - left. apply H. apply outcome_at_status. by rewrite status_at_settle_ne in Ho.
Qed.

Lemma settled_in_trace_alloc t s w :
  (forall o, s <> Done o) -> settled_in_trace w -> settled_in_trace (alloc t s w).
Proof.
  intros Hs H q o Ho. simpl. apply H. apply outcome_at_status in Ho.
  apply outcome_at_status.
  pose proof (status_at_lt _ _ _ Ho) as Hlt. rewrite length_promises_alloc in Hlt.
  destruct (decide (q = length (promises w))) as [->|Hne].
  - rewrite status_at_alloc_eq in Ho. naive_solver.
  - rewrite status_at_alloc_lt in Ho by lia. done.
Qed.

Lemma dispatched_snoc_dispatch p tr t q :
  dispatched p (tr ++ [EDispatch p t q]) = dispatched p tr ++ [t].
Proof.
  unfold dispatched, dispatches_of. rewrite own_app, omap_app.
  by rewrite own_cons_eq, own_nil.
Qed.

Lemma dispatched_snoc_other p tr e :
  (forall t q, e <> EDispatch p t q) -> dispatched p (tr ++ [e]) = dispatched p tr.
Proof.
  intros He. unfold dispatched, dispatches_of. rewrite own_app, omap_app.
  destruct (decide (actor e = p)) as [Ha|Ha].
  - rewrite own_cons_eq, own_nil by done.
    destruct e; simpl in *; try by rewrite app_nil_r. subst. by destruct (He t p0).
  - rewrite own_cons_ne, own_nil by done. by rewrite app_nil_r.
Qed.

Lemma snoc_eq_middle {A} (tr pre post : list A) (e x : A) :
  tr ++ [e] = pre ++ x :: post ->
  (tr = pre /\ e = x /\ post = []) \/ (exists post', post = post' ++ [e] /\ tr = pre ++ x :: post').
Proof.
  destruct post as [|y post _] using rev_ind.
  - intros H. apply app_inj_tail in H as [-> ->]. by left.
  - intros H. rewrite app_comm_cons, app_assoc in H.
    apply app_inj_tail in H as [-> ->]. right. by exists post.
Qed.

Lemma awaited_in_order_snoc_other p tr e :
  (forall t q, e <> EDispatch p t q) ->
  awaited_in_order p tr -> awaited_in_order p (tr ++ [e]).
Proof.
  intros He H pre t q post Heq.
  apply snoc_eq_middle in Heq as [(_ & -> & _)|(post' & _ & ->)].
  - by destruct (He t q).
  - by apply (H pre t q post').
Qed.

Lemma awaited_in_order_snoc_dispatch p tr t q :
  (forall t' q', EDispatch p t' q' ∈ tr -> exists v, ESettle q' (Fulfilled v) ∈ tr) ->
  awaited_in_order p tr -> awaited_in_order p (tr ++ [EDispatch p t q]).
Proof.
  intros He H pre t0 q0 post Heq.
  apply snoc_eq_middle in Heq as [(-> & _ & _)|(post' & _ & ->)].
  - exact He.
  - by apply (H pre t0 q0 post').
Qed.

Lemma syncPendingBreakpoints_inj i l1 : forall l2,
  syncPendingBreakpoints i l1 = syncPendingBreakpoints i l2 -> l1 = l2.
Proof.
  induction l1 as [|pb1 l1 IH]; intros [|pb2 l2] H; simpl in H; try done.
  injection H as -> Hk. f_equal. apply IH.
  apply (f_equal (fun k => k 0)) in Hk. unfold await in Hk. injection Hk as Hk.
  by apply (f_equal (fun k => k (Fulfilled VUndefined))) in Hk.
Qed.

Section BreakpointRun.
Context (D : Deps) (i : string) (intent : list thunk).

Lemma bp_settle_imported q o w :
  breakpoint_run i intent w -> status_at w q = Some Pending ->
  breakpoint_run i intent (settle q o w).
Proof.
  intros [Hord Hset Hhost Himp Htask] Hq.
  assert (Hq0 : q <> 0) by (intros ->; destruct Hhost as [?|[? ?]]; congruence).
  assert (Hq1 : q <> 1).
  { intros ->. destruct Htask as [(_ & ? & ?)|(? & ? & ? & _)]; congruence. }
  assert (Hl : length (promises (settle q o w)) = length (promises w))
    by (simpl; by rewrite length_alter).
  split.
  - by apply awaited_in_order_snoc_other.
  - by apply settled_in_trace_settle.
  - by rewrite status_at_settle_ne.
  - intros p Hp Hlt. rewrite Hl in Hlt. destruct (decide (p = q)) as [->|Hne].
    + right. exists o. apply outcome_at_status, outcome_at_settle.
      by apply status_at_lt in Hq.
    + rewrite status_at_settle_ne by done. by apply Himp.
  - rewrite status_at_settle_ne by done. rewrite Hl.
    change (trace (settle q o w)) with (trace w ++ [ESettle q o]).
    rewrite dispatched_snoc_other by done.
    destruct Htask as [?|(q1 & rest & Hs & Hi & Hr & Hful)]; [by left|right].
    exists q1, rest. split; [done|]. split; [done|]. split; [done|].
    intros t' q' Hin Hne. apply elem_of_app in Hin as [Hin|Hin].
    + destruct (Hful t' q' Hin Hne) as [v Hv]. exists v. apply elem_of_app. by left.
    + by apply list_elem_of_singleton in Hin.
Qed.

Lemma bp_host_returns w :
  breakpoint_run i intent w ->
  breakpoint_run i intent (settle 0 (Fulfilled VUndefined) (set_status 0 Running w)).
Proof.
  intros [Hord Hset Hhost Himp Htask].
  set (w' := settle 0 (Fulfilled VUndefined) (set_status 0 Running w)).
  assert (Hl : length (promises w') = length (promises w))
    by (simpl; by rewrite !length_alter).
  assert (H0 : 0 < length (promises w))
    by (destruct Hhost as [H|[? H]]; by apply status_at_lt in H).
  assert (Hst : forall p, p <> 0 -> status_at w' p = status_at w p).
  { intros p Hp. unfold w'.
    by rewrite status_at_settle_ne, status_at_set_status_ne. }
  split.
  - by apply awaited_in_order_snoc_other.
  - apply settled_in_trace_settle. by apply settled_in_trace_set_status.
  - right. exists (Fulfilled VUndefined).
    apply outcome_at_status, outcome_at_settle. simpl. by rewrite length_alter.
  - intros p Hp Hlt. rewrite Hl in Hlt. rewrite Hst by lia. by apply Himp.
  - rewrite Hst by lia. rewrite Hl.
    change (trace w') with (trace w ++ [ESettle 0 (Fulfilled VUndefined)]).
    rewrite dispatched_snoc_other by done.
    destruct Htask as [?|(q1 & rest & Hs & Hi & Hr & Hful)]; [by left|right].
    exists q1, rest. split; [done|]. split; [done|]. split; [done|].
    intros t' q' Hin Hne. apply elem_of_app in Hin as [Hin|Hin].
    + destruct (Hful t' q' Hin Hne) as [v Hv]. exists v. apply elem_of_app. by left.
    + by apply list_elem_of_singleton in Hin.
Qed.

Lemma bp_task_settles o w :
  breakpoint_run i intent w ->
  dispatched 1 (trace w) `prefix_of` intent ->
  1 < length (promises w) ->
  breakpoint_run i intent (settle 1 o (set_status 1 Running w)).
Proof.
  intros [Hord Hset Hhost Himp Htask] Hpre H1.
  set (w' := settle 1 o (set_status 1 Running w)).
  assert (Hl : length (promises w') = length (promises w))
    by (simpl; by rewrite !length_alter).
  assert (Hst : forall p, p <> 1 -> status_at w' p = status_at w p).
  { intros p Hp. unfold w'.
    by rewrite status_at_settle_ne, status_at_set_status_ne. }
  split.
  - by apply awaited_in_order_snoc_other.
  - apply settled_in_trace_settle. by apply settled_in_trace_set_status.
  - by rewrite Hst.
  - intros p Hp Hlt. rewrite Hl in Hlt. rewrite Hst by lia. by apply Himp.
  - left. change (trace w') with (trace w ++ [ESettle 1 o]).
    rewrite dispatched_snoc_other by done. split; [done|].
    exists o. apply outcome_at_status, outcome_at_settle.
    simpl. by rewrite length_alter.
Qed.

Lemma bp_task_dispatches q v pb rest w :
  breakpoint_run i intent w ->
  status_at w 1
    = Some (Waiting (await q (fun _ => syncPendingBreakpoints i (pb :: rest)))) ->
  outcome_at w q = Some (Fulfilled v) ->
  breakpoint_run i intent
    (set_status 1
       (Waiting (await (length (promises w))
                   (fun _ => syncPendingBreakpoints i rest)))
       (emit (EDispatch 1 (syncBreakpoint i pb) (length (promises w)))
          (alloc (syncBreakpoint i pb) Pending (set_status 1 Running w)))).
Proof.
  intros [Hord Hset Hhost Himp Htask] Hs Hq.
  set (q2 := length (promises w)).
  set (wa := set_status 1 Running w).
  set (wb := alloc (syncBreakpoint i pb) Pending wa).
  set (w' := set_status 1 _ _).
  assert (H1 : 1 < length (promises w)) by (by apply status_at_lt in Hs).
  assert (Hla : length (promises wa) = q2) by (simpl; by rewrite length_alter).
  assert (Hlb : length (promises wb) = S q2)
    by (unfold wb; by rewrite length_promises_alloc, Hla).
  assert (Hl : length (promises w') = S q2) by (simpl; by rewrite length_alter).
  assert (Hst : forall p, p <> 1 -> p < q2 -> status_at w' p = status_at w p).
  { intros p Hp Hlt. unfold w'.
    rewrite status_at_set_status_ne, status_at_emit by done.
    unfold wb. rewrite status_at_alloc_lt by lia.
    unfold wa. by rewrite status_at_set_status_ne. }
  destruct Htask as [(_ & o & Ho)|(q1 & rest1 & Hs1 & Hi & Hr & Hful)]; [congruence|].
  rewrite Hs in Hs1. injection Hs1 as -> Hk.
  assert (Hrest : rest1 = pb :: rest).
  { apply (f_equal (fun k => k (Fulfilled VUndefined))) in Hk.
    symmetry. by apply (syncPendingBreakpoints_inj i). }
  subst rest1. clear Hk.
  assert (Hall : forall t' q', EDispatch 1 t' q' ∈ trace w ->
                               exists v', ESettle q' (Fulfilled v') ∈ trace w).
  { intros t' q' Hin. destruct (decide (q' = q1)) as [->|Hne]; [|by eapply Hful].
    exists v. by apply Hset. }
  split.
  - by apply awaited_in_order_snoc_dispatch.
  - apply settled_in_trace_set_status; [done|]. apply settled_in_trace_emit.
    apply settled_in_trace_alloc; [done|]. by apply settled_in_trace_set_status.
  - rewrite Hst by lia. done.
  - intros p Hp Hlt. rewrite Hl in Hlt. destruct (decide (p = q2)) as [->|Hne].
    + left. unfold w'. rewrite status_at_set_status_ne, status_at_emit by lia.
      unfold wb. rewrite <- Hla. apply status_at_alloc_eq.
    + rewrite Hst by lia. apply Himp; [done|]. fold q2. lia.
  - right. exists q2, rest. split; [|split; [|split]].
    + apply status_at_set_status. simpl. rewrite length_app, length_alter. simpl. lia.
    + change (trace w') with (trace w ++ [EDispatch 1 (syncBreakpoint i pb) q2]).
      rewrite dispatched_snoc_dispatch, Hi. simpl. by rewrite <- app_assoc.
    + rewrite Hl. lia.
    + intros t' q' Hin Hne.
      change (trace w') with (trace w ++ [EDispatch 1 (syncBreakpoint i pb) q2]) in *.
      apply elem_of_app in Hin as [Hin|Hin].
      * destruct (Hall t' q' Hin) as [v' Hv']. exists v'. apply elem_of_app. by left.
      * apply list_elem_of_singleton in Hin. congruence.
Qed.

End BreakpointRun.

Lemma breakpoint_run_step (D : Deps) n i intent ch w :
  breakpoint_run i intent w ->
  exists w', step D (S n) ch w = Some w' /\ breakpoint_run i intent w'.
Proof.
  intros Hinv. pose proof Hinv as [Hord Hset Hhost Himp Htask].
  assert (Hcases : forall p s, status_at w p = Some s ->
            p = 0 \/ p = 1 \/ s = Pending \/ exists o, s = Done o).
  { intros p s Hs. destruct (decide (p = 0)); [by left|].
    destruct (decide (p = 1)); [by right; left|]. right. right.
    destruct (Himp p) as [H|[o H]]; [lia|by apply status_at_lt in Hs| |];
      rewrite H in Hs; injection Hs as <-; [by left|right; by exists o]. }
  destruct ch as [q o|p r|p]; unfold step.
  - destruct (status_at w q) as [[|c| |o']|] eqn:Hq; try by exists w.
    exists (settle q o w). split; [done|]. by apply bp_settle_imported.
  - destruct (status_at w p) as [[|c| |o']|] eqn:Hp; try by exists w.
    destruct c; try by exists w.
    destruct (Hcases p _ Hp) as [->|[->|[?|[? ?]]]]; try done.
    + destruct Hhost as [?|[? ?]]; congruence.
    + destruct Htask as [(_ & ? & ?)|(? & ? & ? & _)]; unfold await in *; congruence.
  - destruct (status_at w p) as [[|c| |o']|] eqn:Hp; try by exists w.
    destruct (Hcases p _ Hp) as [->|[->|[?|[? ?]]]]; try done.
    + destruct Hhost as [H0|[? ?]]; [|congruence].
      rewrite Hp in H0. injection H0 as ->.
      destruct (outcome_at w 1) as [o|]; [|by exists w].
      eexists. split; [reflexivity|]. by apply bp_host_returns.
    + destruct Htask as [(_ & ? & ?)|(q & rest & Hs & Hi & Hr & Hful)]; [congruence|].
      rewrite Hp in Hs. injection Hs as ->. unfold await.
      assert (H1 : 1 < length (promises w)) by (by apply status_at_lt in Hp).
      assert (Hpre : dispatched 1 (trace w) `prefix_of` intent)
        by (rewrite Hi; by apply prefix_app_r).
      destruct (outcome_at w q) as [[v|e]|] eqn:Hq; [| |by exists w].
      * destruct rest as [|pb rest]; cbn [run exec_sync syncPendingBreakpoints body await].
        -- eexists. split; [reflexivity|]. by apply bp_task_settles.
        -- eexists. split; [reflexivity|].
           replace (length (promises (set_status 1 Running w)))
             with (length (promises w)) by (simpl; by rewrite length_alter).
           by eapply bp_task_dispatches.
      * eexists. split; [reflexivity|]. by apply bp_task_settles.
Qed.

Lemma breakpoint_run_schedule (D : Deps) n i intent chs : forall w,
  breakpoint_run i intent w ->
  exists w', schedule D (S n) chs w = Some w' /\ breakpoint_run i intent w'.
Proof.
  induction chs as [|ch chs IH]; intros w Hinv; [by exists w|].
  destruct (breakpoint_run_step D n i intent ch w Hinv) as (w1 & Hstep & Hinv1).
  destruct (IH w1 Hinv1) as (w' & Hsch & Hinv').
  exists w'. split; [|done]. cbn [schedule]. by rewrite Hstep.
Qed.

Lemma awaited_in_order_nil p : awaited_in_order p [].
Proof. intros pre t q post H. by destruct pre. Qed.

(** The host's dispatch of [checkPendingBreakpoints i] on the store [st]. *)
Lemma breakpoint_run_initial (D : Deps) n i s st :
  getSource st i = Some s ->
  exists w1,
    dispatch D (S (S n)) (checkPendingBreakpoints i) (initial st) = Some w1 /\
    breakpoint_run i (breakpointIntent st i s) w1 /\
    match getPendingBreakpointsForSource st (Src.url s) with
    | [] => dispatched 1 (trace w1) = []
    | pbs =>
        dispatched 1 (trace w1) = [loadSourceText s] /\
        status_at w1 1
          = Some (Waiting (await 2 (fun _ => syncPendingBreakpoints i pbs))) /\
        status_at w1 2 = Some Pending /\
        length (promises w1) = 3
    end.
Proof.
  intros Hs. unfold dispatch, host_script, breakpointIntent.
  change (run D (S (S n))) with (exec_sync D (run D (S n))).
  cbn [exec_sync body]. unfold checkPendingBreakpoints_body.
  cbn [run exec_sync]. change (store (emit ?e (alloc ?t ?s0 (initial st)))) with st.
  rewrite Hs.
  set (t := checkPendingBreakpoints i).
  set (w0 := emit (EDispatch 0 t 1) (alloc t Running (initial st))).
  assert (Hord0 : awaited_in_order 1 (trace w0)).
  { apply (awaited_in_order_snoc_other 1 []); [done|apply awaited_in_order_nil]. }
  assert (Hset0 : settled_in_trace w0).
  { apply settled_in_trace_emit, settled_in_trace_alloc; [done|].
    intros q o Ho. by destruct q as [|[|q]]. }
  destruct (getPendingBreakpointsForSource st (Src.url s)) as [|pb pbs] eqn:Hpbs;
    cbn [exec_sync body await]; (eexists; split; [reflexivity|]).
  - split; [|done]. split.
    + by apply (awaited_in_order_snoc_other 1 (trace w0)).
    + apply settled_in_trace_set_status; [done|]. by apply settled_in_trace_settle.
    + by left.
    + intros p Hp Hlt. simpl in Hlt. lia.
    + left. split; [done|]. by exists (Fulfilled VUndefined).
  - split; [|done]. split.
    + apply (awaited_in_order_snoc_dispatch 1 (trace w0)); [|done].
      intros t' q' Hin. apply list_elem_of_singleton in Hin. done.
    + apply settled_in_trace_set_status; [done|].
      apply settled_in_trace_set_status; [done|]. apply settled_in_trace_emit.
      by apply settled_in_trace_alloc.
    + by left.
    + intros p Hp Hlt. simpl in Hlt. assert (p = 2) as -> by lia. by left.
    + right. exists 2, (pb :: pbs). split; [done|]. split; [done|].
      split; [simpl; lia|].
      intros t' q' Hin Hne. simpl in Hin.
      apply elem_of_cons in Hin as [Hin|Hin]; [done|].
      apply list_elem_of_singleton in Hin. congruence.
Qed.

Lemma fulfil_and_resume_S q k :
  fulfil_and_resume q (S k)
  = Settle q (Fulfilled VUndefined) :: Resume 1 :: fulfil_and_resume (S q) k.
Proof.
  unfold fulfil_and_resume. cbn [seq flat_map app]. rewrite Nat.add_0_r.
  do 2 f_equal. rewrite <- fmap_S_seq.
  induction (seq 0 k) as [|j js IH]; [done|].
  cbn [fmap list_fmap flat_map app]. rewrite IH.
  by replace (S q + j) with (q + S j) by lia.
Qed.

(** When every promise the task awaits is fulfilled, it dispatches the
    synchronisation of every remaining pending breakpoint. *)
Lemma fulfil_and_resume_all (D : Deps) n i rest : forall w q,
  status_at w 1 = Some (Waiting (await q (fun _ => syncPendingBreakpoints i rest))) ->
  status_at w q = Some Pending ->
  S q = length (promises w) ->
  1 < q ->
  exists w',
    schedule D (S n) (fulfil_and_resume q (S (length rest))) w = Some w' /\
    dispatched 1 (trace w') = dispatched 1 (trace w) ++ map (syncBreakpoint i) rest.
Proof.
  induction rest as [|pb rest IH]; intros w q Hs Hq Hl Hq1;
    rewrite fulfil_and_resume_S; cbn [schedule step]; rewrite Hq;
    rewrite status_at_settle_ne, Hs by lia; unfold await;
    rewrite outcome_at_settle by lia;
    cbn [run exec_sync syncPendingBreakpoints body await].
  - eexists. split; [reflexivity|].
    change (trace (settle 1 ?o (set_status 1 Running (settle q ?o' w))))
      with ((trace w ++ [ESettle q o']) ++ [ESettle 1 o]).
    rewrite !dispatched_snoc_other by done. by rewrite app_nil_r.
  - set (w1 := set_status 1 Running (settle q (Fulfilled VUndefined) w)).
    assert (Hl1 : length (promises w1) = S q) by (simpl; by rewrite !length_alter).
    rewrite Hl1.
    set (w2 := set_status 1 _ _).
    destruct (IH w2 (S q)) as (w' & Hsch & Hd); [| | |lia|].
    + apply status_at_set_status. simpl.
      rewrite length_app, !length_alter. simpl. lia.
    + unfold w2. rewrite status_at_set_status_ne, status_at_emit by lia.
      rewrite <- Hl1. apply status_at_alloc_eq.
    + unfold w2. simpl. rewrite length_alter, length_app, !length_alter. simpl. lia.
    + exists w'. split; [done|]. rewrite Hd.
      change (trace w2)
        with ((trace w ++ [ESettle q (Fulfilled VUndefined)])
                ++ [EDispatch 1 (syncBreakpoint i pb) (S q)]).
      rewrite dispatched_snoc_dispatch, dispatched_snoc_other by done.
      simpl. by rewrite <- app_assoc.
Qed.

(** C8: [checkPendingBreakpoints i] dispatched by the host on a store where
    [i] is registered as [s], under any schedule [chs].  What the task
    dispatches is always a beginning of its intent: nothing when no
    breakpoint is pending for the url of [s] (so no text load), otherwise the
    text load first and then the synchronisations in stored order.  Each of
    its dispatches comes after the fulfilment of every promise it dispatched
    earlier: the text load is awaited before the first synchronisation, and
    each synchronisation before the next.  When every awaited promise is
    fulfilled in turn, the whole intent is dispatched. *)
Theorem checkPendingBreakpoints_awaits_in_order (D : Deps) n i s st chs :
  getSource st i = Some s ->
  exists w1 w w_all,
    dispatch D (S (S n)) (checkPendingBreakpoints i) (initial st) = Some w1 /\
    schedule D (S n) chs w1 = Some w /\
    dispatched 1 (trace w) `prefix_of` breakpointIntent st i s /\
    awaited_in_order 1 (trace w) /\
    schedule D (S n) (fulfil_and_resume 2 (length (breakpointIntent st i s))) w1
      = Some w_all /\
    dispatched 1 (trace w_all) = breakpointIntent st i s.
Proof.
  intros Hs.
  destruct (breakpoint_run_initial D n i s st Hs) as (w1 & Hd & Hinv & Hshape).
  destruct (breakpoint_run_schedule D n i _ chs w1 Hinv) as (w & Hsch & Hinv').
  assert (Hall : exists w_all,
            schedule D (S n) (fulfil_and_resume 2 (length (breakpointIntent st i s))) w1
              = Some w_all /\
            dispatched 1 (trace w_all) = breakpointIntent st i s).
  { unfold breakpointIntent in *.
    destruct (getPendingBreakpointsForSource st (Src.url s)) as [|pb pbs].
    - by exists w1.
    - destruct Hshape as (Hd1 & Hs1 & Hs2 & Hl).
      destruct (fulfil_and_resume_all D n i (pb :: pbs) w1 2 Hs1 Hs2) as (w' & H1 & H2);
        [lia|lia|].
      exists w'. cbn [length map]. rewrite length_map. split; [done|].
      by rewrite H2, Hd1. }
  destruct Hall as (w_all & Hall1 & Hall2).
  exists w1, w, w_all. split; [done|]. split; [done|].
  split; [|split; [by destruct Hinv'|done]].
  destruct Hinv' as [_ _ _ _ [(Hp & _)|(q & rest & _ & Hi & _)]]; [done|].
  rewrite Hi. by apply prefix_app_r.
Qed.

Lemma checkPendingBreakpoints_awaits_in_order_witness :
  exists w1 w w_all,
    dispatch Example.deps 2 (checkPendingBreakpoints "foo") (initial Example.pending_state)
      = Some w1 /\
    schedule Example.deps 1
      [Settle 2 (Fulfilled VUndefined); Resume 1; Settle 3 (Fulfilled VUndefined)] w1
      = Some w /\
    dispatched 1 (trace w)
      `prefix_of` breakpointIntent Example.pending_state "foo" Example.Foo /\
    awaited_in_order 1 (trace w) /\
    schedule Example.deps 1
      (fulfil_and_resume 2 (length (breakpointIntent Example.pending_state "foo" Example.Foo)))
      w1 = Some w_all /\
    dispatched 1 (trace w_all)
      = [loadSourceText Example.Foo;
         syncBreakpoint "foo" {| pb_sourceUrl := "foo.js"; pb_line := 10 |};
         syncBreakpoint "foo" {| pb_sourceUrl := "foo.js"; pb_line := 2 |}].
Proof.
  apply (checkPendingBreakpoints_awaits_in_order Example.deps 0 "foo" Example.Foo
           Example.pending_state
           [Settle 2 (Fulfilled VUndefined); Resume 1; Settle 3 (Fulfilled VUndefined)]).
  reflexivity.
Defined.

(** ** Every suspended task is at an [await] of its own script *)

Lemma residual_trans a b c : residual a b -> residual b c -> residual a c.
Proof. induction 1; intros; try (econstructor; eauto; fail). done. Qed.

Section Shaped.
Context (D : Deps) (root : thunk).

Lemma shaped_set_status p s w :
  shaped D root w ->
  (forall e, promises w !! p = Some e ->
             ok_entry D root {| who := who e; state_of := s |}) ->
  shaped D root (set_status p s w).
Proof.
  intros Hw Hp q e. simpl. destruct (decide (p = q)) as [->|Hne].
  - rewrite list_lookup_alter_eq. destruct (promises w !! q) as [e0|] eqn:E; [|done].
    intros [= <-]. by apply Hp.
  - rewrite list_lookup_alter_ne by done. apply Hw.
Qed.

Lemma shaped_alloc t s w :
  shaped D root w -> ok_entry D root {| who := Some t; state_of := s |} ->
  shaped D root (alloc t s w).
Proof.
  intros Hw Ht q e. simpl. intros Hq.
  apply lookup_app_Some in Hq as [Hq|[_ Hq]]; [by eapply Hw|].
  apply list_lookup_singleton_Some in Hq as [_ <-]. done.
Qed.

Lemma shaped_settle p o w :
  shaped D root w ->
  (forall e b v, promises w !! p = Some e -> o = Fulfilled v ->
                 script D root (who e) = Some b -> residual b (Return v)) ->
  shaped D root (settle p o w).
Proof.
  intros Hw Hp. unfold settle.
  change (shaped D root (set_status p (Done o) w)).
  apply shaped_set_status; [done|]. intros e He.
  destruct o as [v|err]; [|done]. intros b Hb. by eapply Hp.
Qed.

Lemma run_shaped fuel : forall p c w w',
  run D fuel p c w = Some w' ->
  p < length (promises w) ->
  shaped D root w ->
  (forall e, promises w !! p = Some e ->
             exists b, script D root (who e) = Some b /\ residual b c) ->
  shaped D root w'.
Proof.
  induction fuel as [|fuel IHfuel]; [done|].
  intros p c. simpl.
  induction c as [v|err|k IH|a k IH|err k IH|t k IH|q k IH|ps k IH|s k IH];
    intros w w' H Hp Hw Hres; simpl in H.
  - injection H as <-. apply shaped_settle; [done|].
    intros e b v' He [= <-] Hb. destruct (Hres e He) as (b' & Hb' & Hr). congruence.
  - injection H as <-. by apply shaped_settle.
  - eapply IH; [exact H|done|done|].
    intros e He. destruct (Hres e He) as (b & Hb & Hr). exists b. split; [done|].
    eapply residual_trans; [exact Hr|]. eapply residual_GetState, residual_refl.
  - eapply IH; [exact H|done|done|].
    intros e He. destruct (Hres e He) as (b & Hb & Hr). exists b. split; [done|].
    eapply residual_trans; [exact Hr|]. apply residual_Dispatch, residual_refl.
  - eapply IH; [exact H|done|done|].
    intros e He. destruct (Hres e He) as (b & Hb & Hr). exists b. split; [done|].
    eapply residual_trans; [exact Hr|]. apply residual_ConsoleError, residual_refl.
  - assert (Hk : forall q e, promises w !! p = Some e ->
                   exists b, script D root (who e) = Some b /\ residual b (k q)).
    { intros q e He. destruct (Hres e He) as (b & Hb & Hr). exists b. split; [done|].
      eapply residual_trans; [exact Hr|]. eapply residual_DispatchThunk, residual_refl. }
    destruct (body D t) as [b'|] eqn:Hbody.
    + destruct (run D fuel _ b' _) as [w1|] eqn:Hcall; [|done].
      set (w0 := emit (EDispatch p t (length (promises w))) (alloc t Running w)) in *.
      assert (Hw1 : shaped D root w1).
      { eapply IHfuel; [exact Hcall| | |].
        - unfold w0. simpl. rewrite length_app. simpl. lia.
        - by apply shaped_alloc.
        - intros e He. unfold w0 in He. simpl in He.
          rewrite list_lookup_middle in He by done. injection He as <-.
          exists b'. split; [done|apply residual_refl]. }
      pose proof (run_frame D _ _ _ _ _ Hcall) as (_ & Hl & Hother & _).
      assert (Hl0 : length (promises w0) = S (length (promises w)))
        by (unfold w0; simpl; rewrite length_app; simpl; lia).
      eapply IH; [exact H|lia|done|].
      intros e He. rewrite Hother in He by lia.
      unfold w0 in He. simpl in He. rewrite lookup_app_l in He by done. by apply Hk.
    + eapply IH; [exact H| | |].
      * simpl. rewrite length_app. simpl. lia.
      * by apply shaped_alloc.
      * intros e He. simpl in He. rewrite lookup_app_l in He by done. by apply Hk.
  - injection H as <-. apply shaped_set_status; [done|]. intros e He. split; [done|]. exact (Hres e He).
  - injection H as <-. apply shaped_set_status; [done|]. intros e He. split; [done|]. exact (Hres e He).
  - injection H as <-.
    change (shaped D root (set_status p (Waiting (AwaitOriginalURLs s k)) w)).
    apply shaped_set_status; [done|]. intros e He. split; [done|]. exact (Hres e He).
Qed.

End Shaped.

Ltac invert_residual H :=
  inversion H; subst; clear H; try done.

Lemma residual_Return v c : residual (Return v) c -> c = Return v.
Proof. intros H. by invert_residual H. Qed.

Lemma residual_Throw e c : residual (Throw e) c -> c = Throw e.
Proof. intros H. by invert_residual H. Qed.

Lemma residual_await q k c :
  residual (await q k) c -> is_wait c ->
  c = await q k \/ exists v, residual (k v) c.
Proof.
  unfold await. intros H Hc. invert_residual H; [by left|].
  destruct o as [v|e]; [right; by exists v|].
  match goal with H : residual (Throw _) _ |- _ => apply residual_Throw in H end.
  by subst.
Qed.

Lemma residual_await_return q v0 c :
  residual (await q (fun _ => Return v0)) c -> is_wait c ->
  c = await q (fun _ => Return v0).
Proof.
  intros H Hc. apply residual_await in H as [H|[v H]]; [done| |done].
  apply residual_Return in H. subst. by destruct Hc.
Qed.

Lemma residual_filterSources l : forall k c,
  residual (filterSources l k) c -> is_wait c -> exists f, residual (k f) c.
Proof.
  induction l as [|[s|] l IH]; intros k c H Hc; cbn [filterSources] in H.
  - by exists [].
  - invert_residual H.
    match goal with H : residual _ _ |- _ => rename H into Hr end.
    destruct (getSource st (Src.id s)); [by eapply IH|].
    apply IH in Hr as [f Hr]; [|done]. by exists (s :: f).
  - by eapply IH.
Qed.

Lemma residual_checkEach l : forall k c,
  residual (checkEach l k) c -> is_wait c -> residual k c.
Proof.
  induction l as [|s l IH]; intros k c H Hc; cbn [checkEach] in H; [done|].
  invert_residual H.
  match goal with H : residual _ _ |- _ => rename H into Hr end.
  invert_residual Hr. by apply IH.
Qed.

Lemma residual_dispatchLoadSourceMap l : forall k c,
  residual (dispatchLoadSourceMap l k) c -> is_wait c -> exists ps, residual (k ps) c.
Proof.
  induction l as [|s l IH]; intros k c H Hc; cbn [dispatchLoadSourceMap] in H.
  - by exists [].
  - invert_residual H.
    match goal with H : residual _ _ |- _ => rename H into Hr end.
    apply IH in Hr as [ps Hr]; [|done]. by exists (q :: ps).
Qed.

Lemma residual_syncPendingBreakpoints i rest : forall c,
  residual (syncPendingBreakpoints i rest) c -> is_wait c ->
  exists q rest', c = await q (fun _ => syncPendingBreakpoints i rest').
Proof.
  induction rest as [|pb rest IH]; intros c H Hc; cbn [syncPendingBreakpoints] in H.
  - apply residual_Return in H. subst. by destruct Hc.
  - invert_residual H.
    match goal with H : residual _ _ |- _ => rename H into Hr end.
    apply residual_await in Hr as [->|[v Hr]]; [by exists q, rest| |done].
    by apply IH.
Qed.

(** The [await]s a script can be suspended at. *)
Lemma residual_known (D : Deps) root o b c :
  script D root o = Some b -> residual b c -> is_wait c -> known_wait D c.
Proof.
  intros Hb H Hc. destruct o as [t|]; simpl in Hb.
  - destruct t; simpl in Hb; try done; injection Hb as <-.
    + (* newSource *)
      unfold newSource_body in H. invert_residual H.
      match goal with H : residual _ _ |- _ => rename H into Hr end.
      apply residual_await_return in Hr as ->; [constructor|done].
    + (* newSources *)
      unfold newSources_body in H. apply residual_filterSources in H as [f H]; [|done].
      destruct f as [|s f].
      { apply residual_Return in H. subst. by destruct Hc. }
      invert_residual H.
      match goal with H : residual _ _ |- _ => rename H into Hr end.
      apply (residual_checkEach (s :: f)) in Hr; [|done].
      invert_residual Hr.
      match goal with H : residual _ _ |- _ => rename H into Hr end.
      apply residual_await_return in Hr as ->; [constructor|done].
    + (* loadSourceMaps *)
      unfold loadSourceMaps_body in H.
      apply residual_dispatchLoadSourceMap in H as [ps H]; [|done].
      invert_residual H; [constructor|].
      match goal with H : residual _ _ |- _ => rename H into Hr end.
      destruct o as [vs|e]; cbn [afterAll] in Hr.
      * invert_residual Hr.
        match goal with H : residual _ _ |- _ => rename H into Hr end.
        apply residual_await_return in Hr as ->; [constructor|done].
      * apply residual_Throw in Hr. subst. by destruct Hc.
    + (* loadSourceMap *)
      unfold loadSourceMap_body in H. invert_residual H.
      match goal with H : residual _ _ |- _ => rename H into Hr end.
      destruct (getSource st sourceId0) as [s|].
      2:{ apply residual_Throw in Hr. subst. by destruct Hc. }
      destruct (negb _ || negb _).
      { apply residual_Return in Hr. subst. by destruct Hc. }
      invert_residual Hr; [constructor|].
      match goal with H : residual _ _ |- _ => rename H into Hr end.
      destruct r as [[urls|]|e]; cbn [tryOriginalURLs withOriginalURLs] in Hr.
      * invert_residual Hr.
        match goal with H : residual _ _ |- _ => apply residual_Return in H end.
        subst. by destruct Hc.
      * invert_residual Hr.
        match goal with H : residual _ _ |- _ => apply residual_Return in H end.
        subst. by destruct Hc.
      * invert_residual Hr.
        match goal with H : residual _ _ |- _ => rename H into Hr end.
        invert_residual Hr.
        match goal with H : residual _ _ |- _ => apply residual_Return in H end.
        subst. by destruct Hc.
    + (* checkSelectedSource *)
      unfold checkSelectedSource_body in H. invert_residual H.
      match goal with H : residual _ _ |- _ => rename H into Hr end.
      destruct (getSource st sourceId0) as [s|].
      2:{ apply residual_Throw in Hr. subst. by destruct Hc. }
      invert_residual Hr.
      match goal with H : residual _ _ |- _ => rename H into Hr end.
      assert (Hret : forall v, residual (Return v) c -> known_wait D c).
      { intros v Hv. apply residual_Return in Hv. subst. by destruct Hc. }
      destruct (getPendingSelectedLocation st0) as [pl|]; [|by eapply Hret].
      destruct (Loc.url pl) as [u|]; [|by eapply Hret].
      destruct (negb _ || negb _); [by eapply Hret|].
      destruct (decide _); [|by eapply Hret].
      destruct (isPrettyURL D u); invert_residual Hr;
        match goal with H : residual _ _ |- _ => rename H into Hr end.
      * apply residual_await in Hr as [->|[v Hr]]; [constructor|by eapply Hret|done].
      * apply residual_await_return in Hr as ->; [constructor|done].
    + (* checkPendingBreakpoints *)
      unfold checkPendingBreakpoints_body in H. invert_residual H.
      match goal with H : residual _ _ |- _ => rename H into Hr end.
      invert_residual Hr.
      match goal with H : residual _ _ |- _ => rename H into Hr end.
      destruct (getSource st sourceId0) as [s|].
      2:{ apply residual_Throw in Hr. subst. by destruct Hc. }
      destruct (getPendingBreakpointsForSource st0 (Src.url s)) as [|pb pbs].
      { apply residual_Return in Hr. subst. by destruct Hc. }
      invert_residual Hr.
      match goal with H : residual _ _ |- _ => rename H into Hr end.
      apply residual_await in Hr as [->|[v Hr]];
        [apply (wait_sync D q sourceId0 (pb :: pbs))| |done].
      apply (residual_syncPendingBreakpoints sourceId0 (pb :: pbs)) in Hr
        as (q' & rest & ->); [constructor|done].
  - injection Hb as <-. unfold host_script in H.
    invert_residual H.
    match goal with H : residual _ _ |- _ => rename H into Hr end.
    invert_residual Hr; [constructor|].
    match goal with H : residual _ _ |- _ => apply residual_Return in H end.
    subst. by destruct Hc.
Qed.

Lemma run_DispatchThunk_newSources (D : Deps) n p l k w :
  p < length (promises w) ->
  (forall q w1, is_Some (exec_sync D (run D (S (S (S n)))) p (k q) w1)) ->
  is_Some (run D (S (S (S (S n)))) p (DispatchThunk (newSources l) k) w).
Proof.
  intros Hp Hk.
  change (run D (S (S (S (S n))))) with (exec_sync D (run D (S (S (S n))))).
  destruct (exec_DispatchThunk D (S (S (S n))) p (newSources l) k w Hp
              (total_newSources D n l)) as (w1 & -> & _).
  apply Hk.
Qed.

(** Fuel 4 is enough to resume any task of newSources.js. *)
Lemma known_wait_resumable (D : Deps) n c :
  known_wait D c -> resumable D (S (S (S (S n)))) c.
Proof.
  intros [q|q|q|ps|s|q i rest] p w; cbn [await].
  - by intros [v|e].
  - by intros [v|e].
  - done.
  - intros [vs|e] Hp; [|done]. cbn [afterAll].
    apply run_DispatchThunk_newSources; [done|]. done.
  - intros [[urls|]|e] Hp; cbn [tryOriginalURLs withOriginalURLs]; [|done|done].
    apply run_DispatchThunk_newSources; [done|]. done.
  - intros [v|e]; [|done]. by destruct rest.
Qed.

Section Steps.
Context (D : Deps) (root : thunk).

Lemma status_at_entry w p s :
  status_at w p = Some s <-> exists e, promises w !! p = Some e /\ state_of e = s.
Proof.
  unfold status_at. destruct (promises w !! p) as [e|]; simpl; split.
  - intros [= <-]. by exists e.
  - by intros (e' & [= <-] & <-).
  - done.
  - by intros (? & ? & ?).
Qed.

Lemma shaped_waiting w p c :
  shaped D root w -> status_at w p = Some (Waiting c) ->
  is_wait c /\
  exists e b, promises w !! p = Some e /\ script D root (who e) = Some b /\ residual b c.
Proof.
  intros Hw Hp. apply status_at_entry in Hp as (e & He & Hs).
  pose proof (Hw p e He) as Hok. unfold ok_entry in Hok. rewrite Hs in Hok.
  destruct Hok as (Hc & b & Hb & Hr). split; [done|]. by exists e, b.
Qed.

Lemma shaped_known w p c :
  shaped D root w -> status_at w p = Some (Waiting c) -> known_wait D c.
Proof.
  intros Hw Hp. destruct (shaped_waiting w p c Hw Hp) as (Hc & e & b & _ & Hb & Hr).
  by eapply residual_known.
Qed.

(** Resuming a suspended task keeps the table in order. *)
Lemma resume_shaped fuel w w0 p c c' w' :
  shaped D root w ->
  status_at w p = Some (Waiting c) ->
  promises w0 = promises (set_status p Running w) ->
  (forall b, residual b c -> residual b c') ->
  run D fuel p c' w0 = Some w' ->
  shaped D root w'.
Proof.
  intros Hw Hp H0 Hstep Hrun.
  destruct (shaped_waiting w p c Hw Hp) as (_ & e & b & He & Hb & Hr).
  assert (Hw0 : shaped D root w0).
  { intros q e0. rewrite H0. by apply shaped_set_status. }
  eapply run_shaped; [exact Hrun| |done|].
  - rewrite H0. simpl. rewrite length_alter. by apply status_at_lt in Hp.
  - intros e' He'. rewrite H0 in He'. cbn [set_status promises] in He'.
    rewrite list_lookup_alter_eq, He in He'. injection He' as <-.
    exists b. split; [done|]. by apply Hstep.
Qed.

Lemma step_shaped fuel ch w w' :
  shaped D root w -> step D fuel ch w = Some w' -> shaped D root w'.
Proof.
  intros Hw. destruct ch as [q o|p r|p]; unfold step.
  - destruct (status_at w q) as [[|c| |o']|] eqn:Hq; try by intros [= <-].
    intros [= <-]. apply shaped_settle; [done|].
    intros e b v He _ Hb. apply status_at_entry in Hq as (e' & He' & Hs).
    rewrite He in He'. injection He' as <-.
    pose proof (Hw q e He) as Hok. unfold ok_entry in Hok. rewrite Hs in Hok. congruence.
  - destruct (status_at w p) as [[|c| |o']|] eqn:Hp; try by intros [= <-].
    destruct c; try by intros [= <-].
    intros Hrun. eapply resume_shaped; [exact Hw|exact Hp| | |exact Hrun]; [done|].
    intros b Hb. eapply residual_trans; [exact Hb|].
    eapply residual_AwaitOriginalURLs, residual_refl.
  - destruct (status_at w p) as [[|c| |o']|] eqn:Hp; try by intros [= <-].
    destruct c; try by intros [= <-].
    + destruct (outcome_at w p0) as [o|]; [|by intros [= <-]].
      intros Hrun. eapply resume_shaped; [exact Hw|exact Hp| | |exact Hrun]; [done|].
      intros b Hb. eapply residual_trans; [exact Hb|].
      eapply residual_Await, residual_refl.
    + destruct (all_outcome_at w ps) as [o|]; [|by intros [= <-]].
      intros Hrun. eapply resume_shaped; [exact Hw|exact Hp| | |exact Hrun]; [done|].
      intros b Hb. eapply residual_trans; [exact Hb|].
      eapply residual_AwaitAll, residual_refl.
Qed.

(** With fuel 4 no scheduling step fails. *)
Lemma step_total n ch w :
  shaped D root w -> is_Some (step D (S (S (S (S n)))) ch w).
Proof.
  intros Hw. destruct ch as [q o|p r|p]; unfold step.
  - by destruct (status_at w q) as [[|c| |o']|].
  - destruct (status_at w p) as [[|c| |o']|] eqn:Hp; try done.
    pose proof (known_wait_resumable D n c (shaped_known w p c Hw Hp)) as Hk.
    destruct c; try done.
    apply (Hk p (emit (EAnswer p r) (set_status p Running w))).
    simpl. rewrite length_alter. by apply status_at_lt in Hp.
  - destruct (status_at w p) as [[|c| |o']|] eqn:Hp; try done.
    pose proof (known_wait_resumable D n c (shaped_known w p c Hw Hp)) as Hk.
    destruct c; try done.
    + destruct (outcome_at w p0) as [o|]; [|done].
      apply (Hk p (set_status p Running w)).
    + destruct (all_outcome_at w ps) as [o|]; [|done].
      apply (Hk p (set_status p Running w)).
      simpl. rewrite length_alter. by apply status_at_lt in Hp.
Qed.

Lemma schedule_total n chs : forall w,
  shaped D root w ->
  exists w', schedule D (S (S (S (S n)))) chs w = Some w' /\ shaped D root w'.
Proof.
  induction chs as [|ch chs IH]; intros w Hw; [by exists w|].
  destruct (step_total n ch w Hw) as [w1 Hstep].
  destruct (IH w1 (step_shaped _ _ _ _ Hw Hstep)) as (w' & Hsch & Hw').
  exists w'. split; [|done]. cbn [schedule]. by rewrite Hstep.
Qed.

End Steps.

(** ** What a run can change *)

Lemma run_prims (D : Deps) fuel : forall p c w w',
  run D fuel p c w = Some w' -> rtc prim w w'.
Proof.
  induction fuel as [|fuel IHfuel]; [done|].
  intros p c. simpl.
  induction c as [v|e|k IH|a k IH|e k IH|t k IH|q k IH|ps k IH|s k IH];
    intros w w' H; simpl in H.
  - injection H as <-. apply rtc_once. constructor.
  - injection H as <-. apply rtc_once. constructor.
  - exact (IH _ _ _ H).
  - eapply rtc_l; [|exact (IH _ _ H)]. constructor.
  - eapply rtc_l; [|exact (IH _ _ H)]. constructor.
  - destruct (body D t) as [b|].
    + destruct (run D fuel _ b _) as [w1|] eqn:Hcall; [|done].
      eapply rtc_l; [apply (prim_dispatch p t Running); by left|].
      etrans; [exact (IHfuel _ _ _ _ Hcall)|exact (IH _ _ _ H)].
    + eapply rtc_l; [apply (prim_dispatch p t Pending); by right|].
      exact (IH _ _ _ H).
  - injection H as <-. apply rtc_once. constructor.
  - injection H as <-. apply rtc_once. constructor.
  - injection H as <-. apply rtc_once. constructor.
Qed.

Lemma registered_reducer a st i : registered st i -> registered (reducer a st) i.
Proof.
  unfold registered, getSource. intros Hi. destruct a as [l|s]; simpl.
  - revert Hi. generalize (sources st). induction l as [|s l IH]; intros m Hm; [done|].
    simpl. apply IH. unfold updateSource. rewrite lookup_insert_is_Some'. by right.
  - unfold updateSource. rewrite lookup_insert_is_Some'. by right.
Qed.

Lemma registered_ADD_SOURCES l st s :
  s ∈ l -> registered (reducer (ADD_SOURCES l) st) (Src.id s).
Proof.
  unfold registered, getSource. simpl. generalize (sources st).
  induction l as [|s0 l IH]; intros m Hs; [by apply elem_of_nil in Hs|].
  apply elem_of_cons in Hs as [->|Hs]; [|by apply IH].
  simpl. fold (getSource {| sources := foldl updateSource (updateSource m s0) l;
                            pendingSelectedLocation := pendingSelectedLocation st;
                            pendingBreakpoints := pendingBreakpoints st |} (Src.id s0)).
  apply (registered_reducer (ADD_SOURCES l)
           {| sources := updateSource m s0;
              pendingSelectedLocation := pendingSelectedLocation st;
              pendingBreakpoints := pendingBreakpoints st |}).
  unfold registered, getSource, updateSource. simpl.
  rewrite lookup_insert_is_Some'. by left.
Qed.

Lemma prim_registered w w' i :
  prim w w' -> registered (store w) i -> registered (store w') i.
Proof. destruct 1; try done. simpl. apply registered_reducer. Qed.

Lemma prims_registered w w' i :
  rtc prim w w' -> registered (store w) i -> registered (store w') i.
Proof. induction 1; [done|]. intros. eauto using prim_registered. Qed.

Lemma prim_answers w w' r res :
  prim w w' -> EAnswer r res ∈ trace w' -> EAnswer r res ∈ trace w.
Proof.
  destruct 1; simpl; try done; intros Hin;
    apply elem_of_app in Hin as [Hin|Hin]; try done;
    by apply list_elem_of_singleton in Hin.
Qed.

Lemma prims_answers w w' r res :
  rtc prim w w' -> EAnswer r res ∈ trace w' -> EAnswer r res ∈ trace w.
Proof. induction 1; [done|]. intros. eauto using prim_answers. Qed.

Lemma prim_trace w w' e : prim w w' -> e ∈ trace w -> e ∈ trace w'.
Proof.
  destruct 1; simpl; try done; intros Hin; apply elem_of_app; by left.
Qed.

Lemma prims_trace w w' e : rtc prim w w' -> e ∈ trace w -> e ∈ trace w'.
Proof. induction 1; [done|]. intros. eauto using prim_trace. Qed.

Lemma resolver_calls_traced_set_status p s w :
  (forall s0 k, s <> Waiting (AwaitOriginalURLs s0 k)) ->
  resolver_calls_traced w -> resolver_calls_traced (set_status p s w).
Proof.
  intros Hs Hw r s0 k Hr. simpl. apply (Hw r s0 k).
  destruct (decide (r = p)) as [->|Hne].
  - pose proof (status_at_lt _ _ _ Hr) as Hlt. simpl in Hlt. rewrite length_alter in Hlt.
    rewrite status_at_set_status in Hr by done. injection Hr as ->. by destruct (Hs s0 k).
  - by rewrite status_at_set_status_ne in Hr.
Qed.

Lemma resolver_calls_traced_emit e w :
  resolver_calls_traced w -> resolver_calls_traced (emit e w).
Proof. intros Hw r s k Hr. simpl. apply elem_of_app. left. by apply (Hw r s k). Qed.

Lemma prim_resolver_calls w w' :
  prim w w' -> resolver_calls_traced w -> resolver_calls_traced w'.
Proof.
  destruct 1; intros Hw.
  - by apply resolver_calls_traced_emit, resolver_calls_traced_set_status.
  - by apply resolver_calls_traced_emit.
  - by apply resolver_calls_traced_emit.
  - apply resolver_calls_traced_emit. intros r s0 k Hr.
    simpl. apply (Hw r s0 k).
    pose proof (status_at_lt _ _ _ Hr) as Hlt. rewrite length_promises_alloc in Hlt.
    destruct (decide (r = length (promises w))) as [->|Hne].
    + rewrite status_at_alloc_eq in Hr. injection Hr as ->. by destruct H.
    + by rewrite status_at_alloc_lt in Hr by lia.
  - by apply resolver_calls_traced_set_status.
  - by apply resolver_calls_traced_set_status.
  - intros r s0 k0 Hr. simpl. apply elem_of_app.
    rewrite status_at_emit in Hr.
    destruct (decide (r = p)) as [->|Hne].
    + pose proof (status_at_lt _ _ _ Hr) as Hlt. simpl in Hlt. rewrite length_alter in Hlt.
      rewrite status_at_set_status in Hr by done. injection Hr as <- _.
      right. by apply list_elem_of_singleton.
    + left. apply (Hw r s0 k0). by rewrite status_at_set_status_ne in Hr.
Qed.

Lemma prims_resolver_calls w w' :
  rtc prim w w' -> resolver_calls_traced w -> resolver_calls_traced w'.
Proof. induction 1; [done|]. intros. eauto using prim_resolver_calls. Qed.

Lemma survivors_or_registered st l s :
  Some s ∈ l -> s ∈ survivors st l \/ registered st (Src.id s).
Proof.
  intros Hs. destruct (getSource st (Src.id s)) as [s0|] eqn:E.
  - right. unfold registered. rewrite E. by exists s0.
  - left. apply list_elem_of_omap. exists (Some s). split; [done|].
    by rewrite decide_True.
Qed.

(** After [newSources] has run, every present candidate is in the registry. *)
Lemma newSources_registers (D : Deps) fuel q cands w w' s :
  run D fuel q (newSources_body cands) w = Some w' ->
  Some s ∈ cands -> registered (store w') (Src.id s).
Proof.
  destruct fuel as [|fuel]; [done|]. intros Hrun Hs.
  change (run D (S fuel)) with (exec_sync D (run D fuel)) in Hrun.
  unfold newSources_body in Hrun. rewrite filterSources_run in Hrun.
  destruct (survivors_or_registered (store w) cands s Hs) as [Hin|Hreg].
  - destruct (survivors (store w) cands) as [|s0 f] eqn:Ef; [by apply elem_of_nil in Hin|].
    cbn [exec_sync] in Hrun.
    eapply prims_registered; [exact (run_prims D (S fuel) _ _ _ _ Hrun)|].
    change (registered (reducer (ADD_SOURCES (s0 :: f)) (store w)) (Src.id s)).
    by apply registered_ADD_SOURCES.
  - eapply prims_registered; [exact (run_prims D (S fuel) _ _ _ _ Hrun)|done].
Qed.

Lemma answer_registers (D : Deps) fuel p s urls w w' u :
  run D fuel p (tryOriginalURLs D s (Resolved (Some urls))) w = Some w' ->
  u ∈ urls -> registered (store w') (generatedToOriginalId D (Src.id s) u).
Proof.
  destruct fuel as [|fuel]; [done|]. intros Hrun Hu.
  change (run D (S fuel)) with (exec_sync D (run D fuel)) in Hrun.
  cbn [tryOriginalURLs withOriginalURLs exec_sync body] in Hrun.
  destruct (run D fuel _ (newSources_body _) _) as [w1|] eqn:Hc; [|done].
  injection Hrun as <-.
  change (registered (store w1)
            (Src.id (createOriginalSource D u s))).
  eapply newSources_registers; [exact Hc|].
  apply (list_elem_of_fmap (fun u => Some (createOriginalSource D u s))). by exists u.
Qed.

Lemma prims_originals_registered (D : Deps) w w' :
  rtc prim w w' -> originals_registered D w -> originals_registered D w'.
Proof.
  intros Hp Hw r urls Hin.
  destruct (Hw r urls (prims_answers _ _ _ _ Hp Hin)) as (s & Hs & Hreg).
  exists s. split; [by eapply prims_trace|].
  intros u Hu. eapply prims_registered; [exact Hp|by apply Hreg].
Qed.

Lemma known_wait_resolver (D : Deps) s k :
  known_wait D (AwaitOriginalURLs s k) -> k = tryOriginalURLs D s.
Proof. by inversion 1. Qed.

Section Discovered.
Context (D : Deps) (root : thunk).

Lemma step_originals_registered fuel ch w w' :
  shaped D root w ->
  resolver_calls_traced w -> originals_registered D w ->
  step D fuel ch w = Some w' ->
  resolver_calls_traced w' /\ originals_registered D w'.
Proof.
  intros Hsh Hrc Hor. destruct ch as [q o|p res|p]; unfold step.
  - destruct (status_at w q) as [[|c| |o']|] eqn:Hq; try by intros [= <-].
    intros [= <-]. split.
    + eapply prim_resolver_calls; [constructor|done].
    + eapply prims_originals_registered; [apply rtc_once; constructor|done].
  - destruct (status_at w p) as [[|c| |o']|] eqn:Hp; try by intros [= <-].
    destruct c; try by intros [= <-].
    pose proof (known_wait_resolver D _ _ (shaped_known D root w p _ Hsh Hp)) as ->.
    intros Hrun. pose proof (run_prims D _ _ _ _ _ Hrun) as Hprims.
    split.
    + eapply prims_resolver_calls; [exact Hprims|].
      by apply resolver_calls_traced_emit, resolver_calls_traced_set_status.
    + intros r urls Hin.
      apply (prims_answers _ _ _ _ Hprims) in Hin. simpl in Hin.
      apply elem_of_app in Hin as [Hin|Hin].
      * destruct (Hor r urls Hin) as (s0 & Hs0 & Hreg). exists s0. split.
        -- eapply prims_trace; [exact Hprims|]. simpl. apply elem_of_app. by left.
        -- intros u Hu. eapply prims_registered; [exact Hprims|]. by apply Hreg.
      * apply list_elem_of_singleton in Hin. injection Hin as -> <-.
        exists s. split.
        -- eapply prims_trace; [exact Hprims|]. simpl. apply elem_of_app. left.
           by apply (Hrc p s (tryOriginalURLs D s)).
        -- intros u Hu. by eapply answer_registers.
  - assert (Hgen : forall c',
              run D fuel p c' (set_status p Running w) = Some w' ->
              resolver_calls_traced w' /\ originals_registered D w').
    { intros c' Hrun. pose proof (run_prims D _ _ _ _ _ Hrun) as Hprims. split.
      - eapply prims_resolver_calls; [exact Hprims|].
        by apply resolver_calls_traced_set_status.
      - by eapply prims_originals_registered. }
    destruct (status_at w p) as [[|c| |o']|] eqn:Hp; try by intros [= <-].
    destruct c; try by intros [= <-].
    + destruct (outcome_at w p0) as [o|]; [apply Hgen|by intros [= <-]].
    + destruct (all_outcome_at w ps) as [o|]; [apply Hgen|by intros [= <-]].
Qed.

Lemma schedule_originals_registered fuel chs : forall w w',
  shaped D root w ->
  resolver_calls_traced w -> originals_registered D w ->
  schedule D fuel chs w = Some w' ->
  resolver_calls_traced w' /\ originals_registered D w'.
Proof.
  induction chs as [|ch chs IH]; intros w w' Hsh Hrc Hor; cbn [schedule].
  - by intros [= <-].
  - destruct (step D fuel ch w) as [w1|] eqn:Hstep; [|done].
    destruct (step_originals_registered _ _ _ _ Hsh Hrc Hor Hstep) as [Hrc1 Hor1].
    apply IH; [by eapply step_shaped|done|done].
Qed.

End Discovered.

(** ** What a scheduling step leaves alone *)

Lemma who_at_who w p t : who_at w p = Some t <-> who <$> promises w !! p = Some (Some t).
Proof. unfold who_at. destruct (promises w !! p) as [e|]; simpl; split; congruence. Qed.

Lemma step_frame (D : Deps) fuel ch w w' :
  step D fuel ch w = Some w' -> frame (subject ch) w w'.
Proof.
  destruct ch as [q o|p r|p]; unfold step; cbn [subject].
  - destruct (status_at w q) as [[|c| |o']|]; intros [= <-];
      try apply frame_refl. apply frame_settle.
  - destruct (status_at w p) as [[|c| |o']|]; try (intros [= <-]; apply frame_refl).
    destruct c; try (intros [= <-]; apply frame_refl).
    intros Hrun. apply run_frame in Hrun.
    eapply frame_trans; [|exact Hrun|by left].
    eapply frame_trans; [apply frame_set_status | by apply frame_emit | by left].
  - destruct (status_at w p) as [[|c| |o']|]; try (intros [= <-]; apply frame_refl).
    destruct c; try (intros [= <-]; apply frame_refl).
    + destruct (outcome_at w p0); [|intros [= <-]; apply frame_refl].
      intros Hrun. apply run_frame in Hrun.
      eapply frame_trans; [apply frame_set_status|exact Hrun|by left].
    + destruct (all_outcome_at w ps); [|intros [= <-]; apply frame_refl].
      intros Hrun. apply run_frame in Hrun.
      eapply frame_trans; [apply frame_set_status|exact Hrun|by left].
Qed.

Lemma frame_status p w w' r :
  frame p w w' -> r <> p -> r < length (promises w) -> status_at w' r = status_at w r.
Proof. intros (_ & _ & H & _) Hne Hr. unfold status_at. by rewrite H. Qed.

Lemma frame_who_at p w w' r t :
  frame p w w' -> who_at w r = Some t -> who_at w' r = Some t.
Proof.
  intros (_ & _ & _ & H) Hr. apply who_at_who. apply who_at_who in Hr.
  rewrite H; [done|]. destruct (promises w !! r) as [e|] eqn:E; [|done].
  by apply lookup_lt_Some in E.
Qed.

(** A settled promise stays as it is. *)
Lemma step_outcome (D : Deps) fuel ch w w' r o :
  step D fuel ch w = Some w' -> outcome_at w r = Some o -> outcome_at w' r = Some o.
Proof.
  intros Hstep Ho. destruct (decide (r = subject ch)) as [->|Hne].
  - apply outcome_at_status in Ho.
    destruct ch as [q o'|p res|p]; unfold step in Hstep; cbn [subject] in Ho;
      rewrite Ho in Hstep; injection Hstep as <-; by apply outcome_at_status.
  - pose proof (step_frame D _ _ _ _ Hstep) as Hf.
    unfold outcome_at in *. rewrite (frame_status _ _ _ r Hf); [done|done|].
    destruct (status_at w r) as [s|] eqn:E; [|done]. by apply status_at_lt in E.
Qed.

Lemma all_outcome_at_fulfilled w ps : forall vs,
  all_outcome_at w ps = Some (AllFulfilled vs) ->
  Forall2 (fun r v => outcome_at w r = Some (Fulfilled v)) ps vs.
Proof.
  induction ps as [|r ps IH]; intros vs; cbn [all_outcome_at].
  - intros [= <-]. constructor.
  - destruct (outcome_at w r) as [[v|e]|] eqn:Hr; [| |].
    + destruct (all_outcome_at w ps) as [[vs'|e]|]; try done.
      intros [= <-]. constructor; [done|]. by apply IH.
    + done.
    + by destruct (all_outcome_at w ps) as [[vs'|e]|].
Qed.

Section Batch.
Context (D : Deps) (n : nat) (f : list Source) (q0 : promise) (ps0 : list promise).

Lemma batch_run_step ch w w' :
  batch_run f q0 ps0 w ->
  step D (S (S (S (S n)))) ch w = Some w' ->
  batch_run f q0 ps0 w'.
Proof.
  intros [Hq0 Hwq Hwps Hroot Hq] Hstep.
  pose proof (step_frame D _ _ _ _ Hstep) as Hf.
  pose proof (fun r o => step_outcome D _ _ _ _ r o Hstep) as Hout.
  assert (Hps' : forall vs,
            Forall2 (fun r v => outcome_at w r = Some (Fulfilled v)) ps0 vs ->
            Forall2 (fun r v => outcome_at w' r = Some (Fulfilled v)) ps0 vs).
  { intros vs H. eapply Forall2_impl; [exact H|]. intros r v. apply Hout. }
  assert (Hsp : forall p t q, spawned w p t q -> spawned w' p t q).
  { intros p t q [H1 H2].
    split; [by apply (frame_who_at _ _ _ _ _ Hf)|by apply (frame_trace_in _ _ _ _ Hf)]. }
  split.
  - done.
  - by apply Hsp.
  - eapply Forall2_impl; [exact Hwps|]. intros r s. apply Hsp.
  - (* the promise of the batch *)
    destruct Hroot as [Hs|[[e He]|[[v Hv] [v0 Hv0]]]].
    2:{ right; left. exists e. by apply Hout. }
    2:{ right; right. split; [exists v|exists v0]; by apply Hout. }
    destruct (decide (subject ch = 1)) as [Hsub|Hsub].
    2:{ left. rewrite (frame_status _ _ _ 1 Hf); [done|done|].
        by apply status_at_lt in Hs. }
    destruct ch as [q o|p r|p]; cbn [subject] in Hsub; subst;
      unfold step in Hstep; rewrite Hs in Hstep; unfold await in Hstep.
    + injection Hstep as <-. by left.
    + injection Hstep as <-. by left.
    + destruct (outcome_at w q0) as [[v0|e]|] eqn:Hq0o.
      * injection Hstep as <-. right; right. split.
        -- exists VUndefined. apply outcome_at_settle. simpl. rewrite length_alter.
           by apply status_at_lt in Hs.
        -- exists v0. by apply Hout.
      * injection Hstep as <-. right; left. exists e.
        apply outcome_at_settle. simpl. rewrite length_alter.
        by apply status_at_lt in Hs.
      * injection Hstep as <-. by left.
  - (* the promise of loadSourceMaps *)
    destruct Hq as [Hs|[[e He]|(vs & r' & Hps & Hwr & [Hs|[[v0 Hv0] [v' Hv']]])]].
    2:{ right; left. exists e. by apply Hout. }
    3:{ right; right. exists vs, r'. split; [by apply Hps'|].
        split; [by apply Hsp|]. right.
        split; [exists v0|exists v']; by apply Hout. }
    + destruct (decide (subject ch = q0)) as [Hsub|Hsub].
      2:{ left. rewrite (frame_status _ _ _ q0 Hf); [done|done|].
          by apply status_at_lt in Hs. }
      pose proof (status_at_lt _ _ _ Hs) as Hlt.
      destruct ch as [q o|p r|p]; cbn [subject] in Hsub; subst;
        unfold step in Hstep; rewrite Hs in Hstep.
      * injection Hstep as <-. by left.
      * injection Hstep as <-. by left.
      * destruct (all_outcome_at w ps0) as [[vs|e]|] eqn:Hall.
        -- apply all_outcome_at_fulfilled in Hall.
           change (run D (S (S (S (S n))))) with (exec_sync D (run D (S (S (S n)))))
             in Hstep.
           cbn [afterAll] in Hstep.
           set (w0 := set_status q0 Running w) in *.
           assert (Hlt0 : q0 < length (promises w0))
             by (unfold w0; simpl; by rewrite length_alter).
           destruct (exec_DispatchThunk D (S (S (S n))) q0 (newSources (flatten vs))
                       (fun q => await q (fun _ => Return VUndefined)) w0 Hlt0
                       (total_newSources D n _)) as (w1 & Heq & Hpr & Hwho & Hfr).
           rewrite Heq in Hstep. cbn [exec_sync await] in Hstep.
           injection Hstep as <-.
           right; right. exists vs, (length (promises w0)).
           split; [by apply Hps'|]. split.
           { split; [apply who_at_who; by rewrite who_set_status|].
             change (EDispatch q0 (newSources (flatten vs)) (length (promises w0))
                       ∈ trace w1).
             eapply progress_own_in; [exact Hpr|]. by apply list_elem_of_singleton. }
           left. apply status_at_set_status.
           destruct Hfr as (_ & Hl & _). lia.
        -- injection Hstep as <-. right; left. exists e.
           apply outcome_at_settle. simpl. by rewrite length_alter.
        -- injection Hstep as <-. by left.
    + destruct (decide (subject ch = q0)) as [Hsub|Hsub].
      2:{ right; right. exists vs, r'. split; [by apply Hps'|].
          split; [by apply Hsp|]. left.
          rewrite (frame_status _ _ _ q0 Hf); [done|done|].
          by apply status_at_lt in Hs. }
      pose proof (status_at_lt _ _ _ Hs) as Hlt.
      destruct ch as [q o|p r|p]; cbn [subject] in Hsub; subst;
        unfold step in Hstep; rewrite Hs in Hstep; unfold await in Hstep.
      * injection Hstep as <-. right; right. exists vs, r'. split; [done|]. split; [done|]. by left.
      * injection Hstep as <-. right; right. exists vs, r'. split; [done|]. split; [done|]. by left.
      * destruct (outcome_at w r') as [[v'|e]|] eqn:Hr'.
        -- injection Hstep as <-. right; right. exists vs, r'.
           split; [by apply Hps'|]. split; [by apply Hsp|]. right. split.
           ++ exists VUndefined. apply outcome_at_settle. simpl. by rewrite length_alter.
           ++ exists v'. by apply Hout.
        -- injection Hstep as <-. right; left. exists e.
           apply outcome_at_settle. simpl. by rewrite length_alter.
        -- injection Hstep as <-. right; right. exists vs, r'.
           split; [done|]. split; [done|]. by left.
Qed.

Lemma batch_run_schedule chs : forall w w',
  batch_run f q0 ps0 w ->
  schedule D (S (S (S (S n)))) chs w = Some w' ->
  batch_run f q0 ps0 w'.
Proof.
  induction chs as [|ch chs IH]; intros w w' Hb; cbn [schedule].
  - by intros [= <-].
  - destruct (step D _ ch w) as [w1|] eqn:Hstep; [|done].
    apply IH. by eapply batch_run_step.
Qed.

End Batch.

(** The tasks a run of [newSources] leaves behind when it adds sources. *)
Lemma newSources_sync_tasks (D : Deps) n p l w :
  p < length (promises w) ->
  survivors (store w) l <> [] ->
  exists w' q ps,
    run D (S (S (S n))) p (newSources_body l) w = Some w' /\
    status_at w' p = Some (Waiting (await q (fun _ => Return VUndefined))) /\
    who_at w' q = Some (loadSourceMaps (survivors (store w) l)) /\
    EDispatch p (loadSourceMaps (survivors (store w) l)) q ∈ trace w' /\
    status_at w' q = Some (Waiting (AwaitAll ps afterAll)) /\
    Forall2 (fun r s =>
               who_at w' r = Some (loadSourceMap (Src.id s)) /\
               EDispatch q (loadSourceMap (Src.id s)) r ∈ trace w')
      ps (survivors (store w) l) /\
    p < q.
Proof.
  intros Hp Hf. unfold newSources_body.
  change (run D (S (S (S n)))) with (exec_sync D (run D (S (S n)))).
  rewrite filterSources_run.
  set (f := survivors (store w) l) in *.
  destruct f as [|s f'] eqn:Ef; [done|]. rewrite <- Ef. clear Hf.
  cbn [exec_sync].
  set (wa := emit (EAction p (ADD_SOURCES f)) (apply_action (ADD_SOURCES f) w)).
  assert (Hpa : p < length (promises wa)) by done.
  destruct (checkEach_run D (S n) p f
              (DispatchThunk (loadSourceMaps f) (fun q => await q (fun _ => Return VUndefined)))
              wa Hpa) as (wb & mine1 & Heq1 & Hpr1 & _ & _ & _).
  rewrite Heq1.
  assert (Hpb : p < length (promises wb)) by (destruct Hpr1 as (_ & ? & _); lia).
  cbn [exec_sync body].
  set (q := length (promises wb)).
  set (wb0 := emit (EDispatch p (loadSourceMaps f) q) (alloc (loadSourceMaps f) Running wb)).
  assert (Hlb0 : length (promises wb0) = S q)
    by (unfold wb0, q; simpl; rewrite length_app; simpl; lia).
  destruct (loadSourceMaps_sync D n q f wb0) as (w1 & ps & mine & Hrun & _ & _ & _ & _ & Hwho & Hfr);
    [lia|].
  rewrite Hrun. cbn [exec_sync await].
  pose proof Hfr as (_ & Hl1 & Hother & Hwho1).
  eexists _, q, ps. split; [reflexivity|].
  assert (Hq1 : q < length (promises w1)) by lia.
  split; [|split; [|split; [|split; [|split]]]].
  - apply status_at_set_status. simpl. rewrite length_alter. lia.
  - apply who_at_who. rewrite !who_set_status, Hwho1 by lia.
    unfold wb0. simpl. by rewrite list_lookup_middle.
  - change (EDispatch p (loadSourceMaps f) q ∈ trace w1).
    eapply frame_trace_in; [exact Hfr|]. unfold wb0. simpl.
    apply elem_of_app. right. by apply list_elem_of_singleton.
  - rewrite status_at_set_status_ne by (unfold q; lia).
    by apply status_at_set_status.
  - eapply Forall2_impl; [exact Hwho|]. intros r s0 [H1 H2]. split; [|done].
    apply who_at_who. by rewrite !who_set_status.
  - unfold q. lia.
Qed.

Lemma dispatch_shaped (D : Deps) fuel root st w1 :
  dispatch D fuel root (initial st) = Some w1 -> shaped D root w1.
Proof.
  intros Hd. eapply run_shaped; [exact Hd|simpl; lia| |].
  - intros [|p] e; [|done]. by intros [= <-].
  - intros e [= <-]. exists (host_script root). split; [done|constructor].
Qed.

Lemma dispatch_traced (D : Deps) fuel root st w1 :
  dispatch D fuel root (initial st) = Some w1 ->
  resolver_calls_traced w1 /\ originals_registered D w1.
Proof.
  intros Hd. apply run_prims in Hd. split.
  - eapply prims_resolver_calls; [exact Hd|]. intros [|r] s k; [done|done].
  - eapply prims_originals_registered; [exact Hd|]. intros r urls Hin.
    by apply elem_of_nil in Hin.
Qed.

(** ** The awaited recursion of [loadSourceMaps] *)

Lemma flatten_undefined vs :
  Forall (fun v => v = VUndefined) vs -> flatten vs = replicate (length vs) None.
Proof.
  induction 1 as [|v vs -> _ IH]; [done|].
  unfold flatten in *. simpl. by rewrite IH.
Qed.

Lemma survivors_absent st k : survivors st (replicate k None) = [].
Proof. induction k as [|k IH]; [done|]. exact IH. Qed.

Lemma loadSourceMap_returns_undefined (D : Deps) i v :
  returns (loadSourceMap_body D i) v -> v = VUndefined.
Proof.
  unfold returns, loadSourceMap_body. intros H. invert_residual H.
  match goal with H : residual _ _ |- _ => rename H into Hr end.
  destruct (getSource st i) as [s|]; [|by apply residual_Throw in Hr].
  destruct (negb _ || negb _).
  { apply residual_Return in Hr. congruence. }
  invert_residual Hr.
  match goal with H : residual _ _ |- _ => rename H into Hr end.
  destruct r as [[urls|]|e]; cbn [tryOriginalURLs withOriginalURLs] in Hr.
  - invert_residual Hr.
    match goal with H : residual _ _ |- _ => apply residual_Return in H end.
    congruence.
  - invert_residual Hr.
    match goal with H : residual _ _ |- _ => apply residual_Return in H end.
    congruence.
  - invert_residual Hr.
    match goal with H : residual _ _ |- _ => rename H into Hr end.
    invert_residual Hr.
    match goal with H : residual _ _ |- _ => apply residual_Return in H end.
    congruence.
Qed.

(** In a table in order, the promise of a [loadSourceMap] task is fulfilled
    with [undefined] only. *)
Lemma shaped_loadSourceMap_value (D : Deps) root w r i v :
  shaped D root w ->
  who_at w r = Some (loadSourceMap i) ->
  outcome_at w r = Some (Fulfilled v) ->
  v = VUndefined.
Proof.
  intros Hw Hwho Ho.
  apply outcome_at_status, status_at_entry in Ho as (e & He & Hs).
  unfold who_at in Hwho. rewrite He in Hwho. simpl in Hwho.
  pose proof (Hw r e He) as Hok. unfold ok_entry in Hok. rewrite Hs, Hwho in Hok.
  by apply (loadSourceMap_returns_undefined D i), Hok.
Qed.

Lemma loadSourceMap_values_undefined (D : Deps) root w (f : list Source) q ps vs :
  shaped D root w ->
  Forall2 (fun r s => spawned w q (loadSourceMap (Src.id s)) r) ps f ->
  Forall2 (fun r v => outcome_at w r = Some (Fulfilled v)) ps vs ->
  flatten vs = replicate (length ps) None.
Proof.
  intros Hw Hps Hvs. rewrite (Forall2_length _ _ _ Hvs).
  apply flatten_undefined. revert f Hps.
  induction Hvs as [|r v ps vs Hv _ IH]; intros f Hps; [constructor|].
  inversion Hps as [|r' s ps' f' [Hwho _] Hps']; subst.
  constructor; [|by eapply IH].
  by eapply shaped_loadSourceMap_value.
Qed.

(** ** Resolver calls and registry actions after the first stretch *)

Lemma silent_refl w : silent w w.
Proof. split; [done|]. exists []. by rewrite app_nil_r. Qed.

Lemma silent_trans w w1 w2 : silent w w1 -> silent w1 w2 -> silent w w2.
Proof.
  intros (Hs1 & evs1 & Ht1 & Ha1) (Hs2 & evs2 & Ht2 & Ha2).
  split; [congruence|]. exists (evs1 ++ evs2).
  split; [by rewrite Ht2, Ht1, app_assoc|].
  unfold actions_of in *. by rewrite omap_app, Ha1, Ha2.
Qed.

Lemma silent_emit e w :
  match e with EAction _ _ => False | _ => True end -> silent w (emit e w).
Proof. intros He. split; [done|]. exists [e]. split; [done|]. by destruct e. Qed.

Lemma silent_set_status p s w : silent w (set_status p s w).
Proof. split; [done|]. exists []. by rewrite app_nil_r. Qed.

Lemma silent_alloc t s w : silent w (alloc t s w).
Proof. split; [done|]. exists []. by rewrite app_nil_r. Qed.

Lemma silent_settle p o w : silent w (settle p o w).
Proof.
  eapply silent_trans; [apply (silent_set_status p (Done o))|by apply silent_emit].
Qed.

Lemma who_at_set_status p s w r : who_at (set_status p s w) r = who_at w r.
Proof.
  destruct (who_at w r) as [t|] eqn:E.
  - apply who_at_who. rewrite who_set_status. by apply who_at_who.
  - destruct (who_at (set_status p s w) r) as [t|] eqn:E'; [|done].
    apply who_at_who in E'. rewrite who_set_status in E'. apply who_at_who in E'.
    congruence.
Qed.

Lemma who_at_alloc t s w r t' :
  who_at w r = Some t' -> who_at (alloc t s w) r = Some t'.
Proof.
  unfold who_at. simpl. destruct (promises w !! r) as [e|] eqn:E; [|done].
  by rewrite (lookup_app_l_Some _ _ _ _ E).
Qed.

Lemma who_at_alloc_new t s w : who_at (alloc t s w) (length (promises w)) = Some t.
Proof. unfold who_at. simpl. by rewrite list_lookup_middle. Qed.

Lemma who_kept_trans w w1 w2 : who_kept w w1 -> who_kept w1 w2 -> who_kept w w2.
Proof. intros H1 H2 r t Hr. by apply H2, H1. Qed.

Lemma status_at_set_status_inv p s w r x :
  status_at (set_status p s w) r = Some x ->
  (r = p /\ x = s) \/ status_at w r = Some x.
Proof.
  destruct (decide (r = p)) as [->|Hne].
  - intros H. left. split; [done|].
    rewrite status_at_set_status in H by (by apply status_at_lt in H; simpl in H;
                                          rewrite length_alter in H).
    congruence.
  - rewrite status_at_set_status_ne by done. by right.
Qed.

Lemma status_at_alloc_inv t s w r x :
  status_at (alloc t s w) r = Some x ->
  (r = length (promises w) /\ x = s) \/ status_at w r = Some x.
Proof.
  intros H. pose proof (status_at_lt _ _ _ H) as Hr.
  simpl in Hr. rewrite length_app in Hr. simpl in Hr.
  destruct (decide (r = length (promises w))) as [->|Hne].
  - left. split; [done|]. rewrite status_at_alloc_eq in H. congruence.
  - right. rewrite status_at_alloc_lt in H by lia. done.
Qed.

Section Calm.
Context (P : promise -> Prop).

Lemma calm_promises w w' : promises w' = promises w -> calm P w -> calm P w'.
Proof.
  intros Hp [H1 H2]. unfold calm, resolving, status_at, who_at in *.
  rewrite Hp. by split.
Qed.

Lemma calm_alloc t s w :
  s = Running \/ s = Pending -> calm P w -> calm P (alloc t s w).
Proof.
  intros Hs [H1 H2]. split.
  - intros r (s0 & k & Hr). apply status_at_alloc_inv in Hr as [[_ Hr]|Hr].
    + destruct Hs; congruence.
    + apply H1. by exists s0, k.
  - intros q ps k Hq. apply status_at_alloc_inv in Hq as [[_ Hq]|Hq].
    + destruct Hs; congruence.
    + eapply Forall_impl; [exact (H2 q ps k Hq)|].
      intros r [i Hr]. exists i. by apply who_at_alloc.
Qed.

Lemma calm_set_status p s w :
  calm P w ->
  (forall s0 k, s = Waiting (AwaitOriginalURLs s0 k) -> P p) ->
  (forall ps k, s = Waiting (AwaitAll ps k) ->
     Forall (fun r => exists i, who_at w r = Some (loadSourceMap i)) ps) ->
  calm P (set_status p s w).
Proof.
  intros [H1 H2] Hr Ha. split.
  - intros r (s0 & k & Hs). apply status_at_set_status_inv in Hs as [[-> Hs]|Hs].
    + by eapply Hr.
    + apply H1. by exists s0, k.
  - intros q ps k Hq.
    assert (Hps : Forall (fun r => exists i, who_at w r = Some (loadSourceMap i)) ps).
    { apply status_at_set_status_inv in Hq as [[-> Hq]|Hq]; [by eapply Ha|by eapply H2]. }
    eapply Forall_impl; [exact Hps|]. intros r [i Hi]. exists i.
    by rewrite who_at_set_status.
Qed.

Lemma calm_settle p o w : calm P w -> calm P (settle p o w).
Proof.
  intros H. apply (calm_promises (set_status p (Done o) w)); [done|].
  by apply calm_set_status.
Qed.

Lemma calm_running p w : calm P w -> calm P (set_status p Running w).
Proof. intros H. by apply calm_set_status. Qed.

End Calm.

Lemma who_kept_settle p o w : who_kept w (settle p o w).
Proof.
  intros r t Hr. change (who_at (set_status p (Done o) w) r = Some t).
  by rewrite who_at_set_status.
Qed.

Lemma who_kept_set_status p s w : who_kept w (set_status p s w).
Proof. intros r t Hr. by rewrite who_at_set_status. Qed.

Lemma who_kept_alloc t s w : who_kept w (alloc t s w).
Proof. intros r t' Hr. by apply who_at_alloc. Qed.

Ltac inert_steps :=
  repeat first
    [ progress intros
    | apply inert_Return | apply inert_Throw | apply inert_GetState | apply inert_Await
    | apply inert_imported; [reflexivity|]
    | match goal with
      | |- inert _ (match ?x with _ => _ end) => destruct x
      end ].

Lemma inert_syncPendingBreakpoints (D : Deps) i rest :
  inert D (syncPendingBreakpoints i rest).
Proof. destruct rest; cbn [syncPendingBreakpoints]; unfold await; inert_steps. Qed.

Lemma inert_checkSelectedSource (D : Deps) i : inert D (checkSelectedSource_body D i).
Proof. unfold checkSelectedSource_body, await. inert_steps. Qed.

Lemma inert_checkPendingBreakpoints (D : Deps) i :
  inert D (checkPendingBreakpoints_body i).
Proof. unfold checkPendingBreakpoints_body, await. inert_steps. Qed.

Section CalmRuns.
Context (D : Deps) (P : promise -> Prop).

(** An inert stretch starts no resolver call and no [Promise.all], and
    dispatches no action. *)
Lemma exec_inert call p c : inert D c -> forall w w',
  exec_sync D call p c w = Some w' ->
  (calm P w -> calm P w') /\ silent w w' /\ who_kept w w'.
Proof.
  induction 1 as [v|e|k Hk IH|q k|t k Hb Hk IH]; intros w w'; cbn [exec_sync].
  - intros [= <-]. split; [apply calm_settle|].
    split; [apply silent_settle|apply who_kept_settle].
  - intros [= <-]. split; [apply calm_settle|].
    split; [apply silent_settle|apply who_kept_settle].
  - apply IH.
  - intros [= <-]. split; [|split; [apply silent_set_status|apply who_kept_set_status]].
    intros Hc. by apply calm_set_status.
  - rewrite Hb. intros H. apply IH in H as (Hc & Hs & Hw).
    split; [|split].
    + intros Hc0. apply Hc. eapply calm_promises; [|apply (calm_alloc P t Pending w); eauto].
      done.
    + eapply silent_trans; [|exact Hs].
      eapply silent_trans; [apply (silent_alloc t Pending)|by apply silent_emit].
    + eapply who_kept_trans; [|exact Hw]. intros r t' Hr.
      by apply (who_at_alloc t Pending) in Hr.
Qed.

Lemma checkEach_calm n p l k : forall w w',
  exec_sync D (run D (S n)) p (checkEach l k) w = Some w' ->
  exists w1,
    exec_sync D (run D (S n)) p k w1 = Some w' /\
    (calm P w -> calm P w1) /\ silent w w1 /\ who_kept w w1.
Proof.
  induction l as [|s l IH]; intros w w' H.
  - exists w. split; [done|]. split; [done|]. split; [apply silent_refl|by intros r t].
  - cbn [checkEach exec_sync body] in H.
    set (q1 := length (promises w)) in *.
    set (w0 := emit (EDispatch p (checkSelectedSource (Src.id s)) q1)
                 (alloc (checkSelectedSource (Src.id s)) Running w)) in *.
    destruct (run D (S n) q1 (checkSelectedSource_body D (Src.id s)) w0) as [wa|] eqn:E1;
      [|done].
    apply (exec_inert _ _ _ (inert_checkSelectedSource D _)) in E1 as (Hc1 & Hs1 & Hw1).
    set (q2 := length (promises wa)) in *.
    set (wa0 := emit (EDispatch p (checkPendingBreakpoints (Src.id s)) q2)
                  (alloc (checkPendingBreakpoints (Src.id s)) Running wa)) in *.
    destruct (run D (S n) q2 (checkPendingBreakpoints_body (Src.id s)) wa0) as [wb|] eqn:E2;
      [|done].
    apply (exec_inert _ _ _ (inert_checkPendingBreakpoints D _)) in E2 as (Hc2 & Hs2 & Hw2).
    destruct (IH wb w' H) as (w1 & Hk & Hc3 & Hs3 & Hw3).
    exists w1. split; [done|]. split; [|split].
    + intros Hc. apply Hc3, Hc2.
      apply (calm_promises P (alloc (checkPendingBreakpoints (Src.id s)) Running wa)); [done|].
      apply calm_alloc; [by left|]. apply Hc1.
      apply (calm_promises P (alloc (checkSelectedSource (Src.id s)) Running w)); [done|].
      apply calm_alloc; [by left|done].
    + eapply silent_trans; [|exact Hs3]. eapply silent_trans; [|exact Hs2].
      eapply silent_trans; [|eapply silent_trans; [apply silent_alloc|by apply silent_emit]].
      eapply silent_trans; [|exact Hs1].
      eapply silent_trans; [apply silent_alloc|by apply silent_emit].
    + eapply who_kept_trans; [|exact Hw3]. eapply who_kept_trans; [|exact Hw2].
      eapply who_kept_trans; [|apply who_kept_alloc].
      eapply who_kept_trans; [|exact Hw1]. apply who_kept_alloc.
Qed.

Lemma loadSourceMap_calm n p i w w' :
  run D (S n) p (loadSourceMap_body D i) w = Some w' ->
  silent w w' /\ who_kept w w' /\
  (calm P w -> (asks_resolver D (store w) i = true -> P p) -> calm P w').
Proof.
  rewrite loadSourceMap_sync. intros [= <-]. unfold asks_resolver.
  assert (Hsettle : forall o,
            silent w (settle p o w) /\ who_kept w (settle p o w) /\
            (calm P w -> calm P (settle p o w))).
  { intros o. split; [apply silent_settle|]. split; [apply who_kept_settle|].
    apply calm_settle. }
  destruct (getSource (store w) i) as [s|].
  2: { destruct (Hsettle (Rejected (TypeError "toJS"))) as (? & ? & ?).
       split; [done|]. split; [done|]. intros Hc _. auto. }
  destruct (isGeneratedId D (Src.id s)), (truthy (Src.sourceMapURL s)); simpl;
    try (destruct (Hsettle (Fulfilled VUndefined)) as (? & ? & ?);
         split; [done|]; split; [done|]; intros Hc _; auto; fail).
  split; [|split].
  - eapply silent_trans; [apply silent_set_status|by apply silent_emit].
  - intros r t Hr.
    change (who_at (set_status p (Waiting (AwaitOriginalURLs s (tryOriginalURLs D s))) w) r
            = Some t).
    by rewrite who_at_set_status.
  - intros Hc Hp.
    eapply calm_promises; [|apply (calm_set_status P p
                               (Waiting (AwaitOriginalURLs s (tryOriginalURLs D s))) w Hc)];
      [done|by intros; apply Hp|done].
Qed.

Lemma dispatchLoadSourceMap_calm n p l : forall k w w',
  exec_sync D (run D (S n)) p (dispatchLoadSourceMap l k) w = Some w' ->
  exists w1 ps,
    exec_sync D (run D (S n)) p (k ps) w1 = Some w' /\
    silent w w1 /\ who_kept w w1 /\
    Forall (fun r => exists i, who_at w1 r = Some (loadSourceMap i)) ps /\
    (calm P w ->
     (forall j r s, ps !! j = Some r -> l !! j = Some s ->
                    asks_resolver D (store w) (Src.id s) = true -> P r) ->
     calm P w1).
Proof.
  induction l as [|s l IH]; intros k w w' H.
  - exists w, []. split; [done|]. split; [apply silent_refl|].
    split; [by intros r t|]. split; [constructor|done].
  - cbn [dispatchLoadSourceMap exec_sync body] in H.
    set (q := length (promises w)) in *.
    set (w0 := emit (EDispatch p (loadSourceMap (Src.id s)) q)
                 (alloc (loadSourceMap (Src.id s)) Running w)) in *.
    destruct (run D (S n) q (loadSourceMap_body D (Src.id s)) w0) as [wc|] eqn:E; [|done].
    apply loadSourceMap_calm in E as (Hs1 & Hw1 & Hc1).
    destruct (IH _ wc w' H) as (w1 & ps & Hk & Hs2 & Hw2 & Hps & Hc2).
    assert (Hs0 : silent w w0)
      by (eapply silent_trans; [apply silent_alloc|by apply silent_emit]).
    exists w1, (q :: ps). split; [done|]. split; [|split; [|split]].
    + eapply silent_trans; [exact Hs0|]. eapply silent_trans; [exact Hs1|exact Hs2].
    + eapply who_kept_trans; [apply who_kept_alloc|].
      eapply who_kept_trans; [exact Hw1|exact Hw2].
    + constructor; [|done]. exists (Src.id s). apply Hw2, Hw1.
      apply who_at_alloc_new.
    + intros Hc Hl. apply Hc2.
      * apply Hc1.
        -- apply (calm_promises P (alloc (loadSourceMap (Src.id s)) Running w)); [done|].
           apply calm_alloc; [by left|done].
        -- intros Ha. apply (Hl 0 q s); [done|done|].
           destruct Hs0 as [<- _]. done.
      * intros j r s' Hj Hj' Ha. apply (Hl (S j) r s'); [done|done|].
        destruct Hs0 as [<- _]. destruct Hs1 as [<- _]. done.
Qed.

Lemma newSources_calm n p l w w' :
  run D (S (S (S n))) p (newSources_body l) w = Some w' ->
  survivors (store w) l <> [] ->
  exists q ps w1,
    w' = set_status p (Waiting (await q (fun _ => Return VUndefined)))
           (set_status q (Waiting (AwaitAll ps afterAll)) w1) /\
    (calm P w ->
     (forall j r s, ps !! j = Some r -> survivors (store w) l !! j = Some s ->
        asks_resolver D (reducer (ADD_SOURCES (survivors (store w) l)) (store w))
          (Src.id s) = true -> P r) ->
     calm P w').
Proof.
  intros H Hf. unfold newSources_body in H.
  change (run D (S (S (S n)))) with (exec_sync D (run D (S (S n)))) in H.
  rewrite filterSources_run in H.
  set (f := survivors (store w) l) in *.
  destruct f as [|s f'] eqn:Ef; [done|]. rewrite <- Ef in *. clear Hf.
  cbn [exec_sync] in H.
  set (wa := emit (EAction p (ADD_SOURCES f)) (apply_action (ADD_SOURCES f) w)) in *.
  apply checkEach_calm in H as (wb & H & Hc1 & Hs1 & Hw1).
  cbn [exec_sync body] in H.
  set (q := length (promises wb)) in *.
  set (wb0 := emit (EDispatch p (loadSourceMaps f) q) (alloc (loadSourceMaps f) Running wb))
    in *.
  destruct (run D (S (S n)) q (loadSourceMaps_body f) wb0) as [wc|] eqn:E; [|done].
  unfold loadSourceMaps_body in E.
  change (run D (S (S n))) with (exec_sync D (run D (S n))) in E.
  apply dispatchLoadSourceMap_calm in E as (w1 & ps & Hk & Hs2 & Hw2 & Hps & Hc2).
  cbn [exec_sync] in Hk. injection Hk as <-.
  cbn [exec_sync await] in H. injection H as <-.
  exists q, ps, w1. split; [done|].
  intros Hc Hl. apply calm_set_status; [|done|done].
  apply calm_set_status; [|done|by intros ps' k [= <- <-]].
  apply Hc2.
  - apply (calm_promises P (alloc (loadSourceMaps f) Running wb)); [done|].
    apply calm_alloc; [by left|]. apply Hc1.
    by apply (calm_promises P w).
  - intros j r s0 Hj Hj' Ha. apply (Hl j r s0); [done|done|].
    destruct Hs1 as [Hst _]. change (store wb0) with (store wb) in Ha.
    by rewrite Hst in Ha.
Qed.

End CalmRuns.

Lemma foldl_updateSource_lookup l : forall (m : gmap string Source) i s,
  foldl updateSource m l !! i = Some s -> s ∈ l \/ m !! i = Some s.
Proof.
  induction l as [|s0 l IH]; intros m i s H; [by right|].
  simpl in H. apply IH in H as [H|H]; [left; by apply elem_of_cons; right|].
  unfold updateSource in H. destruct (decide (Src.id s0 = i)) as [<-|Hne].
  - rewrite lookup_insert_eq in H. injection H as <-. left. by apply elem_of_cons; left.
  - rewrite lookup_insert_ne in H by done. by right.
Qed.

(** The original sources [loadSourceMap] creates declare no source map, so
    once added none of them makes [loadSourceMap] ask the resolver. *)
Lemma originals_ask_nothing (D : Deps) st g urls s :
  s ∈ survivors st (map (fun u => Some (createOriginalSource D u g)) urls) ->
  asks_resolver D
    (reducer
       (ADD_SOURCES (survivors st (map (fun u => Some (createOriginalSource D u g)) urls)))
       st)
    (Src.id s) = false.
Proof.
  set (f := survivors st _). intros Hs.
  assert (Hq : forall s', s' ∈ f -> Src.sourceMapURL s' = None /\ getSource st (Src.id s') = None).
  { intros s' H. apply list_elem_of_omap in H as ([c|] & Hc & H); [|done].
    destruct (decide (getSource st (Src.id c) = None)) as [Hn|]; [|done].
    injection H as ->. split; [|done].
    apply list_elem_of_fmap in Hc as (u & [= ->] & _). done. }
  unfold asks_resolver, getSource. simpl.
  destruct (foldl updateSource (sources st) f !! Src.id s) as [s'|] eqn:E; [|done].
  apply foldl_updateSource_lookup in E as [E|E].
  - destruct (Hq s' E) as [-> _]. simpl. apply andb_false_r.
  - destruct (Hq s Hs) as [_ Hn]. unfold getSource in Hn. congruence.
Qed.

Lemma known_wait_inert (D : Deps) q k :
  known_wait D (Await q k) -> forall o, inert D (k o).
Proof.
  inversion 1; subst; intros [v|e]; try constructor.
  apply inert_syncPendingBreakpoints.
Qed.

Lemma known_wait_all (D : Deps) ps k : known_wait D (AwaitAll ps k) -> k = afterAll.
Proof. by inversion 1. Qed.

Lemma loadSourceMap_all_undefined (D : Deps) root w ps vs :
  shaped D root w ->
  Forall (fun r => exists i, who_at w r = Some (loadSourceMap i)) ps ->
  Forall2 (fun r v => outcome_at w r = Some (Fulfilled v)) ps vs ->
  Forall (fun v => v = VUndefined) vs.
Proof.
  intros Hsh Hps Hvs. induction Hvs as [|r v ps vs Hv _ IH]; [constructor|].
  inversion Hps as [|r' ps' [i Hi] Hps']; subst.
  constructor; [|by apply IH]. by eapply shaped_loadSourceMap_value.
Qed.

Section QuietSteps.
Context (D : Deps) (root : thunk) (P : promise -> Prop) (n : nat).

(** After its [Promise.all], a [loadSourceMaps] task dispatches a
    [newSources] that returns at once. *)
Lemma resume_all_quiet p ps w w' o :
  shaped D root w -> calm P w ->
  status_at w p = Some (Waiting (AwaitAll ps afterAll)) ->
  all_outcome_at w ps = Some o ->
  run D (S (S (S (S n)))) p (afterAll o) (set_status p Running w) = Some w' ->
  calm P w' /\ silent w w'.
Proof.
  intros Hsh Hc Hs Ho Hrun.
  change (run D (S (S (S (S n))))) with (exec_sync D (run D (S (S (S n))))) in Hrun.
  destruct o as [vs|e]; cbn [afterAll exec_sync body] in Hrun.
  - assert (Hflat : flatten vs = replicate (length vs) None).
    { apply flatten_undefined. eapply loadSourceMap_all_undefined; [exact Hsh| |].
      - destruct Hc as [_ H2]. exact (H2 p ps afterAll Hs).
      - by apply all_outcome_at_fulfilled. }
    rewrite Hflat in Hrun.
    rewrite newSources_sync_empty in Hrun by apply survivors_absent.
    cbn [exec_sync await] in Hrun. injection Hrun as <-. split.
    + apply calm_set_status; [|done|done]. apply calm_settle.
      eapply calm_promises; [|apply calm_alloc; [by left|apply calm_running; exact Hc]].
      done.
    + eapply silent_trans; [|apply silent_set_status].
      eapply silent_trans; [|apply silent_settle].
      eapply silent_trans; [|by apply silent_emit].
      eapply silent_trans; [apply silent_set_status|apply silent_alloc].
  - injection Hrun as <-. split.
    + by apply calm_settle, calm_running.
    + eapply silent_trans; [apply silent_set_status|apply silent_settle].
Qed.

(** A scheduling step starts no resolver call, and dispatches an action only
    when it answers a resolver call. *)
Lemma step_quiet ch w w' :
  shaped D root w -> calm P w ->
  step D (S (S (S (S n)))) ch w = Some w' ->
  calm P w' /\ (resolving w (subject ch) \/ silent w w').
Proof.
  intros Hsh Hc. destruct ch as [q o|p r|p]; unfold step; cbn [subject].
  - destruct (status_at w q) as [[|c| |o']|] eqn:Hq; intros [= <-];
      try (split; [done|right; apply silent_refl]).
    split; [by apply calm_settle|right; apply silent_settle].
  - destruct (status_at w p) as [[|c| |o']|] eqn:Hp;
      try (intros [= <-]; split; [done|right; apply silent_refl]).
    destruct c as [| | | | | | | |s k];
      try (intros [= <-]; split; [done|right; apply silent_refl]).
    intros Hrun. split; [|left; by exists s, k].
    pose proof (known_wait_resolver D s k (shaped_known D root w p _ Hsh Hp)) as ->.
    change (run D (S (S (S (S n))))) with (exec_sync D (run D (S (S (S n))))) in Hrun.
    assert (Hc0 : calm P (emit (EAnswer p r) (set_status p Running w))).
    { eapply calm_promises; [|apply (calm_running P p w Hc)]. done. }
    destruct r as [[urls|]|e];
      cbn [tryOriginalURLs withOriginalURLs exec_sync body] in Hrun.
    + set (cands := map (fun u => Some (createOriginalSource D u s)) urls) in *.
      set (wr := emit (EAnswer p (Resolved (Some urls))) (set_status p Running w)) in *.
      set (q := length (promises wr)) in *.
      set (w0 := emit (EDispatch p (newSources cands) q) (alloc (newSources cands) Running wr))
        in *.
      destruct (run D (S (S (S n))) q (newSources_body cands) w0) as [wc|] eqn:E; [|done].
      injection Hrun as <-. apply calm_settle.
      assert (Hc1 : calm P w0).
      { eapply calm_promises; [|apply (calm_alloc P (newSources cands) Running wr)]; eauto. }
      destruct (decide (survivors (store w0) cands = [])) as [He|Hne].
      * rewrite newSources_sync_empty in E by done. injection E as <-.
        by apply calm_settle.
      * apply (newSources_calm D P) in E as (q' & ps & w1 & -> & Himp); [|done].
        apply Himp; [done|]. intros j r s0 Hj Hj' Ha. exfalso.
        unfold cands in Ha. rewrite originals_ask_nothing in Ha; [done|].
        by eapply list_elem_of_lookup_2.
    + injection Hrun as <-. apply calm_settle.
      eapply calm_promises; [|exact Hc0]. done.
    + injection Hrun as <-. apply calm_settle.
      eapply calm_promises; [|exact Hc0]. done.
  - destruct (status_at w p) as [[|c| |o']|] eqn:Hp;
      try (intros [= <-]; split; [done|right; apply silent_refl]).
    pose proof (shaped_known D root w p _ Hsh Hp) as Hk.
    destruct c as [| | | | | |q k|ps k|];
      try (intros [= <-]; split; [done|right; apply silent_refl]).
    + destruct (outcome_at w q) as [o|];
        [|intros [= <-]; split; [done|right; apply silent_refl]].
      intros Hrun.
      change (run D (S (S (S (S n))))) with (exec_sync D (run D (S (S (S n))))) in Hrun.
      apply (exec_inert D P _ _ _ (known_wait_inert D q k Hk o)) in Hrun
        as (Hc' & Hs' & _).
      split; [by apply Hc', calm_running|right].
      eapply silent_trans; [apply silent_set_status|exact Hs'].
    + pose proof (known_wait_all D ps k Hk) as ->.
      destruct (all_outcome_at w ps) as [o|] eqn:Ho;
        [|intros [= <-]; split; [done|right; apply silent_refl]].
      intros Hrun.
      destruct (resume_all_quiet p ps w w' o Hsh Hc Hp Ho Hrun) as [Hc' Hs'].
      split; [done|by right].
Qed.

End QuietSteps.

Section QuietSchedules.
Context (D : Deps) (root : thunk) (n : nat).

Lemma schedule_calm P chs : forall w w',
  shaped D root w -> calm P w ->
  schedule D (S (S (S (S n)))) chs w = Some w' -> calm P w'.
Proof.
  induction chs as [|ch chs IH]; intros w w' Hsh Hc; cbn [schedule].
  - by intros [= <-].
  - destruct (step D _ ch w) as [w1|] eqn:Hstep; [|done].
    destruct (step_quiet D root P n ch w w1 Hsh Hc Hstep) as [Hc1 _].
    apply IH; [by eapply step_shaped|done].
Qed.

(** Once no task is suspended at the resolver, no schedule dispatches an
    action any more. *)
Lemma schedule_silent chs : forall w w',
  shaped D root w -> calm (fun _ => False) w ->
  schedule D (S (S (S (S n)))) chs w = Some w' -> silent w w'.
Proof.
  induction chs as [|ch chs IH]; intros w w' Hsh Hc; cbn [schedule].
  - intros [= <-]. apply silent_refl.
  - destruct (step D _ ch w) as [w1|] eqn:Hstep; [|done].
    destruct (step_quiet D root _ n ch w w1 Hsh Hc Hstep) as [Hc1 [Hr|Hs]].
    { by destruct Hc as [H1 _]; apply H1 in Hr. }
    intros Hsch. eapply silent_trans; [exact Hs|].
    apply IH; [by eapply step_shaped|done|done].
Qed.

End QuietSchedules.

Lemma calm_initial P st : calm P (initial st).
Proof.
  split.
  - intros [|r] (s & k & Hr); [done|]. unfold status_at in Hr. by destruct r.
  - intros [|q] ps k Hq; [done|]. unfold status_at in Hq. by destruct q.
Qed.

Lemma status_at_set_status_same p s w x :
  status_at (set_status p s w) p = Some x -> x = s.
Proof.
  intros H. pose proof (status_at_lt _ _ _ H) as Hp.
  simpl in Hp. rewrite length_alter in Hp.
  rewrite status_at_set_status in H by done. congruence.
Qed.

(** The first stretch of a batch: the tasks it leaves at the resolver are
    [loadSourceMap] tasks of the batch itself. *)
Lemma batch_run_initial (D : Deps) n st l :
  survivors st l <> [] ->
  exists w1 q0 ps0,
    dispatch D (S (S (S (S n)))) (newSources l) (initial st) = Some w1 /\
    batch_run (survivors st l) q0 ps0 w1 /\
    calm (fun r => r ∈ ps0) w1.
Proof.
  intros Hf. unfold dispatch, host_script.
  change (run D (S (S (S (S n))))) with (exec_sync D (run D (S (S (S n))))).
  cbn [exec_sync body].
  set (w0 := emit (EDispatch 0 (newSources l) 1) (alloc (newSources l) Running (initial st))).
  destruct (newSources_sync_tasks D n 1 l w0) as (w' & q & ps & Hrun & Hs1 & Hwq & Hdq & Hsq & Hps & Hq);
    [simpl; lia|done|].
  change (length (promises (initial st))) with 1. fold w0.
  rewrite Hrun. cbn [exec_sync].
  eexists _, q, ps. split; [reflexivity|].
  change (store w0) with st in *.
  split; [split|].
  - done.
  - split; [|done]. apply who_at_who. rewrite who_set_status. by apply who_at_who.
  - eapply Forall2_impl; [exact Hps|]. intros r s [H1 H2]. split; [|done].
    apply who_at_who. rewrite who_set_status. by apply who_at_who.
  - left. by rewrite status_at_set_status_ne.
  - left. by rewrite status_at_set_status_ne by lia.
  - apply calm_set_status; [|done|done].
    pose proof Hrun as Hrun'.
    apply (newSources_calm D (fun r => r ∈ ps)) in Hrun' as (q' & ps' & w1 & Hw' & Himp);
      [|done].
    assert (q' = q) as ->.
    { rewrite Hw' in Hs1. apply status_at_set_status_same in Hs1.
      unfold await in Hs1. by injection Hs1. }
    assert (ps' = ps) as ->.
    { rewrite Hw' in Hsq. rewrite status_at_set_status_ne in Hsq by lia.
      apply status_at_set_status_same in Hsq. by injection Hsq. }
    apply Himp.
    + eapply calm_promises; [|apply (calm_alloc _ (newSources l) Running (initial st))];
        [done|by left|apply calm_initial].
    + intros j r s Hj _ _. by eapply list_elem_of_lookup_2.
Qed.

(** ** Completion of a batch *)

(** Every world a dispatch of [newSources l] by the host can reach: the
    dispatch runs to the first [await]s, and any list of scheduling choices
    can be played from there. *)
Lemma newSources_reachable (D : Deps) n st l chs :
  exists w1 w,
    dispatch D (S (S (S (S n)))) (newSources l) (initial st) = Some w1 /\
    schedule D (S (S (S (S n)))) chs w1 = Some w /\
    shaped D (newSources l) w /\
    originals_registered D w /\
    ((survivors st l = [] /\ calm (fun _ => False) w) \/
     exists q0 ps0,
       batch_run (survivors st l) q0 ps0 w /\ calm (fun r => r ∈ ps0) w).
Proof.
  assert (Hd : exists w1, dispatch D (S (S (S (S n)))) (newSources l) (initial st) = Some w1 /\
             ((survivors st l = [] /\ calm (fun _ => False) w1) \/
              exists q0 ps0, batch_run (survivors st l) q0 ps0 w1 /\
                             calm (fun r => r ∈ ps0) w1)).
  { destruct (survivors st l) as [|s f] eqn:Ef.
    - eexists. split.
      + unfold dispatch, host_script.
        change (run D (S (S (S (S n))))) with (exec_sync D (run D (S (S (S n))))).
        cbn [exec_sync body].
        rewrite newSources_sync_empty by done. reflexivity.
      + left. split; [done|]. apply calm_set_status; [|done|done].
        apply calm_settle.
        eapply calm_promises;
          [|apply (calm_alloc _ (newSources l) Running (initial st))];
          [done|by left|apply calm_initial].
    - destruct (batch_run_initial D n st l) as (w1 & q0 & ps0 & Hd & Hb & Hc);
        [by rewrite Ef|].
      exists w1. split; [done|]. right. exists q0, ps0. by rewrite <- Ef. }
  destruct Hd as (w1 & Hd & Hb).
  pose proof (dispatch_shaped D _ _ _ _ Hd) as Hsh.
  destruct (dispatch_traced D _ _ _ _ Hd) as [Hrc Hor].
  destruct (schedule_total D (newSources l) n chs w1 Hsh) as (w & Hsch & Hsh').
  exists w1, w. split; [done|]. split; [done|]. split; [done|]. split.
  - by destruct (schedule_originals_registered D (newSources l) _ chs w1 w Hsh Hrc Hor Hsch).
  - destruct Hb as [[He Hc]|(q0 & ps0 & Hb & Hc)]; [left|right].
    + split; [done|]. exact (schedule_calm D (newSources l) n _ chs w1 w Hsh Hc Hsch).
    + exists q0, ps0. split.
      * by apply (batch_run_schedule D n _ q0 ps0 chs w1 w) in Hb.
      * exact (schedule_calm D (newSources l) n _ chs w1 w Hsh Hc Hsch).
Qed.

(** When every [loadSourceMap] task of the batch is settled, no task is
    left at the resolver. *)
Lemma calm_settled w ps vs :
  calm (fun r => r ∈ ps) w ->
  Forall2 (fun r v => outcome_at w r = Some (Fulfilled v)) ps vs ->
  calm (fun _ => False) w.
Proof.
  intros [H1 H2] Hvs. split; [|done].
  intros r Hr. pose proof (H1 r Hr) as Hin. destruct Hr as (s & k & Hr).
  apply list_elem_of_lookup in Hin as [j Hj].
  destruct (Forall2_lookup_l _ _ _ _ _ Hvs Hj) as (v & _ & Hv).
  apply outcome_at_status in Hv. congruence.
Qed.

(** C3: the host dispatches [newSources l] on the store [st]; [chs] is any
    schedule and [w] the world it leads to.  Whenever the promise of the
    batch (promise 1) is fulfilled in [w]:
    - either the batch added nothing, or the task dispatched
      [loadSourceMaps] on the sources it added (promise [q0]), which
      dispatched one [loadSourceMap] per added source (promises [ps0]);
      every one of these is fulfilled, so source-map resolution has finished
      for every source of the batch; [q0] fed their flattened results [vs]
      back into [newSources] (promise [r']), and both that recursive call
      and [q0] are fulfilled;
    - no task at all is suspended at a call of the resolver, so no further
      original source can be discovered;
    - however the remaining tasks are scheduled from [w] on, the thunks of
      newSources.js dispatch no action any more and the store stays as it
      is: their registration work is over.
    Moreover, in every world reached, every original source the resolver has
    named for a source is in the registry. *)
Theorem newSources_resolves_after_source_maps (D : Deps) n st l chs :
  exists w1 w,
    dispatch D (S (S (S (S n)))) (newSources l) (initial st) = Some w1 /\
    schedule D (S (S (S (S n)))) chs w1 = Some w /\
    (forall v, outcome_at w 1 = Some (Fulfilled v) ->
       (survivors st l = [] \/
        exists q0 ps0 vs r',
          spawned w 1 (loadSourceMaps (survivors st l)) q0 /\
          Forall2 (fun r s => spawned w q0 (loadSourceMap (Src.id s)) r)
            ps0 (survivors st l) /\
          Forall2 (fun r v => outcome_at w r = Some (Fulfilled v)) ps0 vs /\
          spawned w q0 (newSources (flatten vs)) r' /\
          (exists v', outcome_at w r' = Some (Fulfilled v')) /\
          (exists v0, outcome_at w q0 = Some (Fulfilled v0))) /\
       (forall r, ~ resolving w r) /\
       (forall chs', exists w',
          schedule D (S (S (S (S n)))) chs' w = Some w' /\ silent w w')) /\
    originals_registered D w.
Proof.
  destruct (newSources_reachable D n st l chs) as (w1 & w & Hd & Hsch & Hsh & Hor & Hb).
  exists w1, w. split; [done|]. split; [done|]. split; [|done].
  intros v Hv.
  assert (H : (survivors st l = [] \/
               exists q0 ps0 vs r',
                 spawned w 1 (loadSourceMaps (survivors st l)) q0 /\
                 Forall2 (fun r s => spawned w q0 (loadSourceMap (Src.id s)) r)
                   ps0 (survivors st l) /\
                 Forall2 (fun r v => outcome_at w r = Some (Fulfilled v)) ps0 vs /\
                 spawned w q0 (newSources (flatten vs)) r' /\
                 (exists v', outcome_at w r' = Some (Fulfilled v')) /\
                 (exists v0, outcome_at w q0 = Some (Fulfilled v0))) /\
              calm (fun _ => False) w).
  { destruct Hb as [[He Hc]|(q0 & ps0 & Hb & Hc)]; [by split; [left|]|].
    destruct Hb as [_ Hwq Hwps Hroot Hq].
    destruct Hroot as [Hs|[[e He]|[_ [v0 Hv0]]]].
    { apply outcome_at_status in Hv. congruence. }
    { congruence. }
    destruct Hq as [Hs|[[e He]|(vs & r' & Hps & Hwr & [Hs|[_ Hr']])]].
    { apply outcome_at_status in Hv0. congruence. }
    { congruence. }
    { apply outcome_at_status in Hv0. congruence. }
    split; [|by eapply calm_settled]. right.
    exists q0, ps0, vs, r'. repeat (split; [done|]). by exists v0. }
  destruct H as [H Hc]. split; [exact H|]. split.
  - intros r Hr. by destruct Hc as [H1 _]; apply H1 in Hr.
  - intros chs'.
    destruct (schedule_total D (newSources l) n chs' w Hsh) as (w' & Hsch' & _).
    exists w'. split; [done|].
    exact (schedule_silent D (newSources l) n chs' w w' Hsh Hc Hsch').
Qed.

Lemma newSources_resolves_after_source_maps_witness :
  exists w1 w,
    dispatch Example.deps 4 (newSources [Some Example.G]) (initial Example.empty_state)
      = Some w1 /\
    schedule Example.deps 4
      [Answer 5 (Resolved (Some ["file:///orig.js"]));
       Resume 9; Resume 4; Resume 9; Resume 4; Resume 6; Resume 1] w1 = Some w /\
    (forall v, outcome_at w 1 = Some (Fulfilled v) ->
       (forall r, ~ resolving w r) /\
       (forall chs', exists w', schedule Example.deps 4 chs' w = Some w' /\ silent w w')) /\
    originals_registered Example.deps w.
Proof.
  destruct (newSources_resolves_after_source_maps Example.deps 0 Example.empty_state
              [Some Example.G]
              [Answer 5 (Resolved (Some ["file:///orig.js"]));
               Resume 9; Resume 4; Resume 9; Resume 4; Resume 6; Resume 1])
    as (w1 & w & Hd & Hsch & Hf & Hor).
  exists w1, w. split; [exact Hd|]. split; [exact Hsch|]. split; [|exact Hor].
  intros v Hv. destruct (Hf v Hv) as (_ & Hr & Hs). split; [exact Hr|exact Hs].
Defined.

(** ** What the awaited recursion registers *)

(** C9: the host dispatches [newSources l] on the store [st]; [chs] is any
    schedule and [w] the world reached.  Every way through [loadSourceMap]
    returns [undefined], and every fulfilled promise of a [loadSourceMap]
    task in [w] holds [undefined].  So when the [loadSourceMaps] task of the
    batch (promise [q0], with the promises [ps0] of its [loadSourceMap]
    calls) has passed its [Promise.all] without being rejected, the list it
    has flattened and dispatched [newSources] on holds absent entries only.
    A [newSources] on such a list returns at once, whatever the world: its
    run only settles its promise.  The original sources reach the registry
    elsewhere: a [loadSourceMap] task [p'] suspended at its resolver call in
    [w] answers urls by dispatching [newSources] on the original sources and
    settling in the same stretch, without awaiting that dispatch; the
    ADD_SOURCES is the action of the task so dispatched (promise [q]). *)
Theorem awaited_recursion_registers_nothing (D : Deps) n st l chs :
  exists w1 w,
    dispatch D (S (S (S (S n)))) (newSources l) (initial st) = Some w1 /\
    schedule D (S (S (S (S n)))) chs w1 = Some w /\
    (forall i v, returns (loadSourceMap_body D i) v -> v = VUndefined) /\
    (forall r i v,
       who_at w r = Some (loadSourceMap i) ->
       outcome_at w r = Some (Fulfilled v) -> v = VUndefined) /\
    (survivors st l = [] \/
     exists q0 ps0,
       spawned w 1 (loadSourceMaps (survivors st l)) q0 /\
       Forall2 (fun r s => spawned w q0 (loadSourceMap (Src.id s)) r)
         ps0 (survivors st l) /\
       (status_at w q0 = Some (Waiting (AwaitAll ps0 afterAll)) \/
        (exists e, outcome_at w q0 = Some (Rejected e)) \/
        exists r', spawned w q0 (newSources (replicate (length ps0) None)) r')) /\
    (forall k m p w0,
       run D (S m) p (newSources_body (replicate k None)) w0
         = Some (settle p (Fulfilled VUndefined) w0)) /\
    (forall p' s k urls,
       status_at w p' = Some (Waiting (AwaitOriginalURLs s k)) ->
       exists w' q,
         step D (S (S (S (S n)))) (Answer p' (Resolved (Some urls))) w = Some w' /\
         own p' (new_events w w')
           = [EAnswer p' (Resolved (Some urls));
              EDispatch p'
                (newSources (map (fun u => Some (createOriginalSource D u s)) urls)) q;
              ESettle p' (Fulfilled VUndefined)] /\
         actions_of (own q (new_events w w'))
           = match survivors (store w)
                     (map (fun u => Some (createOriginalSource D u s)) urls) with
             | [] => []
             | f => [ADD_SOURCES f]
             end).
Proof.
  destruct (newSources_reachable D n st l chs) as (w1 & w & Hd & Hsch & Hsh & _ & Hb).
  exists w1, w. split; [done|]. split; [done|].
  split; [apply loadSourceMap_returns_undefined|].
  split; [intros r i v; exact (shaped_loadSourceMap_value D _ w r i v Hsh)|].
  split; [|split].
  - destruct Hb as [[He _]|(q0 & ps0 & Hb & _)]; [by left|right].
    destruct Hb as [_ Hwq Hwps _ Hq]. exists q0, ps0.
    split; [done|]. split; [done|].
    destruct Hq as [Hs|[He|(vs & r' & Hps & Hwr & _)]]; [by left|by right; left|].
    right; right. exists r'.
    by rewrite <- (loadSourceMap_values_undefined D _ w _ q0 ps0 vs Hsh Hwps Hps).
  - intros k m p w0. apply newSources_sync_empty, survivors_absent.
  - intros p' s k urls Hs.
    pose proof (known_wait_resolver D s k (shaped_known D _ w p' _ Hsh Hs)) as ->.
    destruct (loadSourceMap_answer_urls D n p' s urls w (status_at_lt _ _ _ Hs) Hs)
      as (w' & q & Hstep & Ho & Ha & _).
    by exists w', q.
Qed.

Lemma awaited_recursion_registers_nothing_witness :
  exists w1 w,
    dispatch Example.deps 4 (newSources [Some Example.G]) (initial Example.empty_state)
      = Some w1 /\
    schedule Example.deps 4
      [Answer 5 (Resolved (Some ["file:///orig.js"])); Resume 9; Resume 4] w1 = Some w /\
    (forall r i v,
       who_at w r = Some (loadSourceMap i) ->
       outcome_at w r = Some (Fulfilled v) -> v = VUndefined) /\
    (survivors Example.empty_state [Some Example.G] = [] \/
     exists q0 ps0,
       spawned w 1 (loadSourceMaps (survivors Example.empty_state [Some Example.G])) q0 /\
       Forall2 (fun r s => spawned w q0 (loadSourceMap (Src.id s)) r)
         ps0 (survivors Example.empty_state [Some Example.G]) /\
       (status_at w q0 = Some (Waiting (AwaitAll ps0 afterAll)) \/
        (exists e, outcome_at w q0 = Some (Rejected e)) \/
        exists r', spawned w q0 (newSources (replicate (length ps0) None)) r')).
Proof.
  destruct (awaited_recursion_registers_nothing Example.deps 0 Example.empty_state
              [Some Example.G]
              [Answer 5 (Resolved (Some ["file:///orig.js"])); Resume 9; Resume 4])
    as (w1 & w & Hd & Hsch & _ & Hv & Hb & _).
  exists w1, w. split; [exact Hd|]. split; [exact Hsch|]. split; [exact Hv|exact Hb].
Defined.

(** The run of [newSources [G]] on an empty registry, the resolver naming one
    original source for [G]: the promise of the batch is fulfilled, the
    [loadSourceMaps] task (promise 4) has dispatched [loadSourceMap] for [G]
    and then [newSources] on a list of one absent entry, and the two
    ADD_SOURCES of the run are that of the batch and that of the task
    dispatched by [loadSourceMap] (promise 6), which put the original source
    in the registry. *)
Lemma newSources_generated_source_run :
  outcome_at Example.all_settled 1 = Some (Fulfilled VUndefined) /\
  dispatched 4 (trace Example.all_settled) = [loadSourceMap "g"; newSources [None]] /\
  actions_of (own 1 (trace Example.all_settled)) = [ADD_SOURCES [Example.G]] /\
  actions_of (own 6 (trace Example.all_settled))
    = [ADD_SOURCES [createOriginalSource Example.deps "file:///orig.js" Example.G]] /\
  actions_of (trace Example.all_settled)
    = [ADD_SOURCES [Example.G];
       ADD_SOURCES [createOriginalSource Example.deps "file:///orig.js" Example.G]] /\
  getSource (store Example.all_settled)
    (generatedToOriginalId Example.deps "g" "file:///orig.js")
    = Some (createOriginalSource Example.deps "file:///orig.js" Example.G).
Proof. repeat split; vm_compute; reflexivity. Qed.

(** * Further properties of the thunks *)

(** ** Identifiers the registry does not hold *)

(** X1: [loadSourceMap], [checkSelectedSource] and [checkPendingBreakpoints]
    called with an id the registry does not hold fail on the method call on
    [undefined] ([.toJS()], [.get("url")]): the promise is rejected with a
    TypeError, and that settlement is the only event; the resolver is not
    called, nothing is dispatched, the store and the promise table keep
    their size and content. *)
Theorem unregistered_id_is_a_type_error (D : Deps) n p i w :
  getSource (store w) i = None ->
  run D (S n) p (loadSourceMap_body D i) w
    = Some (settle p (Rejected (TypeError "toJS")) w) /\
  run D (S n) p (checkSelectedSource_body D i) w
    = Some (settle p (Rejected (TypeError "toJS")) w) /\
  run D (S n) p (checkPendingBreakpoints_body i) w
    = Some (settle p (Rejected (TypeError "get")) w) /\
  (forall e,
     new_events w (settle p (Rejected e) w) = [ESettle p (Rejected e)] /\
     store (settle p (Rejected e) w) = store w /\
     length (promises (settle p (Rejected e) w)) = length (promises w)).
Proof.
  intros Hi. split; [|split; [|split]].
  - rewrite loadSourceMap_sync. by rewrite Hi.
  - unfold checkSelectedSource_body. cbn [run exec_sync]. by rewrite Hi.
  - unfold checkPendingBreakpoints_body. cbn [run exec_sync]. by rewrite Hi.
  - intros e. split; [by apply new_events_app|]. split; [done|].
    simpl. by rewrite length_alter.
Qed.

Lemma unregistered_id_is_a_type_error_witness :
  run Example.deps 1 1 (loadSourceMap_body Example.deps "nowhere")
    (Example.started (loadSourceMap "nowhere") Example.pending_state)
  = Some (settle 1 (Rejected (TypeError "toJS"))
            (Example.started (loadSourceMap "nowhere") Example.pending_state)).
Proof.
  apply (unregistered_id_is_a_type_error Example.deps 0 1 "nowhere"
           (Example.started (loadSourceMap "nowhere") Example.pending_state)).
  reflexivity.
Defined.

(** ** Answers of the resolver other than a list of urls *)

(** The world after the resolver has answered [null] or has thrown. *)
Lemma loadSourceMap_answer_none (D : Deps) n p s r w :
  status_at w p = Some (Waiting (AwaitOriginalURLs s (tryOriginalURLs D s))) ->
  (forall urls, r <> Resolved (Some urls)) ->
  exists w0,
    step D (S n) (Answer p r) w
      = Some (settle p (Fulfilled VUndefined)
                (emit (EAction p (UPDATE_SOURCE (clearSourceMapURL s)))
                   (apply_action (UPDATE_SOURCE (clearSourceMapURL s)) w0))) /\
    store w0 = store w /\
    promises w0 = promises (set_status p Running w) /\
    trace w0 = trace w ++ EAnswer p r ::
                 match r with Threw e => [ELog p e] | Resolved _ => [] end.
Proof.
  intros Hs Hr. unfold step. rewrite Hs.
  change (run D (S n)) with (exec_sync D (run D n)).
  destruct r as [[urls|]|e]; [by destruct (Hr urls)| |];
    cbn [tryOriginalURLs withOriginalURLs exec_sync];
    (eexists; split; [reflexivity|]); simpl; by rewrite <- ?app_assoc.
Qed.

(** X2: for a [loadSourceMap] task suspended at its resolver call, a resolver
    that answers [null] and a resolver that throws lead to the same store
    and the same promise table: in both cases one UPDATE_SOURCE with the
    cleared record is dispatched and the promise is fulfilled with
    [undefined].  The two runs differ by the log of the error only. *)
Theorem resolver_null_is_resolver_failure (D : Deps) n p s e w :
  status_at w p = Some (Waiting (AwaitOriginalURLs s (tryOriginalURLs D s))) ->
  exists w2 w3,
    step D (S n) (Answer p (Resolved None)) w = Some w2 /\
    step D (S n) (Answer p (Threw e)) w = Some w3 /\
    new_events w w2
      = [EAnswer p (Resolved None);
         EAction p (UPDATE_SOURCE (clearSourceMapURL s));
         ESettle p (Fulfilled VUndefined)] /\
    new_events w w3
      = [EAnswer p (Threw e); ELog p e;
         EAction p (UPDATE_SOURCE (clearSourceMapURL s));
         ESettle p (Fulfilled VUndefined)] /\
    store w2 = store w3 /\
    store w2 = reducer (UPDATE_SOURCE (clearSourceMapURL s)) (store w) /\
    promises w2 = promises w3 /\
    outcome_at w2 p = Some (Fulfilled VUndefined).
Proof.
  intros Hs. pose proof (status_at_lt _ _ _ Hs) as Hp.
  destruct (loadSourceMap_answer_none D n p s (Resolved None) w Hs)
    as (wa & Ha & Hsa & Hpa & Hta); [done|].
  destruct (loadSourceMap_answer_none D n p s (Threw e) w Hs)
    as (wb & Hb & Hsb & Hpb & Htb); [done|].
  eexists _, _. split; [exact Ha|]. split; [exact Hb|].
  split; [apply new_events_app; simpl; rewrite Hta; by rewrite <- !app_assoc|].
  split; [apply new_events_app; simpl; rewrite Htb; by rewrite <- !app_assoc|].
  split; [simpl; by rewrite Hsa, Hsb|].
  split; [simpl; by rewrite Hsa|].
  split; [simpl; by rewrite Hpa, Hpb|].
  apply outcome_at_settle. simpl. rewrite Hpa. simpl. by rewrite length_alter.
Qed.

Lemma resolver_null_is_resolver_failure_witness :
  exists w2 w3,
    step Example.deps 1 (Answer 5 (Resolved None)) Example.at_resolver = Some w2 /\
    step Example.deps 1 (Answer 5 (Threw (ExtError 3))) Example.at_resolver = Some w3 /\
    store w2 = store w3 /\ promises w2 = promises w3.
Proof.
  destruct (resolver_null_is_resolver_failure Example.deps 0 5 Example.G (ExtError 3)
              Example.at_resolver)
    as (w2 & w3 & H2 & H3 & _ & _ & Hs & _ & Hp & _); [vm_compute; reflexivity|].
  exists w2, w3. split; [exact H2|]. split; [exact H3|]. split; [exact Hs|exact Hp].
Defined.

(** X4: once the resolver has answered [null] or has thrown for the source
    [s], the registry holds under the id of [s] the record of [s] with
    [sourceMapURL] the empty string, every other record is as before, and a
    later [loadSourceMap] for that id returns at once: it does not call the
    resolver again and dispatches nothing. *)
Theorem cleared_source_map_is_not_resolved_again (D : Deps) n m p p2 s r w :
  status_at w p = Some (Waiting (AwaitOriginalURLs s (tryOriginalURLs D s))) ->
  (forall urls, r <> Resolved (Some urls)) ->
  exists w2,
    step D (S n) (Answer p r) w = Some w2 /\
    getSource (store w2) (Src.id s) = Some (clearSourceMapURL s) /\
    (forall j, j <> Src.id s -> getSource (store w2) j = getSource (store w) j) /\
    run D (S m) p2 (loadSourceMap_body D (Src.id s)) w2
      = Some (settle p2 (Fulfilled VUndefined) w2).
Proof.
  intros Hs Hr.
  destruct (loadSourceMap_answer_none D n p s r w Hs Hr) as (w0 & Hstep & Hst & _ & _).
  eexists. split; [exact Hstep|].
  assert (Hg : forall w', store w' = reducer (UPDATE_SOURCE (clearSourceMapURL s)) (store w) ->
               getSource (store w') (Src.id s) = Some (clearSourceMapURL s)).
  { intros w' ->. unfold getSource, updateSource. simpl. apply lookup_insert_eq. }
  split; [apply Hg; simpl; by rewrite Hst|]. split.
  - intros j Hj. unfold getSource. simpl. rewrite Hst. unfold updateSource. simpl.
    by rewrite lookup_insert_ne.
  - rewrite loadSourceMap_sync. rewrite Hg by (simpl; by rewrite Hst).
    simpl. by rewrite orb_true_r.
Qed.

Lemma cleared_source_map_is_not_resolved_again_witness :
  exists w2,
    step Example.deps 1 (Answer 5 (Threw (ExtError 3))) Example.at_resolver = Some w2 /\
    run Example.deps 1 7 (loadSourceMap_body Example.deps "g") w2
      = Some (settle 7 (Fulfilled VUndefined) w2).
Proof.
  destruct (cleared_source_map_is_not_resolved_again Example.deps 0 0 5 7 Example.G
              (Threw (ExtError 3)) Example.at_resolver)
    as (w2 & H1 & _ & _ & H2); [vm_compute; reflexivity|done|].
  exists w2. split; [exact H1|exact H2].
Defined.

(** X3: when the resolver answers with an empty list of urls, the task does
    not take the fallback of a missing source map: an empty array is not
    falsy.  It dispatches [newSources] on the empty list, which returns at
    once, and fulfils its promise; no action is dispatched, so the store is
    unchanged and the source keeps its [sourceMapURL]: a later
    [loadSourceMap] for it calls the resolver again. *)
Theorem resolver_empty_list_keeps_source_map (D : Deps) n p s w :
  status_at w p = Some (Waiting (AwaitOriginalURLs s (tryOriginalURLs D s))) ->
  exists w',
    step D (S (S n)) (Answer p (Resolved (Some []))) w = Some w' /\
    new_events w w'
      = [EAnswer p (Resolved (Some []));
         EDispatch p (newSources []) (length (promises w));
         ESettle (length (promises w)) (Fulfilled VUndefined);
         ESettle p (Fulfilled VUndefined)] /\
    store w' = store w /\
    (forall m p2 i,
       getSource (store w) i = Some s ->
       isGeneratedId D (Src.id s) = true ->
       truthy (Src.sourceMapURL s) = true ->
       run D (S m) p2 (loadSourceMap_body D i) w'
         = Some (emit (EGetOriginalURLs p2 s)
                   (set_status p2
                      (Waiting (AwaitOriginalURLs s (tryOriginalURLs D s))) w'))).
Proof.
  intros Hs. unfold step. rewrite Hs.
  change (run D (S (S n))) with (exec_sync D (run D (S n))).
  cbn [tryOriginalURLs withOriginalURLs map exec_sync body].
  rewrite newSources_sync_empty by done. cbn [exec_sync].
  eexists. split; [reflexivity|].
  assert (Hl : length (promises (emit (EAnswer p (Resolved (Some [])))
                                   (set_status p Running w))) = length (promises w))
    by (simpl; by rewrite length_alter).
  rewrite Hl. split; [apply new_events_app; simpl; by rewrite <- !app_assoc|].
  split; [done|].
  intros m p2 i Hi Hg Ht. rewrite loadSourceMap_sync.
  change (store (settle p _ _)) with (store w). by rewrite Hi, Hg, Ht.
Qed.

Lemma resolver_empty_list_keeps_source_map_witness :
  exists w',
    step Example.deps 2 (Answer 5 (Resolved (Some []))) Example.at_resolver = Some w' /\
    store w' = store Example.at_resolver.
Proof.
  destruct (resolver_empty_list_keeps_source_map Example.deps 0 5 Example.G
              Example.at_resolver) as (w' & H1 & _ & H2 & _); [vm_compute; reflexivity|].
  exists w'. split; [exact H1|exact H2].
Defined.

(** ** Registering again what the registry holds *)

Lemma survivors_registered st l :
  (forall s, Some s ∈ l -> registered st (Src.id s)) -> survivors st l = [].
Proof.
  induction l as [|[s|] l IH]; intros H; [done| |].
  - unfold survivors. simpl. fold (survivors st l).
    destruct (H s) as [s0 Hs0]; [by apply elem_of_cons; left|].
    rewrite decide_False by congruence.
    apply IH. intros s' Hs'. apply H. by apply elem_of_cons; right.
  - apply IH. intros s' Hs'. apply H. by apply elem_of_cons; right.
Qed.

(** The answer of the resolver with urls whose original sources the registry
    holds already. *)
Lemma loadSourceMap_answer_known (D : Deps) n p s urls w :
  status_at w p = Some (Waiting (AwaitOriginalURLs s (tryOriginalURLs D s))) ->
  (forall u, u ∈ urls -> registered (store w) (generatedToOriginalId D (Src.id s) u)) ->
  exists w',
    step D (S (S n)) (Answer p (Resolved (Some urls))) w = Some w' /\
    new_events w w'
      = [EAnswer p (Resolved (Some urls));
         EDispatch p (newSources (map (fun u => Some (createOriginalSource D u s)) urls))
           (length (promises w));
         ESettle (length (promises w)) (Fulfilled VUndefined);
         ESettle p (Fulfilled VUndefined)] /\
    store w' = store w.
Proof.
  intros Hs Hreg. unfold step. rewrite Hs.
  change (run D (S (S n))) with (exec_sync D (run D (S n))).
  cbn [tryOriginalURLs withOriginalURLs exec_sync body].
  rewrite newSources_sync_empty.
  2: { apply survivors_registered. intros s' Hs'.
       apply list_elem_of_fmap in Hs' as (u & [= ->] & Hu). by apply Hreg. }
  cbn [exec_sync]. eexists. split; [reflexivity|].
  assert (Hl : length (promises (emit (EAnswer p (Resolved (Some urls)))
                                   (set_status p Running w))) = length (promises w))
    by (simpl; by rewrite length_alter).
  rewrite Hl. split; [apply new_events_app; simpl; by rewrite <- !app_assoc|done].
Qed.

(** X5: resolving a source to the same urls a second time registers nothing.
    After a [loadSourceMap] task for [s] has been answered with [urls], take
    any world [w2] whose registry holds at least the ids of the registry
    then, and a [loadSourceMap] task [p'] suspended in it at the resolver
    call for [s]: the same answer makes it dispatch [newSources] on the same
    original sources, whose ids are those derived before, so that call
    returns at once; no action is dispatched and the store is unchanged. *)
Theorem resolving_again_registers_nothing (D : Deps) n p s urls w :
  status_at w p = Some (Waiting (AwaitOriginalURLs s (tryOriginalURLs D s))) ->
  exists w1,
    step D (S (S (S (S n)))) (Answer p (Resolved (Some urls))) w = Some w1 /\
    forall w2 p',
      (forall i, registered (store w1) i -> registered (store w2) i) ->
      status_at w2 p' = Some (Waiting (AwaitOriginalURLs s (tryOriginalURLs D s))) ->
      exists w3,
        step D (S (S (S (S n)))) (Answer p' (Resolved (Some urls))) w2 = Some w3 /\
        actions_of (new_events w2 w3) = [] /\
        dispatches_of (new_events w2 w3)
          = [newSources (map (fun u => Some (createOriginalSource D u s)) urls)] /\
        store w3 = store w2.
Proof.
  intros Hs.
  destruct (loadSourceMap_answer_urls D n p s urls w (status_at_lt _ _ _ Hs) Hs)
    as (w1 & q & Hstep & _).
  exists w1. split; [exact Hstep|]. intros w2 p' Hsub Hs2.
  assert (Hreg : forall u, u ∈ urls ->
            registered (store w2) (generatedToOriginalId D (Src.id s) u)).
  { intros u Hu. apply Hsub. unfold step in Hstep. rewrite Hs in Hstep.
    by eapply answer_registers. }
  destruct (loadSourceMap_answer_known D (S (S n)) p' s urls w2 Hs2 Hreg)
    as (w3 & Hstep3 & Hev & Hst).
  exists w3. split; [exact Hstep3|]. rewrite Hev. by split; [|split].
Qed.

Lemma resolving_again_registers_nothing_witness :
  exists w1 w3,
    step Example.deps 4 (Answer 7 (Resolved (Some ["file:///orig.js"])))
      Example.at_resolver_twice = Some w1 /\
    status_at w1 8
      = Some (Waiting (AwaitOriginalURLs Example.G (tryOriginalURLs Example.deps Example.G))) /\
    step Example.deps 4 (Answer 8 (Resolved (Some ["file:///orig.js"]))) w1 = Some w3 /\
    actions_of (new_events w1 w3) = [] /\
    dispatches_of (new_events w1 w3)
      = [newSources
           (map (fun u => Some (createOriginalSource Example.deps u Example.G))
              ["file:///orig.js"])] /\
    store w3 = store w1.
Proof.
  destruct (resolving_again_registers_nothing Example.deps 0 7 Example.G
              ["file:///orig.js"] Example.at_resolver_twice)
    as (w1 & H1 & H2); [vm_compute; reflexivity|].
  assert (Hs : status_at w1 8
               = Some (Waiting (AwaitOriginalURLs Example.G
                                  (tryOriginalURLs Example.deps Example.G)))).
  { pose proof H1 as H1'. vm_compute in H1'. injection H1' as <-.
    vm_compute. reflexivity. }
  destruct (H2 w1 8 (fun i Hi => Hi) Hs) as (w3 & H3 & Ha & Hd & Hst).
  exists w1, w3. split; [exact H1|]. split; [exact Hs|]. split; [exact H3|].
  split; [exact Ha|]. split; [exact Hd|exact Hst].
Defined.

(** X6: registering twice is registering once.  After the first stretch of
    [newSources l] (up to its first [await]), take any world [w2] whose
    registry holds at least the ids of the registry then, and any list [l']
    whose present entries carry ids of present entries of [l]: [newSources
    l'] returns at once in [w2]; it dispatches nothing and only settles its
    promise. *)
Theorem registering_again_is_a_no_op (D : Deps) n p l w :
  p < length (promises w) ->
  exists w1,
    run D (S (S (S n))) p (newSources_body l) w = Some w1 /\
    forall l' w2 p2 m,
      (forall s', Some s' ∈ l' -> exists s, Some s ∈ l /\ Src.id s = Src.id s') ->
      (forall i, registered (store w1) i -> registered (store w2) i) ->
      run D (S m) p2 (newSources_body l') w2
        = Some (settle p2 (Fulfilled VUndefined) w2).
Proof.
  intros Hp.
  destruct (total_newSources D n l _ eq_refl p w Hp) as [w1 Hrun].
  exists w1. split; [exact Hrun|]. intros l' w2 p2 m Hl Hsub.
  apply newSources_sync_empty, survivors_registered.
  intros s' Hs'. destruct (Hl s' Hs') as (s & Hs & <-).
  apply Hsub. by eapply newSources_registers.
Qed.

Lemma registering_again_is_a_no_op_witness :
  exists w1,
    run Example.deps 3 1 (newSources_body [Some Example.A; None; Some Example.B])
      (Example.started (newSources [Some Example.A; None; Some Example.B])
         Example.empty_state) = Some w1 /\
    run Example.deps 1 2 (newSources_body [Some Example.B; Some Example.A]) w1
      = Some (settle 2 (Fulfilled VUndefined) w1).
Proof.
  destruct (registering_again_is_a_no_op Example.deps 0 1
              [Some Example.A; None; Some Example.B]
              (Example.started (newSources [Some Example.A; None; Some Example.B])
                 Example.empty_state)) as (w1 & H1 & H2); [simpl; lia|].
  exists w1. split; [exact H1|]. apply H2; [|done].
  intros s' Hs'. exists s'. split; [|done].
  apply elem_of_cons in Hs' as [->|Hs'];
    [by apply elem_of_cons; right; apply elem_of_cons; right; apply elem_of_cons; left|].
  apply list_elem_of_singleton in Hs' as ->. by apply elem_of_cons; left.
Defined.

(** ** The first stretch of [newSources] *)

(** After its ADD_SOURCES, the first stretch of [newSources] and of the
    thunks it starts dispatches no action. *)
Lemma newSources_sync_silent (D : Deps) n p l w w' :
  run D (S (S (S n))) p (newSources_body l) w = Some w' ->
  survivors (store w) l <> [] ->
  silent (emit (EAction p (ADD_SOURCES (survivors (store w) l)))
            (apply_action (ADD_SOURCES (survivors (store w) l)) w)) w'.
Proof.
  intros H Hf. unfold newSources_body in H.
  change (run D (S (S (S n)))) with (exec_sync D (run D (S (S n)))) in H.
  rewrite filterSources_run in H.
  set (f := survivors (store w) l) in *.
  destruct f as [|s f'] eqn:Ef; [done|]. rewrite <- Ef in *. clear Hf.
  cbn [exec_sync] in H.
  apply (checkEach_calm D (fun _ => True)) in H as (wb & H & _ & Hs1 & _).
  cbn [exec_sync body] in H.
  set (q := length (promises wb)) in *.
  set (wb0 := emit (EDispatch p (loadSourceMaps f) q) (alloc (loadSourceMaps f) Running wb))
    in *.
  destruct (run D (S (S n)) q (loadSourceMaps_body f) wb0) as [wc|] eqn:E; [|done].
  unfold loadSourceMaps_body in E.
  change (run D (S (S n))) with (exec_sync D (run D (S n))) in E.
  apply (dispatchLoadSourceMap_calm D (fun _ => True)) in E
    as (w1 & ps & Hk & Hs2 & _).
  cbn [exec_sync] in Hk. injection Hk as <-.
  cbn [exec_sync await] in H. injection H as <-.
  eapply silent_trans; [exact Hs1|].
  eapply silent_trans; [apply (silent_alloc (loadSourceMaps f) Running)|].
  eapply silent_trans; [by apply (silent_emit (EDispatch p (loadSourceMaps f) q))|].
  eapply silent_trans; [exact Hs2|].
  eapply silent_trans; apply silent_set_status.
Qed.

(** X7: the first stretch of [newSources] when something survives the
    filter ([f] is the filtered list), seen from the task itself.  Before
    its first [await] the task dispatches ADD_SOURCES [f] first and no other
    action, then for each source of [f] in order [checkSelectedSource] and
    [checkPendingBreakpoints] on its id, then [loadSourceMaps f], and it
    awaits the promise [q] of that last dispatch; when [q] is fulfilled it
    only returns. *)
Theorem newSources_first_stretch (D : Deps) n p l w :
  p < length (promises w) ->
  survivors (store w) l <> [] ->
  exists w' q mine,
    run D (S (S (S n))) p (newSources_body l) w = Some w' /\
    own p (new_events w w') = EAction p (ADD_SOURCES (survivors (store w) l)) :: mine /\
    actions_of mine = [] /\
    dispatches_of mine
      = flat_map (fun s => [checkSelectedSource (Src.id s);
                            checkPendingBreakpoints (Src.id s)]) (survivors (store w) l)
        ++ [loadSourceMaps (survivors (store w) l)] /\
    status_at w' p = Some (Waiting (await q (fun _ => Return VUndefined))) /\
    who_at w' q = Some (loadSourceMaps (survivors (store w) l)).
Proof.
  intros Hp Hf.
  destruct (newSources_sync_add D n p l w Hp Hf)
    as (w' & q & mine & Hrun & Ho & Ha & Hd & Hs & Hwho & _).
  exists w', q, mine. split; [exact Hrun|]. split; [exact Ho|]. split; [exact Ha|].
  split; [exact Hd|]. split; [exact Hs|by apply who_at_who].
Qed.

Lemma newSources_first_stretch_witness :
  exists w' q mine,
    run Example.deps 3 1 (newSources_body [Some Example.A; None; Some Example.B])
      (Example.started (newSources [Some Example.A; None; Some Example.B])
         Example.empty_state) = Some w' /\
    own 1 (new_events
             (Example.started (newSources [Some Example.A; None; Some Example.B])
                Example.empty_state) w')
      = EAction 1 (ADD_SOURCES [Example.A; Example.B]) :: mine /\
    actions_of mine = [] /\
    dispatches_of mine
      = [checkSelectedSource "a"; checkPendingBreakpoints "a";
         checkSelectedSource "b"; checkPendingBreakpoints "b";
         loadSourceMaps [Example.A; Example.B]] /\
    status_at w' 1 = Some (Waiting (await q (fun _ => Return VUndefined))) /\
    who_at w' q = Some (loadSourceMaps [Example.A; Example.B]).
Proof.
  apply (newSources_first_stretch Example.deps 0 1 [Some Example.A; None; Some Example.B]
           (Example.started (newSources [Some Example.A; None; Some Example.B])
              Example.empty_state)); [simpl; lia|done].
Defined.

Lemma foldl_updateSource_lookup_id l : forall (m : gmap string Source) i s,
  foldl updateSource m l !! i = Some s ->
  (s ∈ l /\ Src.id s = i) \/ m !! i = Some s.
Proof.
  induction l as [|s0 l IH]; intros m i s H; [by right|].
  simpl in H. apply IH in H as [[H Hi]|H]; [left; split; [by apply elem_of_cons; right|done]|].
  unfold updateSource in H. destruct (decide (Src.id s0 = i)) as [<-|Hne].
  - rewrite lookup_insert_eq in H. injection H as <-. left.
    split; [by apply elem_of_cons; left|done].
  - rewrite lookup_insert_ne in H by done. by right.
Qed.

Lemma survivors_unregistered st l s :
  s ∈ survivors st l -> Some s ∈ l /\ getSource st (Src.id s) = None.
Proof.
  intros H. apply list_elem_of_omap in H as ([c|] & Hc & H); [|done].
  destruct (decide (getSource st (Src.id c) = None)) as [Hn|]; [|done].
  by injection H as ->.
Qed.

(** ** A failing text load or synchronisation *)

(** A settled task performs nothing more. *)
Lemma step_settled_own (D : Deps) fuel ch w w' p o :
  outcome_at w p = Some o ->
  step D fuel ch w = Some w' ->
  own p (trace w') = own p (trace w) /\ outcome_at w' p = Some o.
Proof.
  intros Ho Hstep. split; [|by eapply step_outcome].
  destruct (decide (p = subject ch)) as [->|Hne].
  - apply outcome_at_status in Ho.
    destruct ch as [q o'|q res|q]; unfold step in Hstep; cbn [subject] in Ho;
      rewrite Ho in Hstep; by injection Hstep as <-.
  - pose proof (step_frame D _ _ _ _ Hstep) as Hf.
    destruct (frame_progress p _ w w' Hf) as ((evs & Ht & Hown) & _);
      [by apply outcome_at_status, status_at_lt in Ho|done|].
    by rewrite Ht, own_app, Hown, app_nil_r.
Qed.

Lemma schedule_settled_own (D : Deps) fuel chs p o : forall w w',
  outcome_at w p = Some o ->
  schedule D fuel chs w = Some w' ->
  own p (trace w') = own p (trace w) /\ outcome_at w' p = Some o.
Proof.
  induction chs as [|ch chs IH]; intros w w' Ho; cbn [schedule].
  - by intros [= <-].
  - destruct (step D fuel ch w) as [w1|] eqn:Hstep; [|done].
    destruct (step_settled_own D fuel ch w w1 p o Ho Hstep) as [Hown Ho1].
    intros Hsch. destruct (IH w1 w' Ho1 Hsch) as [Hown' Ho'].
    split; [congruence|done].
Qed.

(** X11: [checkPendingBreakpoints i] dispatched by the host for a registered
    source, after any schedule [chs].  When the task is suspended at an
    [await] on a pending promise [q] (the text load or a synchronisation)
    and that promise is rejected with [e], the resumed task is rejected with
    [e] itself: there is no [try] around the [await]s of the loop.  It
    dispatches nothing beyond what it had dispatched, whatever is scheduled
    afterwards ([chs']): the remaining pending breakpoints are not
    synchronised. *)
Theorem checkPendingBreakpoints_stops_at_a_failure (D : Deps) n i s st chs q e chs' :
  getSource st i = Some s ->
  exists w1 w,
    dispatch D (S (S n)) (checkPendingBreakpoints i) (initial st) = Some w1 /\
    schedule D (S n) chs w1 = Some w /\
    (forall k,
       status_at w 1 = Some (Waiting (Await q k)) ->
       status_at w q = Some Pending ->
       exists w',
         schedule D (S n) (Settle q (Rejected e) :: Resume 1 :: chs') w = Some w' /\
         outcome_at w' 1 = Some (Rejected e) /\
         dispatched 1 (trace w') = dispatched 1 (trace w)).
Proof.
  intros Hs.
  destruct (breakpoint_run_initial D n i s st Hs) as (w1 & Hd & Hinv & _).
  destruct (breakpoint_run_schedule D n i _ chs w1 Hinv) as (w & Hsch & Hinv').
  exists w1, w. split; [exact Hd|]. split; [exact Hsch|].
  intros k Hk Hq.
  pose proof Hinv' as [_ _ _ _ Htask].
  destruct Htask as [(_ & o & Ho)|(q0 & rest & Hst & Hint & Hq0 & _)]; [congruence|].
  rewrite Hk in Hst. unfold await in Hst. injection Hst as -> ->.
  assert (H1q : 1 <> q0) by lia.
  set (wa := settle q0 (Rejected e) w).
  set (wb := settle 1 (Rejected e) (set_status 1 Running wa)).
  assert (Hinva : breakpoint_run i (breakpointIntent st i s) wa)
    by (by apply bp_settle_imported).
  assert (Hla : length (promises wa) = length (promises w))
    by (simpl; by rewrite length_alter).
  assert (Hinvb : breakpoint_run i (breakpointIntent st i s) wb).
  { apply bp_task_settles; [done| |lia].
    change (trace wa) with (trace w ++ [ESettle q0 (Rejected e)]).
    rewrite dispatched_snoc_other by done. rewrite Hint. by apply prefix_app_r. }
  destruct (breakpoint_run_schedule D n i _ chs' wb Hinvb) as (w' & Hsch' & _).
  assert (Hob : outcome_at wb 1 = Some (Rejected e)).
  { apply outcome_at_settle. simpl. rewrite !length_alter. lia. }
  destruct (schedule_settled_own D _ chs' 1 _ wb w' Hob Hsch') as [Hown Ho'].
  exists w'. split; [|split; [exact Ho'|]].
  - assert (Hstep1 : step D (S n) (Settle q0 (Rejected e)) w = Some wa)
      by (unfold step; by rewrite Hq).
    assert (Hstep2 : step D (S n) (Resume 1) wa = Some wb).
    { unfold step.
      assert (status_at wa 1
              = Some (Waiting (Await q0 (fun o =>
                   match o with
                   | Fulfilled _ => syncPendingBreakpoints i rest
                   | Rejected e0 => Throw e0
                   end)))) as ->
        by (unfold wa; by rewrite status_at_settle_ne).
      assert (outcome_at wa q0 = Some (Rejected e)) as ->
        by (apply outcome_at_settle; lia).
      done. }
    cbn [schedule]. by rewrite Hstep1, Hstep2.
  - unfold dispatched. rewrite Hown.
    change (trace wb) with ((trace w ++ [ESettle q0 (Rejected e)])
                              ++ [ESettle 1 (Rejected e)]).
    fold (dispatched 1 ((trace w ++ [ESettle q0 (Rejected e)])
                          ++ [ESettle 1 (Rejected e)])).
    by rewrite !dispatched_snoc_other.
Qed.

Lemma checkPendingBreakpoints_stops_at_a_failure_witness :
  exists w1 w w',
    dispatch Example.deps 2 (checkPendingBreakpoints "foo") (initial Example.pending_state)
      = Some w1 /\
    schedule Example.deps 1 [Settle 2 (Fulfilled VUndefined); Resume 1] w1 = Some w /\
    schedule Example.deps 1
      (Settle 3 (Rejected (ExtError 9)) :: Resume 1 :: [Resume 0]) w = Some w' /\
    outcome_at w' 1 = Some (Rejected (ExtError 9)) /\
    dispatched 1 (trace w') = dispatched 1 (trace w).
Proof.
  destruct (checkPendingBreakpoints_stops_at_a_failure Example.deps 0 "foo" Example.Foo
              Example.pending_state [Settle 2 (Fulfilled VUndefined); Resume 1] 3
              (ExtError 9) [Resume 0]) as (w1 & w & Hd & Hsch & H); [reflexivity|].
  pose proof Hd as Hd'. vm_compute in Hd'. injection Hd' as <-.
  pose proof Hsch as Hsch'. vm_compute in Hsch'. injection Hsch' as <-.
  edestruct H as (w' & H1 & H2 & H3); [vm_compute; reflexivity|vm_compute; reflexivity|].
  eexists _, _, w'. split; [exact Hd|]. split; [exact Hsch|].
  split; [exact H1|]. split; [exact H2|exact H3].
Defined.

(** ** A batch is never rejected *)

Lemma all_outcome_at_rejected w ps : forall e,
  all_outcome_at w ps = Some (AllRejected e) ->
  exists r, r ∈ ps /\ outcome_at w r = Some (Rejected e).
Proof.
  induction ps as [|r ps IH]; intros e; cbn [all_outcome_at]; [done|].
  destruct (outcome_at w r) as [[v|e0]|] eqn:Hr.
  - destruct (all_outcome_at w ps) as [[vs|e1]|]; [done| |done].
    intros [= <-]. destruct (IH e1 eq_refl) as (r' & Hin & Hr').
    exists r'. split; [by apply elem_of_cons; right|done].
  - intros [= <-]. exists r. split; [by apply elem_of_cons; left|done].
  - destruct (all_outcome_at w ps) as [[vs|e1]|]; [done| |done].
    intros [= <-]. destruct (IH e1 eq_refl) as (r' & Hin & Hr').
    exists r'. split; [by apply elem_of_cons; right|done].
Qed.

(** The answer of the resolver fulfils the [loadSourceMap] task. *)
Lemma loadSourceMap_answer_fulfils (D : Deps) n p s r w w' :
  status_at w p = Some (Waiting (AwaitOriginalURLs s (tryOriginalURLs D s))) ->
  step D (S (S (S (S n)))) (Answer p r) w = Some w' ->
  outcome_at w' p = Some (Fulfilled VUndefined).
Proof.
  intros Hs Hstep. pose proof (status_at_lt _ _ _ Hs) as Hp.
  destruct r as [[urls|]|e].
  - destruct (loadSourceMap_answer_urls D n p s urls w Hp Hs) as (w2 & q & H & _ & _ & Ho & _).
    congruence.
  - destruct (loadSourceMap_answer_none D (S (S (S n))) p s (Resolved None) w Hs)
      as (w0 & H & _ & Hp0 & _); [done|].
    rewrite H in Hstep. injection Hstep as <-.
    apply outcome_at_settle. simpl. rewrite Hp0. simpl. by rewrite length_alter.
  - destruct (loadSourceMap_answer_none D (S (S (S n))) p s (Threw e) w Hs)
      as (w0 & H & _ & Hp0 & _); [done|].
    rewrite H in Hstep. injection Hstep as <-.
    apply outcome_at_settle. simpl. rewrite Hp0. simpl. by rewrite length_alter.
Qed.

Section Sound.
Context (D : Deps) (root : thunk) (P : promise -> Prop) (n : nat).

(** The world after a [loadSourceMaps] task has passed its [Promise.all]. *)
Lemma resume_all_explicit p ps vs w :
  shaped D root w -> calm P w ->
  status_at w p = Some (Waiting (AwaitAll ps afterAll)) ->
  all_outcome_at w ps = Some (AllFulfilled vs) ->
  run D (S (S (S (S n)))) p (afterAll (AllFulfilled vs)) (set_status p Running w)
  = Some (set_status p
            (Waiting (await (length (promises (set_status p Running w)))
                        (fun _ => Return VUndefined)))
            (settle (length (promises (set_status p Running w))) (Fulfilled VUndefined)
               (emit (EDispatch p (newSources (replicate (length vs) None))
                        (length (promises (set_status p Running w))))
                  (alloc (newSources (replicate (length vs) None)) Running
                     (set_status p Running w))))).
Proof.
  intros Hsh Hc Hs Ho.
  change (run D (S (S (S (S n))))) with (exec_sync D (run D (S (S (S n))))).
  cbn [afterAll exec_sync body].
  assert (Hflat : flatten vs = replicate (length vs) None).
  { apply flatten_undefined. eapply loadSourceMap_all_undefined; [exact Hsh| |].
    - destruct Hc as [_ H2]. exact (H2 p ps afterAll Hs).
    - by apply all_outcome_at_fulfilled. }
  rewrite Hflat.
  rewrite newSources_sync_empty by apply survivors_absent.
  done.
Qed.

Lemma batch_sound_step q0 ps0 ch w w' :
  shaped D root w -> calm P w -> batch_sound q0 ps0 w ->
  step D (S (S (S (S n)))) ch w = Some w' ->
  batch_sound q0 ps0 w'.
Proof.
  intros Hsh Hc [Hps Hq Hr] Hstep.
  pose proof (step_frame D _ _ _ _ Hstep) as Hf.
  pose proof (fun r o => step_outcome D _ _ _ _ r o Hstep) as Hout.
  assert (Hst : forall r s, r <> subject ch -> status_at w r = Some s ->
                            status_at w' r = Some s).
  { intros r s Hne Hs. rewrite (frame_status _ _ _ r Hf); [done|done|].
    by eapply status_at_lt. }
  assert (Hwait : forall r c o, status_at w r = Some (Waiting c) ->
                                outcome_at w r = Some o -> False).
  { intros r c o Hs Ho. apply outcome_at_status in Ho. congruence. }
  split.
  - eapply Forall_impl; [exact Hps|]. intros r [Hres|[v Hv]];
      [|right; exists v; by apply Hout].
    destruct Hres as (s & k & Hs).
    destruct (decide (r = subject ch)) as [->|Hne]; [|left; exists s, k; by apply Hst].
    pose proof (known_wait_resolver D s k (shaped_known D root w _ _ Hsh Hs)) as ->.
    destruct ch as [q o|p res|p]; cbn [subject] in *.
    + unfold step in Hstep. rewrite Hs in Hstep. injection Hstep as <-.
      left. by eexists _, _.
    + right. exists VUndefined. by eapply loadSourceMap_answer_fulfils.
    + unfold step in Hstep. rewrite Hs in Hstep. injection Hstep as <-.
      left. by eexists _, _.
  - destruct Hq as [Hs|[(r' & v & Hs & Hv)|[v Hv]]];
      [| |right; right; exists v; by apply Hout].
    + destruct (decide (q0 = subject ch)) as [Heq|Hne]; [|left; by apply Hst].
      destruct ch as [q o|p res|p]; cbn [subject] in Heq; subst;
        unfold step in Hstep; rewrite Hs in Hstep;
        try (injection Hstep as <-; by left).
      destruct (all_outcome_at w ps0) as [[vs|e]|] eqn:Ho;
        [| |injection Hstep as <-; by left].
      * rewrite (resume_all_explicit _ _ _ _ Hsh Hc Hs Ho) in Hstep.
        injection Hstep as <-. right. left.
        pose proof (status_at_lt _ _ _ Hs) as Hp.
        assert (Hl : length (promises (set_status p Running w)) = length (promises w))
          by (simpl; by rewrite length_alter).
        exists (length (promises (set_status p Running w))), VUndefined. split.
        -- apply status_at_set_status. simpl.
           rewrite length_alter, length_app, length_alter. lia.
        -- unfold outcome_at. rewrite status_at_set_status_ne by (rewrite Hl; lia).
           fold (outcome_at (settle (length (promises (set_status p Running w)))
                               (Fulfilled VUndefined)
                               (emit (EDispatch p (newSources (replicate (length vs) None))
                                        (length (promises (set_status p Running w))))
                                  (alloc (newSources (replicate (length vs) None)) Running
                                     (set_status p Running w))))
                   (length (promises (set_status p Running w)))).
           apply outcome_at_settle. simpl. rewrite length_app. simpl. lia.
      * exfalso. apply all_outcome_at_rejected in Ho as (r & Hin & Hrej).
        rewrite Forall_forall in Hps.
        destruct (Hps r Hin) as [(s & k & Hrs)|[v Hv]];
          [exact (Hwait _ _ _ Hrs Hrej)|congruence].
    + destruct (decide (q0 = subject ch)) as [Heq|Hne];
        [|right; left; exists r', v; split; [by apply Hst|by apply Hout]].
      destruct ch as [q o|p res|p]; cbn [subject] in Heq; subst;
        unfold step in Hstep; rewrite Hs in Hstep; unfold await in Hstep;
        try (injection Hstep as <-; right; left; by exists r', v).
      rewrite Hv in Hstep.
      change (run D (S (S (S (S n))))) with (exec_sync D (run D (S (S (S n))))) in Hstep.
      cbn [exec_sync] in Hstep. injection Hstep as <-.
      right. right. exists VUndefined. apply outcome_at_settle.
      simpl. rewrite length_alter. by apply status_at_lt in Hs.
  - destruct Hr as [Hs|[v Hv]]; [|right; exists v; by apply Hout].
    destruct (decide (1 = subject ch)) as [Heq|Hne]; [|left; by apply Hst].
    destruct ch as [q o|p res|p]; cbn [subject] in Heq; subst;
      unfold step in Hstep; rewrite Hs in Hstep; unfold await in Hstep;
      try (injection Hstep as <-; by left).
    destruct (outcome_at w q0) as [[v|e]|] eqn:Ho; [| |injection Hstep as <-; by left].
    + change (run D (S (S (S (S n))))) with (exec_sync D (run D (S (S (S n))))) in Hstep.
      cbn [exec_sync] in Hstep. injection Hstep as <-.
      right. exists VUndefined. apply outcome_at_settle.
      simpl. rewrite length_alter. by apply status_at_lt in Hs.
    + exfalso. destruct Hq as [Hsq|[(r' & v & Hsq & _)|[v Hv]]];
        [exact (Hwait _ _ _ Hsq Ho)|exact (Hwait _ _ _ Hsq Ho)|congruence].
Qed.

Lemma batch_sound_schedule q0 ps0 chs : forall w w',
  shaped D root w -> calm P w -> batch_sound q0 ps0 w ->
  schedule D (S (S (S (S n)))) chs w = Some w' ->
  batch_sound q0 ps0 w'.
Proof.
  induction chs as [|ch chs IH]; intros w w' Hsh Hc Hb; cbn [schedule].
  - by intros [= <-].
  - destruct (step D _ ch w) as [w1|] eqn:Hstep; [|done].
    destruct (step_quiet D root P n ch w w1 Hsh Hc Hstep) as [Hc1 _].
    apply IH; [by eapply step_shaped|done|by eapply batch_sound_step].
Qed.

End Sound.

Section SoundRuns.
Context (D : Deps).

(** [loadSourceMap] for registered sources leaves each task at the resolver
    or fulfilled. *)
Lemma dispatchLoadSourceMap_sound n p l : forall k w w',
  p < length (promises w) ->
  (forall s, s ∈ l -> registered (store w) (Src.id s)) ->
  exec_sync D (run D (S n)) p (dispatchLoadSourceMap l k) w = Some w' ->
  exists w1 ps,
    exec_sync D (run D (S n)) p (k ps) w1 = Some w' /\
    frame p w w1 /\ store w1 = store w /\
    Forall (fun r => length (promises w) <= r /\
                     (resolving w1 r \/ exists v, outcome_at w1 r = Some (Fulfilled v)))
      ps.
Proof.
  induction l as [|s l IH]; intros k w w' Hp Hreg H.
  - exists w, []. split; [done|]. split; [apply frame_refl|]. split; [done|constructor].
  - cbn [dispatchLoadSourceMap exec_sync body] in H.
    set (q := length (promises w)) in *.
    set (w0 := emit (EDispatch p (loadSourceMap (Src.id s)) q)
                 (alloc (loadSourceMap (Src.id s)) Running w)) in *.
    destruct (run D (S n) q (loadSourceMap_body D (Src.id s)) w0) as [wc|] eqn:E; [|done].
    assert (Hq0 : q < length (promises w0))
      by (unfold w0, q; simpl; rewrite length_app; simpl; lia).
    assert (Hchild : frame q w0 wc /\ store wc = store w /\
              (resolving wc q \/ exists v, outcome_at wc q = Some (Fulfilled v))).
    { split; [by eapply run_frame|].
      rewrite loadSourceMap_sync in E. injection E as <-.
      change (store w0) with (store w).
      destruct (Hreg s) as [s0 Hs0]; [by apply elem_of_cons; left|]. rewrite Hs0.
      destruct (negb _ || negb _).
      - split; [done|]. right. exists VUndefined. by apply outcome_at_settle.
      - split; [done|]. left. eexists _, _.
        change (status_at (emit ?e ?w1) q) with (status_at w1 q).
        by apply status_at_set_status. }
    destruct Hchild as (Hfc & Hsc & Hqc).
    assert (Hf0 : frame p w w0)
      by (eapply frame_trans; [apply frame_alloc|by apply frame_emit|by left]).
    assert (Hfw : frame p w wc)
      by (eapply frame_trans; [exact Hf0|exact Hfc|right; unfold q; lia]).
    assert (Hlc : length (promises w0) <= length (promises wc)) by (by destruct Hfc as (_ & ? & _)).
    destruct (IH (fun ps => k (q :: ps)) wc w') as (w1 & ps & Hk & Hf1 & Hs1 & Hps);
      [lia| |exact H|].
    { intros s' Hs'. rewrite Hsc. apply Hreg. by apply elem_of_cons; right. }
    exists w1, (q :: ps). split; [exact Hk|].
    split; [eapply frame_trans; [exact Hfw|exact Hf1|by left]|].
    split; [congruence|]. constructor.
    + split; [done|].
      assert (Hst : status_at w1 q = status_at wc q)
        by (apply (frame_status p); [done|unfold q; lia|lia]).
      unfold resolving, outcome_at in *. by rewrite Hst.
    + eapply Forall_impl; [exact Hps|]. intros r [Hr Hr']. split; [unfold q; lia|done].
Qed.

Lemma newSources_sound n p l w w' :
  p < length (promises w) ->
  run D (S (S (S n))) p (newSources_body l) w = Some w' ->
  survivors (store w) l <> [] ->
  exists q ps w1,
    w' = set_status p (Waiting (await q (fun _ => Return VUndefined)))
           (set_status q (Waiting (AwaitAll ps afterAll)) w1) /\
    Forall (fun r => q < r /\
                     (resolving w1 r \/ exists v, outcome_at w1 r = Some (Fulfilled v)))
      ps.
Proof.
  intros Hp H Hf. unfold newSources_body in H.
  change (run D (S (S (S n)))) with (exec_sync D (run D (S (S n)))) in H.
  rewrite filterSources_run in H.
  set (f := survivors (store w) l) in *.
  destruct f as [|s f'] eqn:Ef; [done|]. rewrite <- Ef in *. clear Hf.
  cbn [exec_sync] in H.
  apply (checkEach_calm D (fun _ => True)) in H as (wb & H & _ & [Hs1 _] & _).
  cbn [exec_sync body] in H.
  set (q := length (promises wb)) in *.
  set (wb0 := emit (EDispatch p (loadSourceMaps f) q) (alloc (loadSourceMaps f) Running wb))
    in *.
  destruct (run D (S (S n)) q (loadSourceMaps_body f) wb0) as [wc|] eqn:E; [|done].
  unfold loadSourceMaps_body in E.
  change (run D (S (S n))) with (exec_sync D (run D (S n))) in E.
  apply dispatchLoadSourceMap_sound in E as (w1 & ps & Hk & _ & _ & Hps).
  - cbn [exec_sync] in Hk. injection Hk as <-.
    cbn [exec_sync await] in H. injection H as <-.
    exists q, ps, w1. split; [done|].
    eapply Forall_impl; [exact Hps|]. intros r [Hr Hr']. split; [|done].
    unfold wb0 in Hr. simpl in Hr. rewrite length_app in Hr. simpl in Hr. unfold q. lia.
  - unfold wb0, q. simpl. rewrite length_app. simpl. lia.
  - intros s0 Hs0. change (store wb0) with (store wb). rewrite Hs1.
    by apply registered_ADD_SOURCES.
Qed.

End SoundRuns.

Lemma batch_sound_initial (D : Deps) n st l w1 :
  survivors st l <> [] ->
  dispatch D (S (S (S (S n)))) (newSources l) (initial st) = Some w1 ->
  exists q0 ps0,
    batch_sound q0 ps0 w1 /\
    status_at w1 q0 = Some (Waiting (AwaitAll ps0 afterAll)) /\
    status_at w1 1 = Some (Waiting (await q0 (fun _ => Return VUndefined))) /\
    1 < q0 /\ Forall (fun r => q0 < r) ps0.
Proof.
  intros Hf Hd. unfold dispatch, host_script in Hd.
  change (run D (S (S (S (S n))))) with (exec_sync D (run D (S (S (S n))))) in Hd.
  cbn [exec_sync body] in Hd.
  set (w0 := emit (EDispatch 0 (newSources l) 1) (alloc (newSources l) Running (initial st)))
    in *.
  change (length (promises (initial st))) with 1 in Hd. fold w0 in Hd.
  destruct (newSources_sync_tasks D n 1 l w0)
    as (w' & q & ps & Hrun & Hs1 & _ & _ & Hsq & _ & Hq); [simpl; lia|done|].
  rewrite Hrun in Hd. cbn [exec_sync] in Hd. injection Hd as <-.
  destruct (newSources_sound D n 1 l w0 w') as (q' & ps' & wi & Hw' & Hps);
    [simpl; lia|done|done|].
  assert (q' = q) as ->.
  { rewrite Hw' in Hs1. apply status_at_set_status_same in Hs1.
    unfold await in Hs1. by injection Hs1. }
  assert (ps' = ps) as ->.
  { rewrite Hw' in Hsq. rewrite status_at_set_status_ne in Hsq by lia.
    apply status_at_set_status_same in Hsq. by injection Hsq. }
  assert (Hsq' : status_at (set_status 0 (Waiting (Await 1 (fun _ => Return VUndefined))) w') q
                 = Some (Waiting (AwaitAll ps afterAll)))
    by (by rewrite status_at_set_status_ne by lia).
  assert (Hs1' : status_at (set_status 0 (Waiting (Await 1 (fun _ => Return VUndefined))) w') 1
                 = Some (Waiting (await q (fun _ => Return VUndefined))))
    by (by rewrite status_at_set_status_ne).
  exists q, ps. split; [split|].
  - eapply Forall_impl; [exact Hps|]. intros r [Hr Hr'].
    assert (Hst : status_at (set_status 0 (Waiting (Await 1 (fun _ => Return VUndefined))) w') r
                  = status_at wi r).
    { rewrite status_at_set_status_ne by lia. rewrite Hw'.
      by rewrite !status_at_set_status_ne by lia. }
    unfold resolving, outcome_at in *. by rewrite Hst.
  - by left.
  - by left.
  - split; [exact Hsq'|]. split; [exact Hs1'|]. split; [exact Hq|].
    eapply Forall_impl; [exact Hps|]. by intros r [Hr _].
Qed.

(** X9: the promise of [newSources] is never rejected.  Whatever the store,
    the batch and the schedule, and whatever the resolver answers or throws:
    the sources a batch adds are registered before [loadSourceMap] reads
    them, the failure of the resolver is caught, and the intent checks,
    which may fail, are not awaited.  So in every world reached the promise
    of the batch (promise 1) is pending or fulfilled. *)
Theorem newSources_is_never_rejected (D : Deps) n st l chs :
  exists w1 w,
    dispatch D (S (S (S (S n)))) (newSources l) (initial st) = Some w1 /\
    schedule D (S (S (S (S n)))) chs w1 = Some w /\
    ((exists q, status_at w 1 = Some (Waiting (await q (fun _ => Return VUndefined)))) \/
     (exists v, outcome_at w 1 = Some (Fulfilled v))) /\
    (forall e, outcome_at w 1 <> Some (Rejected e)).
Proof.
  assert (H : exists w1 w,
            dispatch D (S (S (S (S n)))) (newSources l) (initial st) = Some w1 /\
            schedule D (S (S (S (S n)))) chs w1 = Some w /\
            ((exists q, status_at w 1
                        = Some (Waiting (await q (fun _ => Return VUndefined)))) \/
             (exists v, outcome_at w 1 = Some (Fulfilled v)))).
  { destruct (decide (survivors st l = [])) as [He|Hne].
    - assert (Hd : dispatch D (S (S (S (S n)))) (newSources l) (initial st)
                   = Some (set_status 0 (Waiting (Await 1 (fun _ => Return VUndefined)))
                             (settle 1 (Fulfilled VUndefined)
                                (emit (EDispatch 0 (newSources l) 1)
                                   (alloc (newSources l) Running (initial st)))))).
      { unfold dispatch, host_script.
        change (run D (S (S (S (S n))))) with (exec_sync D (run D (S (S (S n))))).
        cbn [exec_sync body]. by rewrite newSources_sync_empty. }
      pose proof (dispatch_shaped D _ _ _ _ Hd) as Hsh.
      destruct (schedule_total D (newSources l) n chs _ Hsh) as (w & Hsch & _).
      eexists _, w. split; [exact Hd|]. split; [exact Hsch|]. right.
      exists VUndefined.
      eapply (schedule_settled_own D _ chs 1 _ _ w); [|exact Hsch]. done.
    - destruct (batch_run_initial D n st l Hne) as (w1 & q0' & ps0' & Hd & _ & Hc).
      destruct (batch_sound_initial D n st l w1 Hne Hd) as (q0 & ps0 & Hsound & _).
      pose proof (dispatch_shaped D _ _ _ _ Hd) as Hsh.
      destruct (schedule_total D (newSources l) n chs _ Hsh) as (w & Hsch & _).
      exists w1, w. split; [exact Hd|]. split; [exact Hsch|].
      destruct (batch_sound_schedule D (newSources l) _ n q0 ps0 chs w1 w Hsh Hc Hsound Hsch)
        as [_ _ [Hr|Hr]]; [left; by exists q0|by right]. }
  destruct H as (w1 & w & Hd & Hsch & Hr).
  exists w1, w. split; [exact Hd|]. split; [exact Hsch|]. split; [exact Hr|].
  intros e He. destruct Hr as [[q Hq]|[v Hv]]; [|congruence].
  apply outcome_at_status in He. congruence.
Qed.

(** ** Completion of a batch without its intent checks *)

Lemma all_outcome_at_all_fulfilled w ps :
  Forall (fun r => exists v, outcome_at w r = Some (Fulfilled v)) ps ->
  exists vs, all_outcome_at w ps = Some (AllFulfilled vs).
Proof.
  induction 1 as [|r ps [v Hv] _ [vs IH]]; [by exists []|].
  exists (v :: vs). cbn [all_outcome_at]. by rewrite Hv, IH.
Qed.

(** A task that awaits a fulfilled promise and then returns. *)
Lemma resume_await_return (D : Deps) n p q v v0 w :
  status_at w p = Some (Waiting (await q (fun _ => Return v0))) ->
  outcome_at w q = Some (Fulfilled v) ->
  step D (S n) (Resume p) w = Some (settle p (Fulfilled v0) (set_status p Running w)).
Proof. intros Hs Ho. unfold step. rewrite Hs. unfold await. by rewrite Ho. Qed.

Lemma length_set_status p s w :
  length (promises (set_status p s w)) = length (promises w).
Proof. simpl. by rewrite length_alter. Qed.

Lemma length_settle p o w : length (promises (settle p o w)) = length (promises w).
Proof. simpl. by rewrite length_alter. Qed.

Section Completion.
Context (D : Deps) (root : thunk) (P : promise -> Prop) (n : nat).
Context (q0 : promise) (ps0 : list promise) (w0 : World).
Context (ans : promise -> resolver_outcome).
Hypothesis Hq0 : 1 < q0.
Hypothesis Hps0 : Forall (fun r => q0 < r) ps0.

(** Answering the resolver calls of the batch one after the other. *)
Lemma answers_schedule rs : forall w,
  (forall r, r ∈ rs -> r ∈ ps0) ->
  at_join D root P q0 ps0 w0 w ->
  exists w',
    schedule D (S (S (S (S n)))) (map (fun r => Answer r (ans r)) rs) w = Some w' /\
    at_join D root P q0 ps0 w0 w' /\
    (forall r, r ∈ rs \/ (exists v, outcome_at w r = Some (Fulfilled v)) ->
               exists v, outcome_at w' r = Some (Fulfilled v)).
Proof using Hq0 Hps0.
  induction rs as [|r rs IH]; intros w Hin Hw.
  - exists w. split; [done|]. split; [done|]. intros r [Hr|Hr]; [|done].
    by apply elem_of_nil in Hr.
  - destruct Hw as (Hsh & Hc & Hb & Hsq & Hs1 & Hl & Hun).
    destruct (step_total D root n (Answer r (ans r)) w Hsh) as [w1 Hstep].
    pose proof (step_frame D _ _ _ _ Hstep) as Hf. cbn [subject] in Hf.
    assert (Hr : r ∈ ps0) by (apply Hin; by apply elem_of_cons; left).
    assert (Hrq : q0 < r) by (rewrite Forall_forall in Hps0; by apply Hps0).
    assert (Hfr : exists v, outcome_at w1 r = Some (Fulfilled v)).
    { destruct Hb as [Hps _ _]. rewrite Forall_forall in Hps.
      destruct (Hps r Hr) as [(s & k & Hs)|[v Hv]].
      - pose proof (known_wait_resolver D s k (shaped_known D root w _ _ Hsh Hs)) as ->.
        exists VUndefined. by eapply loadSourceMap_answer_fulfils.
      - exists v. by eapply step_outcome. }
    assert (Hw1 : at_join D root P q0 ps0 w0 w1).
    { split; [by eapply step_shaped|].
      split; [by destruct (step_quiet D root P n _ w w1 Hsh Hc Hstep)|].
      split; [by eapply batch_sound_step|].
      split; [rewrite (frame_status _ _ _ q0 Hf);
              [done|lia|by apply status_at_lt in Hsq]|].
      split; [rewrite (frame_status _ _ _ 1 Hf);
              [done|lia|by apply status_at_lt in Hs1]|].
      split; [destruct Hf as (_ & ? & _); lia|].
      intros r' Hr' H1 H2 H3. rewrite (frame_status _ _ _ r' Hf); [by apply Hun| |lia].
      intros ->. done. }
    destruct (IH w1) as (w' & Hsch & Hw' & Hful); [|exact Hw1|].
    { intros r' Hr'. apply Hin. by apply elem_of_cons; right. }
    exists w'. split; [cbn [map schedule]; by rewrite Hstep|]. split; [exact Hw'|].
    intros r' [Hr'|[v Hv]].
    + apply elem_of_cons in Hr' as [->|Hr']; apply Hful; [by right|by left].
    + apply Hful. right. exists v. by eapply step_outcome.
Qed.

(** From the [Promise.all] with every member fulfilled to the fulfilment of
    the batch: [loadSourceMaps] is resumed twice, the batch once. *)
Lemma join_schedule w :
  at_join D root P q0 ps0 w0 w ->
  Forall (fun r => exists v, outcome_at w r = Some (Fulfilled v)) ps0 ->
  exists w',
    schedule D (S (S (S (S n)))) [Resume q0; Resume q0; Resume 1] w = Some w' /\
    outcome_at w' 1 = Some (Fulfilled VUndefined) /\
    (forall r, r < length (promises w0) -> r <> 1 -> r <> q0 -> r ∉ ps0 ->
               status_at w' r = status_at w0 r).
Proof using Hq0 Hps0.
  intros (Hsh & Hc & Hb & Hsq & Hs1 & Hl & Hun) Hful.
  destruct (all_outcome_at_all_fulfilled w ps0 Hful) as [vs Hvs].
  pose proof (status_at_lt _ _ _ Hsq) as Hlq.
  pose proof (status_at_lt _ _ _ Hs1) as Hl1.
  set (r' := length (promises (set_status q0 Running w))).
  assert (Hr' : r' = length (promises w)) by (unfold r'; simpl; by rewrite length_alter).
  set (wa := set_status q0 (Waiting (await r' (fun _ => Return VUndefined)))
               (settle r' (Fulfilled VUndefined)
                  (emit (EDispatch q0 (newSources (replicate (length vs) None)) r')
                     (alloc (newSources (replicate (length vs) None)) Running
                        (set_status q0 Running w))))).
  assert (Hstep1 : step D (S (S (S (S n)))) (Resume q0) w = Some wa).
  { unfold step. rewrite Hsq, Hvs.
    exact (resume_all_explicit D root P n q0 ps0 vs w Hsh Hc Hsq Hvs). }
  assert (Hla : length (promises wa) = S (length (promises w))).
  { unfold wa. simpl. rewrite !length_alter, length_app, length_alter. simpl. lia. }
  assert (Hsa : status_at wa q0 = Some (Waiting (await r' (fun _ => Return VUndefined)))).
  { apply status_at_set_status. simpl.
    rewrite length_alter, length_app, length_alter. lia. }
  assert (Hoa : outcome_at wa r' = Some (Fulfilled VUndefined)).
  { apply outcome_at_status. unfold wa. rewrite status_at_set_status_ne by lia.
    unfold settle. rewrite status_at_emit. apply status_at_set_status.
    simpl. rewrite length_app, length_alter. simpl. lia. }
  set (wb := settle q0 (Fulfilled VUndefined) (set_status q0 Running wa)).
  assert (Hstep2 : step D (S (S (S (S n)))) (Resume q0) wa = Some wb)
    by (by eapply resume_await_return).
  pose proof (step_frame D _ _ _ _ Hstep1) as Hf1.
  pose proof (step_frame D _ _ _ _ Hstep2) as Hf2.
  cbn [subject] in Hf1, Hf2.
  assert (Hsb : status_at wb 1 = Some (Waiting (await q0 (fun _ => Return VUndefined)))).
  { rewrite (frame_status _ _ _ 1 Hf2) by lia.
    rewrite (frame_status _ _ _ 1 Hf1) by lia. done. }
  assert (Hob : outcome_at wb q0 = Some (Fulfilled VUndefined)).
  { apply outcome_at_settle. rewrite length_set_status. lia. }
  set (wc := settle 1 (Fulfilled VUndefined) (set_status 1 Running wb)).
  assert (Hstep3 : step D (S (S (S (S n)))) (Resume 1) wb = Some wc)
    by (by eapply resume_await_return).
  pose proof (step_frame D _ _ _ _ Hstep3) as Hf3. cbn [subject] in Hf3.
  assert (Hlb : length (promises wb) = length (promises wa))
    by (unfold wb; by rewrite length_settle, length_set_status).
  exists wc. split; [cbn [schedule]; by rewrite Hstep1, Hstep2, Hstep3|]. split.
  - apply outcome_at_settle. rewrite length_set_status. lia.
  - intros r Hr H1 H2 H3.
    rewrite (frame_status _ _ _ r Hf3) by lia.
    rewrite (frame_status _ _ _ r Hf2) by lia.
    rewrite (frame_status _ _ _ r Hf1) by lia. by apply Hun.
Qed.

End Completion.

Lemma schedule_app (D : Deps) fuel chs1 chs2 : forall w w1 w2,
  schedule D fuel chs1 w = Some w1 ->
  schedule D fuel chs2 w1 = Some w2 ->
  schedule D fuel (chs1 ++ chs2) w = Some w2.
Proof.
  induction chs1 as [|ch chs1 IH]; intros w w1 w2; cbn [schedule app].
  - by intros [= <-].
  - destruct (step D fuel ch w) as [w'|]; [|done]. apply IH.
Qed.

Lemma dispatch_empty_calm (D : Deps) n st l w1 :
  survivors st l = [] ->
  dispatch D (S (S (S (S n)))) (newSources l) (initial st) = Some w1 ->
  calm (fun _ => False) w1 /\ store w1 = st.
Proof.
  intros He Hd. unfold dispatch, host_script in Hd.
  change (run D (S (S (S (S n))))) with (exec_sync D (run D (S (S (S n))))) in Hd.
  cbn [exec_sync body] in Hd. rewrite newSources_sync_empty in Hd by done.
  cbn [exec_sync] in Hd. injection Hd as <-. split; [|done].
  apply calm_set_status; [|done|done]. apply calm_settle.
  eapply calm_promises; [|apply (calm_alloc _ (newSources l) Running (initial st))];
    [done|by left|apply calm_initial].
Qed.

(** The end of the first stretch of a batch that adds something:
    [loadSourceMaps] (promise [q0]) is at its [Promise.all] over [ps0], the
    batch awaits [q0], and the tasks at the resolver are among [ps0]. *)
Lemma batch_join_initial (D : Deps) n st l :
  survivors st l <> [] ->
  exists w1 q0 ps0,
    dispatch D (S (S (S (S n)))) (newSources l) (initial st) = Some w1 /\
    1 < q0 /\ Forall (fun r => q0 < r) ps0 /\
    at_join D (newSources l) (fun r => r ∈ ps0) q0 ps0 w1 w1.
Proof.
  intros Hne.
  destruct (batch_run_initial D n st l Hne) as (w1 & q0' & ps0' & Hd & Hrun & Hc).
  destruct (batch_sound_initial D n st l w1 Hne Hd)
    as (q0 & ps0 & Hsound & Hsq & Hs1 & Hq0 & Hps0).
  destruct Hrun as [_ _ _ Hroot Hjoin].
  assert (q0' = q0) as ->.
  { destruct Hroot as [H|[[e H]|[[v H] _]]].
    - rewrite Hs1 in H. unfold await in H. by injection H.
    - apply outcome_at_status in H. congruence.
    - apply outcome_at_status in H. congruence. }
  assert (ps0' = ps0) as ->.
  { destruct Hjoin as [H|[[e H]|(vs & r' & _ & _ & [H|[[v0 H] _]])]].
    - rewrite Hsq in H. by injection H.
    - apply outcome_at_status in H. congruence.
    - rewrite Hsq in H. unfold await in H. discriminate.
    - apply outcome_at_status in H. congruence. }
  exists w1, q0, ps0. split; [exact Hd|]. split; [exact Hq0|]. split; [exact Hps0|].
  split; [exact (dispatch_shaped D _ _ _ _ Hd)|]. split; [exact Hc|].
  split; [exact Hsound|]. split; [exact Hsq|]. split; [exact Hs1|].
  split; [done|]. by intros.
Qed.

(** X10: the completion of [newSources] does not wait for the intent checks.
    For every store and batch, and whatever the resolver answers ([ans r] is
    its answer to the call of task [r]): after the first stretch the tasks
    suspended at a resolver call are among [ps0]; the schedule that answers
    each task [r] of [ps0] with [ans r], then resumes [loadSourceMaps]
    (promise [q0]) twice and the batch once, completes no imported thunk (it
    has no [Settle]) and fulfils the promise of the batch.  Every task that
    was suspended after the first stretch at an [await] on a pending imported
    thunk (a selection, a pretty-print toggle, a text load) is still
    suspended there when the batch is fulfilled. *)
Theorem newSources_completes_without_its_checks (D : Deps) n st l
    (ans : promise -> resolver_outcome) :
  exists w1 q0 ps0 w,
    dispatch D (S (S (S (S n)))) (newSources l) (initial st) = Some w1 /\
    (forall r, resolving w1 r -> r ∈ ps0) /\
    schedule D (S (S (S (S n))))
      (map (fun r => Answer r (ans r)) ps0 ++ [Resume q0; Resume q0; Resume 1]) w1
      = Some w /\
    outcome_at w 1 = Some (Fulfilled VUndefined) /\
    (forall r q k,
       status_at w1 r = Some (Waiting (Await q k)) ->
       status_at w1 q = Some Pending ->
       status_at w r = Some (Waiting (Await q k)) /\ status_at w q = Some Pending).
Proof.
  destruct (decide (survivors st l = [])) as [He|Hne].
  - destruct (newSources_reachable D n st l []) as (w1 & w & Hd & Hsch & _).
    cbn [schedule] in Hsch. injection Hsch as <-.
    destruct (dispatch_empty_calm D n st l w1 He Hd) as [[Hc _] _].
    assert (Ho : outcome_at w1 1 = Some (Fulfilled VUndefined)).
    { pose proof Hd as Hd'. unfold dispatch, host_script in Hd'.
      change (run D (S (S (S (S n))))) with (exec_sync D (run D (S (S (S n))))) in Hd'.
      cbn [exec_sync body] in Hd'. rewrite newSources_sync_empty in Hd' by done.
      cbn [exec_sync] in Hd'. by injection Hd' as <-. }
    exists w1, 1, [], w1. split; [exact Hd|]. split; [intros r Hr; by destruct (Hc r)|].
    split.
    { apply outcome_at_status in Ho as Hs.
      assert (Hst : step D (S (S (S (S n)))) (Resume 1) w1 = Some w1)
        by (unfold step; by rewrite Hs).
      cbn [map app schedule]. by rewrite !Hst. }
    split; [exact Ho|]. by intros r q k H1 H2.
  - destruct (batch_join_initial D n st l Hne) as (w1 & q0 & ps0 & Hd & Hq0 & Hps0 & Hj).
    pose proof Hj as (Hsh & Hc & Hsound & Hsq & Hs1 & _).
    destruct (answers_schedule D (newSources l) (fun r => r ∈ ps0) n q0 ps0 w1 ans
                Hq0 Hps0 ps0 w1)
      as (wa & Hsa & Hja & Hfa); [done|exact Hj|].
    destruct (join_schedule D (newSources l) (fun r => r ∈ ps0) n q0 ps0 w1 Hq0 Hps0 wa Hja)
      as (w & Hsw & Ho & Hun).
    { rewrite Forall_forall. intros r Hr. apply Hfa. by left. }
    exists w1, q0, ps0, w.
    split; [exact Hd|]. split; [by destruct Hc as [Hc _]|].
    split; [by eapply schedule_app|]. split; [exact Ho|].
    assert (Hkeep : forall r s,
              status_at w1 r = Some s ->
              (forall c, s = Waiting c -> is_wait c ->
                 match c with Await q _ => status_at w1 q = Some Pending | _ => False end) ->
              (forall o, s <> Done o) -> s <> Running ->
              status_at w r = Some s).
    { intros r s Hs Hw Hd' Hr'. rewrite <- Hs. apply Hun.
      - by apply status_at_lt in Hs.
      - intros ->. rewrite Hs1 in Hs. injection Hs as <-.
        specialize (Hw _ eq_refl I). cbn in Hw. congruence.
      - intros ->. rewrite Hsq in Hs. injection Hs as <-.
        by specialize (Hw _ eq_refl I).
      - intros Hin. destruct Hsound as [Hps _ _]. rewrite Forall_forall in Hps.
        destruct (Hps r Hin) as [(s0 & k0 & Hs0)|[v Hv]].
        + rewrite Hs0 in Hs. injection Hs as <-. by specialize (Hw _ eq_refl I).
        + apply outcome_at_status in Hv. rewrite Hv in Hs. injection Hs as <-.
          by destruct (Hd' (Fulfilled v)). }
    intros r q k Hr Hq. split.
    + apply Hkeep; [done| |done|done]. intros c [= <-] _. done.
    + apply Hkeep; [done| |done|done]. by intros c [=].
Qed.

Lemma newSources_completes_without_its_checks_witness :
  exists w1 q0 ps0 w,
    dispatch Example.deps 4 (newSources [Some Example.G; Some Example.Bar])
      (initial Example.pending_state) = Some w1 /\
    resolving w1 8 /\ 8 ∈ ps0 /\
    schedule Example.deps 4
      (map (fun r => Answer r (Resolved None)) ps0 ++ [Resume q0; Resume q0; Resume 1]) w1
      = Some w /\
    outcome_at w 1 = Some (Fulfilled VUndefined) /\
    who_at w1 5 = Some (checkPendingBreakpoints "bar") /\
    who_at w1 6 = Some (loadSourceText Example.Bar) /\
    (exists k, status_at w 5 = Some (Waiting (Await 6 k))) /\
    status_at w 6 = Some Pending.
Proof.
  destruct (newSources_completes_without_its_checks Example.deps 0 Example.pending_state
              [Some Example.G; Some Example.Bar] (fun _ => Resolved None))
    as (w1 & q0 & ps0 & w & Hd & Hin & Hsch & Ho & H).
  pose proof Hd as Hd'. vm_compute in Hd'. injection Hd' as <-.
  assert (Hr : resolving
                 (default (initial Example.pending_state)
                    (dispatch Example.deps 4 (newSources [Some Example.G; Some Example.Bar])
                       (initial Example.pending_state))) 8).
  { eexists _, _. vm_compute. reflexivity. }
  edestruct (H 5 6) as [H5 H6]; [vm_compute; reflexivity|vm_compute; reflexivity|].
  eexists _, q0, ps0, w. split; [exact Hd|]. split; [exact Hr|].
  split; [exact (Hin 8 Hr)|]. split; [exact Hsch|].
  split; [exact Ho|]. split; [vm_compute; reflexivity|]. split; [vm_compute; reflexivity|].
  split; [eexists; exact H5|exact H6].
Defined.

(** ** The resolutions a batch starts *)

Lemma loadSourceMap_start_status (D : Deps) n q i w wc :
  q < length (promises w) ->
  run D (S n) q (loadSourceMap_body D i) w = Some wc ->
  status_at wc q = Some (loadSourceMap_start D (store w) i) /\ store wc = store w.
Proof.
  intros Hq. rewrite loadSourceMap_sync. intros [= <-]. unfold loadSourceMap_start.
  destruct (getSource (store w) i) as [s|].
  - destruct (negb _ || negb _).
    + split; [|done]. unfold settle. rewrite status_at_emit. by apply status_at_set_status.
    + split; [|done]. rewrite status_at_emit. by apply status_at_set_status.
  - split; [|done]. unfold settle. rewrite status_at_emit. by apply status_at_set_status.
Qed.

Lemma dispatchLoadSourceMap_explicit (D : Deps) n p l : forall k w w',
  p < length (promises w) ->
  exec_sync D (run D (S n)) p (dispatchLoadSourceMap l k) w = Some w' ->
  exists w1 ps,
    exec_sync D (run D (S n)) p (k ps) w1 = Some w' /\
    frame p w w1 /\ store w1 = store w /\
    Forall2 (fun r s =>
               length (promises w) <= r /\
               who_at w1 r = Some (loadSourceMap (Src.id s)) /\
               status_at w1 r = Some (loadSourceMap_start D (store w) (Src.id s)))
      ps l.
Proof.
  induction l as [|s l IH]; intros k w w' Hp H.
  - exists w, []. split; [done|]. split; [apply frame_refl|]. split; [done|constructor].
  - cbn [dispatchLoadSourceMap exec_sync body] in H.
    set (q := length (promises w)) in *.
    set (w0 := emit (EDispatch p (loadSourceMap (Src.id s)) q)
                 (alloc (loadSourceMap (Src.id s)) Running w)) in *.
    destruct (run D (S n) q (loadSourceMap_body D (Src.id s)) w0) as [wc|] eqn:E; [|done].
    assert (Hq0 : q < length (promises w0))
      by (unfold w0, q; simpl; rewrite length_app; simpl; lia).
    pose proof (run_frame D _ _ _ _ _ E) as Hfc.
    destruct (loadSourceMap_start_status D n q _ w0 wc Hq0 E) as [Hst Hsc].
    change (store w0) with (store w) in Hst, Hsc.
    assert (Hf0 : frame p w w0)
      by (eapply frame_trans; [apply frame_alloc|by apply frame_emit|by left]).
    assert (Hfw : frame p w wc)
      by (eapply frame_trans; [exact Hf0|exact Hfc|right; unfold q; lia]).
    assert (Hlc : length (promises w0) <= length (promises wc))
      by (by destruct Hfc as (_ & ? & _)).
    destruct (IH (fun ps => k (q :: ps)) wc w') as (w1 & ps & Hk & Hf1 & Hs1 & Hps);
      [lia|exact H|].
    exists w1, (q :: ps). split; [exact Hk|].
    split; [eapply frame_trans; [exact Hfw|exact Hf1|by left]|].
    split; [congruence|]. constructor.
    + split; [done|]. split.
      * apply (frame_who_at _ _ _ _ _ Hf1), (frame_who_at _ _ _ _ _ Hfc).
        apply who_at_alloc_new.
      * rewrite (frame_status _ _ _ q Hf1); [done|unfold q; lia|lia].
    + eapply Forall2_impl; [exact Hps|]. intros r s' (Hr & Hw & Hs).
      split; [unfold q; lia|]. split; [done|]. by rewrite <- Hsc.
Qed.

Lemma newSources_explicit (D : Deps) n p l w w' :
  p < length (promises w) ->
  run D (S (S (S n))) p (newSources_body l) w = Some w' ->
  survivors (store w) l <> [] ->
  exists q ps wi,
    w' = set_status p (Waiting (await q (fun _ => Return VUndefined)))
           (set_status q (Waiting (AwaitAll ps afterAll)) wi) /\
    store wi = reducer (ADD_SOURCES (survivors (store w) l)) (store w) /\
    Forall2 (fun r s =>
               q < r /\
               who_at wi r = Some (loadSourceMap (Src.id s)) /\
               status_at wi r
                 = Some (loadSourceMap_start D
                           (reducer (ADD_SOURCES (survivors (store w) l)) (store w))
                           (Src.id s)))
      ps (survivors (store w) l).
Proof.
  intros Hp H Hf. unfold newSources_body in H.
  change (run D (S (S (S n)))) with (exec_sync D (run D (S (S n)))) in H.
  rewrite filterSources_run in H.
  set (f := survivors (store w) l) in *.
  destruct f as [|s f'] eqn:Ef; [done|]. rewrite <- Ef in *. clear Hf.
  cbn [exec_sync] in H.
  apply (checkEach_calm D (fun _ => True)) in H as (wb & H & _ & [Hs1 _] & _).
  cbn [exec_sync body] in H.
  set (q := length (promises wb)) in *.
  set (wb0 := emit (EDispatch p (loadSourceMaps f) q) (alloc (loadSourceMaps f) Running wb))
    in *.
  destruct (run D (S (S n)) q (loadSourceMaps_body f) wb0) as [wc|] eqn:E; [|done].
  unfold loadSourceMaps_body in E.
  change (run D (S (S n))) with (exec_sync D (run D (S n))) in E.
  apply dispatchLoadSourceMap_explicit in E as (w1 & ps & Hk & _ & Hst & Hps).
  - cbn [exec_sync] in Hk. injection Hk as <-.
    cbn [exec_sync await] in H. injection H as <-.
    change (store wb0) with (store wb) in Hst, Hps. rewrite Hs1 in Hst, Hps.
    exists q, ps, w1. split; [done|]. split; [exact Hst|].
    eapply Forall2_impl; [exact Hps|]. intros r s0 (Hr & Hw & Hs). split; [|done].
    unfold wb0 in Hr. simpl in Hr. rewrite length_app in Hr. simpl in Hr. unfold q. lia.
  - unfold wb0, q. simpl. rewrite length_app. simpl. lia.
Qed.

(** X12: the first stretch of [newSources] starts the source-map resolution
    of every source it adds, before anything is awaited.  When the task
    reaches its [await], [loadSourceMaps] (promise [q]) is suspended at its
    [Promise.all] over one [loadSourceMap] task per added source, in order,
    and each of these tasks has read its record from the registry after the
    ADD_SOURCES: it is fulfilled when the record is not generated or
    declares no source map, and suspended at the resolver call with that
    record otherwise.  None is rejected: every added id is registered. *)
Theorem newSources_starts_every_resolution (D : Deps) n p l w :
  p < length (promises w) ->
  survivors (store w) l <> [] ->
  exists w' q ps,
    run D (S (S (S n))) p (newSources_body l) w = Some w' /\
    status_at w' p = Some (Waiting (await q (fun _ => Return VUndefined))) /\
    status_at w' q = Some (Waiting (AwaitAll ps afterAll)) /\
    Forall2 (fun r s =>
               who_at w' r = Some (loadSourceMap (Src.id s)) /\
               status_at w' r = Some (loadSourceMap_start D (store w') (Src.id s)) /\
               registered (store w') (Src.id s))
      ps (survivors (store w) l).
Proof.
  intros Hp Hf.
  destruct (newSources_sync_tasks D n p l w Hp Hf)
    as (w' & q & ps & Hrun & Hs1 & _ & _ & Hsq & _ & Hq).
  destruct (newSources_explicit D n p l w w' Hp Hrun Hf) as (q' & ps' & wi & Hw' & Hst & Hps).
  assert (q' = q) as ->.
  { rewrite Hw' in Hs1. apply status_at_set_status_same in Hs1.
    unfold await in Hs1. by injection Hs1. }
  assert (ps' = ps) as ->.
  { rewrite Hw' in Hsq. rewrite status_at_set_status_ne in Hsq by lia.
    apply status_at_set_status_same in Hsq. by injection Hsq. }
  exists w', q, ps. split; [exact Hrun|]. split; [exact Hs1|]. split; [exact Hsq|].
  assert (Hst' : store w' = reducer (ADD_SOURCES (survivors (store w) l)) (store w))
    by (by rewrite Hw').
  apply Forall2_same_length_lookup_2; [by eapply Forall2_length|].
  intros j r s Hr Hs.
  destruct (Forall2_lookup_lr _ _ _ _ _ _ Hps Hr Hs) as (Hqr & Hwho & Hsr).
  split; [|split].
  - rewrite Hw'. by rewrite !who_at_set_status.
  - rewrite Hst'. rewrite Hw'. by rewrite !status_at_set_status_ne by lia.
  - rewrite Hst'. apply registered_ADD_SOURCES. by eapply list_elem_of_lookup_2.
Qed.

Lemma newSources_starts_every_resolution_witness :
  exists w' q ps,
    run Example.deps 3 1 (newSources_body [Some Example.G; Some Example.A])
      (Example.started (newSources [Some Example.G; Some Example.A]) Example.empty_state)
      = Some w' /\
    status_at w' q = Some (Waiting (AwaitAll ps afterAll)) /\
    Forall2 (fun r s =>
               who_at w' r = Some (loadSourceMap (Src.id s)) /\
               status_at w' r = Some (loadSourceMap_start Example.deps (store w') (Src.id s)) /\
               registered (store w') (Src.id s))
      ps [Example.G; Example.A].
Proof.
  destruct (newSources_starts_every_resolution Example.deps 0 1
              [Some Example.G; Some Example.A]
              (Example.started (newSources [Some Example.G; Some Example.A])
                 Example.empty_state))
    as (w' & q & ps & H1 & _ & H2 & H3); [simpl; lia|done|].
  exists w', q, ps. split; [exact H1|]. split; [exact H2|exact H3].
Defined.

(** ** The resolver calls and the actions of a batch *)

(** The world a batch leaves at the end of its first stretch. *)
Lemma batch_initial (D : Deps) n st l w1 :
  survivors st l <> [] ->
  dispatch D (S (S (S (S n)))) (newSources l) (initial st) = Some w1 ->
  exists q0 ps0,
    batch_sound q0 ps0 w1 /\
    calm (fun r => r ∈ ps0) w1 /\
    store w1 = reducer (ADD_SOURCES (survivors st l)) st /\
    Forall2 (fun r s =>
               who_at w1 r = Some (loadSourceMap (Src.id s)) /\
               status_at w1 r
                 = Some (loadSourceMap_start D (reducer (ADD_SOURCES (survivors st l)) st)
                           (Src.id s)))
      ps0 (survivors st l).
Proof.
  intros Hf Hd.
  destruct (batch_sound_initial D n st l w1 Hf Hd) as (q0 & ps0 & Hsound & Hsq & Hs1 & Hq0 & Hps0).
  unfold dispatch, host_script in Hd.
  change (run D (S (S (S (S n))))) with (exec_sync D (run D (S (S (S n))))) in Hd.
  cbn [exec_sync body] in Hd.
  set (w0 := emit (EDispatch 0 (newSources l) 1) (alloc (newSources l) Running (initial st)))
    in *.
  change (length (promises (initial st))) with 1 in Hd. fold w0 in Hd.
  destruct (run D (S (S (S n))) 1 (newSources_body l) w0) as [w'|] eqn:Hrun; [|done].
  cbn [exec_sync] in Hd. injection Hd as <-.
  rewrite status_at_set_status_ne in Hs1 by done.
  rewrite status_at_set_status_ne in Hsq by lia.
  assert (Htie : forall q ps wi,
            w' = set_status 1 (Waiting (await q (fun _ => Return VUndefined)))
                   (set_status q (Waiting (AwaitAll ps afterAll)) wi) ->
            q = q0 /\ ps = ps0).
  { intros q ps wi Hw'.
    assert (q = q0) as ->.
    { rewrite Hw' in Hs1. apply status_at_set_status_same in Hs1.
      unfold await in Hs1. by injection Hs1. }
    split; [done|].
    rewrite Hw' in Hsq. rewrite status_at_set_status_ne in Hsq by lia.
    apply status_at_set_status_same in Hsq. by injection Hsq. }
  destruct (newSources_explicit D n 1 l w0 w') as (q & ps & wi & Hw' & Hst & Hps);
    [simpl; lia|done|done|].
  destruct (Htie q ps wi Hw') as [-> ->].
  change (store w0) with st in *.
  exists q0, ps0. split; [exact Hsound|]. split; [|split].
  - apply calm_set_status; [|done|done].
    pose proof Hrun as Hrun'.
    apply (newSources_calm D (fun r => r ∈ ps0)) in Hrun' as (q' & ps' & wj & Hw'' & Himp);
      [|done].
    destruct (Htie q' ps' wj Hw'') as [-> ->].
    apply Himp.
    + eapply calm_promises; [|apply (calm_alloc _ (newSources l) Running (initial st))];
        [done|by left|apply calm_initial].
    + intros j r s Hj _ _. by eapply list_elem_of_lookup_2.
  - by rewrite Hw'.
  - eapply Forall2_impl; [exact Hps|]. intros r s (Hr & Hwho & Hs). split.
    + rewrite who_at_set_status, Hw'. by rewrite !who_at_set_status.
    + rewrite status_at_set_status_ne by lia. rewrite Hw'.
      by rewrite !status_at_set_status_ne by lia.
Qed.

Lemma actions_of_none evs r a : actions_of evs = [] -> EAction r a ∉ evs.
Proof.
  intros He Hin.
  assert (Ha : a ∈ actions_of evs) by (apply list_elem_of_omap; by exists (EAction r a)).
  rewrite He in Ha. by apply elem_of_nil in Ha.
Qed.

(** The actions of the first stretch of a batch. *)
Lemma dispatch_actions (D : Deps) n st l w1 :
  dispatch D (S (S (S (S n)))) (newSources l) (initial st) = Some w1 ->
  forall r a, EAction r a ∈ trace w1 -> batch_action D l w1 r a.
Proof.
  intros Hd r a Hin. unfold dispatch, host_script in Hd.
  change (run D (S (S (S (S n))))) with (exec_sync D (run D (S (S (S n))))) in Hd.
  cbn [exec_sync body] in Hd.
  set (w0 := emit (EDispatch 0 (newSources l) 1) (alloc (newSources l) Running (initial st)))
    in *.
  change (length (promises (initial st))) with 1 in Hd. fold w0 in Hd.
  destruct (decide (survivors st l = [])) as [He|Hne].
  - rewrite newSources_sync_empty in Hd by done. cbn [exec_sync] in Hd.
    injection Hd as <-. simpl in Hin.
    repeat (apply elem_of_cons in Hin as [Hin|Hin]; [done|]). by apply elem_of_nil in Hin.
  - destruct (run D (S (S (S n))) 1 (newSources_body l) w0) as [w'|] eqn:Hrun; [|done].
    cbn [exec_sync] in Hd. injection Hd as <-.
    destruct (newSources_sync_silent D n 1 l w0 w' Hrun Hne) as (_ & evs & Ht & Ha).
    change (store w0) with st in *.
    change (trace (set_status 0 (Waiting (Await 1 (fun _ => Return VUndefined))) w'))
      with (trace w') in *.
    rewrite Ht in Hin. simpl in Hin.
    apply elem_of_cons in Hin as [Hin|Hin]; [done|].
    apply elem_of_cons in Hin as [Hin|Hin].
    + injection Hin as -> ->. split; [done|].
      apply Forall_forall. intros s Hs. left.
      by apply survivors_unregistered in Hs as [Hs _].
    + by apply actions_of_none with (r := r) (a := a) in Ha.
Qed.

Section Inherited.
Context (D : Deps) (root : thunk) (n : nat) (q0 : promise) (ps0 : list promise).

(** No scheduling step takes a task to a resolver call: a task at the
    resolver was there before the step, with the same record. *)
Lemma step_inherits ch w w' r s k :
  shaped D root w -> calm (fun r => r ∈ ps0) w -> batch_sound q0 ps0 w ->
  step D (S (S (S (S n)))) ch w = Some w' ->
  status_at w' r = Some (Waiting (AwaitOriginalURLs s k)) ->
  status_at w r = Some (Waiting (AwaitOriginalURLs s k)).
Proof.
  intros Hsh Hc Hb Hstep Hr.
  destruct (step_quiet D root _ n ch w w' Hsh Hc Hstep) as [[Hc1 _] _].
  assert (Hin : r ∈ ps0) by (apply Hc1; by exists s, k).
  destruct Hb as [Hps _ _]. rewrite Forall_forall in Hps.
  destruct (Hps r Hin) as [(s2 & k2 & Hs2)|[v Hv]].
  2: { apply (step_outcome D _ _ _ _ r _ Hstep), outcome_at_status in Hv. congruence. }
  destruct (decide (r = subject ch)) as [->|Hne].
  - destruct ch as [q o|p res|p]; cbn [subject] in *.
    + unfold step in Hstep. rewrite Hs2 in Hstep. by injection Hstep as <-.
    + pose proof (known_wait_resolver D s2 k2 (shaped_known D root w _ _ Hsh Hs2)) as ->.
      apply (loadSourceMap_answer_fulfils D n p s2 res w w' Hs2), outcome_at_status in Hstep.
      congruence.
    + unfold step in Hstep. rewrite Hs2 in Hstep. by injection Hstep as <-.
  - pose proof (step_frame D _ _ _ _ Hstep) as Hf.
    rewrite (frame_status _ _ _ r Hf) in Hr; [done|done|by apply status_at_lt in Hs2].
Qed.

Lemma schedule_inherits chs : forall w w' r s k,
  shaped D root w -> calm (fun r => r ∈ ps0) w -> batch_sound q0 ps0 w ->
  schedule D (S (S (S (S n)))) chs w = Some w' ->
  status_at w' r = Some (Waiting (AwaitOriginalURLs s k)) ->
  status_at w r = Some (Waiting (AwaitOriginalURLs s k)).
Proof.
  induction chs as [|ch chs IH]; intros w w' r s k Hsh Hc Hb; cbn [schedule].
  - by intros [= <-].
  - destruct (step D _ ch w) as [wa|] eqn:Hstep; [|done].
    intros Hsch Hr.
    destruct (step_quiet D root _ n ch w wa Hsh Hc Hstep) as [Hc' _].
    eapply step_inherits; [exact Hsh|exact Hc|exact Hb|exact Hstep|].
    eapply IH; [by eapply step_shaped|exact Hc'|by eapply batch_sound_step|exact Hsch|exact Hr].
Qed.

End Inherited.

(** What the trace holds stays in it. *)
Lemma batch_action_mono (D : Deps) l w w' evs r a :
  trace w' = trace w ++ evs -> batch_action D l w r a -> batch_action D l w' r a.
Proof.
  intros Ht. destruct a as [f|x]; cbn [batch_action].
  - intros [Hf Hall]. split; [done|]. eapply Forall_impl; [exact Hall|].
    intros s [Hs|(g & u & p & Hg & Hs)]; [by left|right].
    exists g, u, p. split; [|done]. rewrite Ht. apply elem_of_app. by left.
  - intros (s & Hs & Hg). exists s. split; [done|].
    rewrite Ht. apply elem_of_app. by left.
Qed.

Section Actions.
Context (D : Deps) (root : thunk) (P : promise -> Prop) (n : nat).
Context (l : list (option Source)).

(** The actions of one scheduling step. *)
Lemma step_actions ch w w' :
  shaped D root w -> calm P w -> resolver_calls_traced w ->
  step D (S (S (S (S n)))) ch w = Some w' ->
  forall r a, EAction r a ∈ trace w' -> EAction r a ∈ trace w \/ batch_action D l w' r a.
Proof.
  intros Hsh Hc HT Hstep r a Hin.
  destruct (step_quiet D root _ n ch w w' Hsh Hc Hstep) as [_ [Hres|(_ & evs & Ht & Ha)]].
  2: { rewrite Ht in Hin. apply elem_of_app in Hin as [Hin|Hin]; [by left|].
       by apply actions_of_none with (r := r) (a := a) in Ha. }
  destruct Hres as (s & k & Hs).
  destruct ch as [q o|p res|p]; cbn [subject] in Hs.
  - unfold step in Hstep. rewrite Hs in Hstep. injection Hstep as <-. by left.
  - pose proof (known_wait_resolver D s k (shaped_known D root w _ _ Hsh Hs)) as ->.
    assert (Htr : EGetOriginalURLs p s ∈ trace w') .
    { destruct (step_frame D _ _ _ _ Hstep) as ((evs & Ht & _) & _).
      rewrite Ht. apply elem_of_app. left. exact (HT p s _ Hs). }
    destruct res as [[urls|]|e].
    + unfold step in Hstep. rewrite Hs in Hstep.
      change (run D (S (S (S (S n))))) with (exec_sync D (run D (S (S (S n))))) in Hstep.
      cbn [tryOriginalURLs withOriginalURLs exec_sync body] in Hstep.
      set (cands := map (fun u => Some (createOriginalSource D u s)) urls) in *.
      set (wr := emit (EAnswer p (Resolved (Some urls))) (set_status p Running w)) in *.
      set (q := length (promises wr)) in *.
      set (w0 := emit (EDispatch p (newSources cands) q)
                   (alloc (newSources cands) Running wr)) in *.
      destruct (run D (S (S (S n))) q (newSources_body cands) w0) as [wc|] eqn:E; [|done].
      injection Hstep as <-.
      destruct (decide (survivors (store w0) cands = [])) as [He|Hne].
      * rewrite newSources_sync_empty in E by done. injection E as <-. simpl in Hin.
        rewrite !elem_of_app in Hin.
        destruct Hin as [[[[Hin|Hin]|Hin]|Hin]|Hin]; [by left| | | |];
          by apply list_elem_of_singleton in Hin.
      * destruct (newSources_sync_silent D n q cands w0 wc E Hne) as (_ & evs & Ht & Ha).
        simpl in Hin. rewrite Ht in Hin. simpl in Hin.
        rewrite !elem_of_app in Hin.
        destruct Hin as [[[[[Hin|Hin]|Hin]|Hin]|Hin]|Hin]; [by left| | | | |];
          try (by apply list_elem_of_singleton in Hin).
        -- apply list_elem_of_singleton in Hin. injection Hin as -> ->. right.
           split; [done|]. apply Forall_forall. intros s' Hs'. right.
           apply survivors_unregistered in Hs' as [Hs' _].
           apply list_elem_of_fmap in Hs' as (u & [= ->] & _). by exists s, u, p.
        -- by apply actions_of_none with (r := r) (a := a) in Ha.
    + destruct (loadSourceMap_answer_none D (S (S (S n))) p s (Resolved None) w Hs)
        as (wa & Ha & _ & _ & Hta); [done|].
      rewrite Ha in Hstep. injection Hstep as <-. simpl in Hin. rewrite Hta in Hin.
      rewrite !elem_of_app in Hin.
      destruct Hin as [[[Hin|Hin]|Hin]|Hin]; [by left| | |];
        apply list_elem_of_singleton in Hin; try done.
      injection Hin as -> ->. right. by exists s.
    + destruct (loadSourceMap_answer_none D (S (S (S n))) p s (Threw e) w Hs)
        as (wa & Ha & _ & _ & Hta); [done|].
      rewrite Ha in Hstep. injection Hstep as <-. simpl in Hin. rewrite Hta in Hin.
      change (EAnswer p (Threw e) :: [ELog p e])
        with ([EAnswer p (Threw e)] ++ [ELog p e]) in Hin.
      rewrite !elem_of_app in Hin.
      destruct Hin as [[[Hin|[Hin|Hin]]|Hin]|Hin]; [by left| | | |];
        apply list_elem_of_singleton in Hin; try done.
      injection Hin as -> ->. right. by exists s.
  - unfold step in Hstep. rewrite Hs in Hstep. injection Hstep as <-. by left.
Qed.

Lemma schedule_actions chs : forall w w',
  shaped D root w -> calm P w ->
  resolver_calls_traced w -> originals_registered D w ->
  (forall r a, EAction r a ∈ trace w -> batch_action D l w r a) ->
  schedule D (S (S (S (S n)))) chs w = Some w' ->
  forall r a, EAction r a ∈ trace w' -> batch_action D l w' r a.
Proof.
  induction chs as [|ch chs IH]; intros w w' Hsh Hc HT Hor Hact; cbn [schedule].
  - by intros [= <-].
  - destruct (step D _ ch w) as [wa|] eqn:Hstep; [|done].
    destruct (step_quiet D root _ n ch w wa Hsh Hc Hstep) as [Hc' _].
    destruct (step_originals_registered D root _ ch w wa Hsh HT Hor Hstep) as [HT' Hor'].
    apply IH; [by eapply step_shaped|exact Hc'|exact HT'|exact Hor'|].
    intros r a Hin.
    destruct (step_actions ch w wa Hsh Hc HT Hstep r a Hin) as [H|H]; [|done].
    destruct (step_frame D _ _ _ _ Hstep) as ((evs & Ht & _) & _).
    eapply batch_action_mono; [exact Ht|]. by apply Hact.
Qed.

End Actions.

(** X13: the actions of a batch, for every store, batch and schedule.  Every
    action a task of the run dispatches (the thunks of this file; what the
    imported thunks dispatch is theirs) is a registration or a fallback.  A
    registration is an ADD_SOURCES of a list that is not empty, whose
    sources are present entries of the batch or original sources created for
    a record handed to the resolver.  A fallback is the UPDATE_SOURCE of a
    [loadSourceMap] task: it carries the record that this very task has
    handed to the resolver, with its [sourceMapURL] set to the empty string
    and every other field as it was read then, before the resolver was
    awaited.  These tasks dispatch no other action. *)
Theorem batch_actions_are_registrations_or_fallbacks (D : Deps) n st l chs :
  exists w1 w,
    dispatch D (S (S (S (S n)))) (newSources l) (initial st) = Some w1 /\
    schedule D (S (S (S (S n)))) chs w1 = Some w /\
    forall r a, EAction r a ∈ trace w -> batch_action D l w r a.
Proof.
  destruct (newSources_reachable D n st l chs) as (w1 & w & Hd & Hsch & _ & _ & _).
  exists w1, w. split; [exact Hd|]. split; [exact Hsch|].
  pose proof (dispatch_shaped D _ _ _ _ Hd) as Hsh.
  pose proof (dispatch_actions D n st l w1 Hd) as Hact.
  destruct (dispatch_traced D _ _ _ _ Hd) as [HT Hor].
  destruct (decide (survivors st l = [])) as [He|Hne].
  - destruct (dispatch_empty_calm D n st l w1 He Hd) as [Hc _].
    exact (schedule_actions D (newSources l) _ n l chs w1 w Hsh Hc HT Hor Hact Hsch).
  - destruct (batch_initial D n st l w1 Hne Hd) as (q0 & ps0 & _ & Hc & _ & _).
    exact (schedule_actions D (newSources l) _ n l chs w1 w Hsh Hc HT Hor Hact Hsch).
Qed.

Lemma batch_actions_are_registrations_or_fallbacks_witness :
  exists w1 w,
    dispatch Example.deps 4 (newSources [Some Example.G]) (initial Example.empty_state)
      = Some w1 /\
    schedule Example.deps 4 [Answer 5 (Threw (ExtError 3))] w1 = Some w /\
    EAction 5 (UPDATE_SOURCE (clearSourceMapURL Example.G)) ∈ trace w /\
    batch_action Example.deps [Some Example.G] w 5
      (UPDATE_SOURCE (clearSourceMapURL Example.G)).
Proof.
  destruct (batch_actions_are_registrations_or_fallbacks Example.deps 0 Example.empty_state
              [Some Example.G] [Answer 5 (Threw (ExtError 3))]) as (w1 & w & Hd & Hsch & H).
  assert (Hin : EAction 5 (UPDATE_SOURCE (clearSourceMapURL Example.G)) ∈ trace w).
  { pose proof Hd as Hd'. vm_compute in Hd'. injection Hd' as <-.
    pose proof Hsch as Hsch'. vm_compute in Hsch'. injection Hsch' as <-.
    apply list_elem_of_lookup. exists 11. vm_compute. reflexivity. }
  exists w1, w. split; [exact Hd|]. split; [exact Hsch|]. split; [exact Hin|].
  exact (H _ _ Hin).
Defined.

(** X14: the resolver is asked in the first stretch of a batch only.  For
    every store, batch and schedule: a task that is suspended at a resolver
    call in a world reached later was suspended at that call, with the same
    record, at the end of the first stretch; it is the [loadSourceMap] task
    of the id of a present entry of the batch which the store did not hold,
    and the record it handed to the resolver has that id.  So no resolver
    call is ever issued for an original source that [loadSourceMap] has
    registered: source maps of original sources are not followed. *)
Theorem resolver_is_asked_in_the_first_stretch_only (D : Deps) n st l chs :
  exists w1 w,
    dispatch D (S (S (S (S n)))) (newSources l) (initial st) = Some w1 /\
    schedule D (S (S (S (S n)))) chs w1 = Some w /\
    (forall r s k,
       status_at w r = Some (Waiting (AwaitOriginalURLs s k)) ->
       status_at w1 r = Some (Waiting (AwaitOriginalURLs s k)) /\
       exists s0,
         Some s0 ∈ l /\ getSource st (Src.id s0) = None /\
         who_at w1 r = Some (loadSourceMap (Src.id s0)) /\
         Src.id s = Src.id s0).
Proof.
  destruct (newSources_reachable D n st l chs) as (w1 & w & Hd & Hsch & _ & _ & _).
  exists w1, w. split; [exact Hd|]. split; [exact Hsch|].
  pose proof (dispatch_shaped D _ _ _ _ Hd) as Hsh.
  intros r s k Hr.
  destruct (decide (survivors st l = [])) as [He|Hne].
  - destruct (dispatch_empty_calm D n st l w1 He Hd) as [Hc _].
    destruct (schedule_calm D (newSources l) n _ chs w1 w Hsh Hc Hsch) as [H1 _].
    destruct (H1 r). by exists s, k.
  - destruct (batch_initial D n st l w1 Hne Hd) as (q0 & ps0 & Hsound & Hc & _ & Hps).
    pose proof (schedule_inherits D (newSources l) n q0 ps0 chs w1 w r s k
                  Hsh Hc Hsound Hsch Hr) as Hr1.
    split; [exact Hr1|].
    assert (Hin : r ∈ ps0) by (destruct Hc as [H1 _]; apply H1; by exists s, k).
    apply list_elem_of_lookup in Hin as [j Hj].
    destruct (Forall2_lookup_l _ _ _ _ _ Hps Hj) as (s0 & Hs0 & Hwho & Hstat).
    apply list_elem_of_lookup_2, survivors_unregistered in Hs0 as [Hl Hn].
    exists s0. split; [exact Hl|]. split; [exact Hn|]. split; [exact Hwho|].
    rewrite Hr1 in Hstat. unfold loadSourceMap_start in Hstat.
    destruct (getSource (reducer _ _) (Src.id s0)) as [s'|] eqn:Hg; [|done].
    destruct (negb _ || negb _); [done|]. injection Hstat as -> _.
    unfold getSource in Hg, Hn. simpl in Hg.
    apply foldl_updateSource_lookup_id in Hg as [[_ Hid]|Hg]; [done|congruence].
Qed.

Lemma resolver_is_asked_in_the_first_stretch_only_witness :
  exists w1 w,
    dispatch Example.deps 4 (newSources [Some Example.G]) (initial Example.empty_state)
      = Some w1 /\
    schedule Example.deps 4 [Resume 4; Resume 1] w1 = Some w /\
    status_at w 5
      = Some (Waiting (AwaitOriginalURLs Example.G (tryOriginalURLs Example.deps Example.G))) /\
    status_at w1 5
      = Some (Waiting (AwaitOriginalURLs Example.G (tryOriginalURLs Example.deps Example.G))) /\
    exists s0,
      Some s0 ∈ [Some Example.G] /\ getSource Example.empty_state (Src.id s0) = None /\
      who_at w1 5 = Some (loadSourceMap (Src.id s0)) /\
      Src.id Example.G = Src.id s0.
Proof.
  destruct (resolver_is_asked_in_the_first_stretch_only Example.deps 0 Example.empty_state
              [Some Example.G] [Resume 4; Resume 1]) as (w1 & w & Hd & Hsch & H).
  assert (Hr : status_at w 5
               = Some (Waiting (AwaitOriginalURLs Example.G
                                  (tryOriginalURLs Example.deps Example.G)))).
  { pose proof Hd as Hd'. vm_compute in Hd'. injection Hd' as <-.
    pose proof Hsch as Hsch'. vm_compute in Hsch'. injection Hsch' as <-.
    vm_compute. reflexivity. }
  exists w1, w. split; [exact Hd|]. split; [exact Hsch|]. split; [exact Hr|].
  exact (H 5 Example.G (tryOriginalURLs Example.deps Example.G) Hr).
Defined.

(** ** The outcome of a selection check *)

(** The first stretch of [checkSelectedSource] when a selection is to be
    resolved, with the continuation of its [await]. *)
Lemma checkSelectedSource_sync (D : Deps) n p i s w t :
  getSource (store w) i = Some s ->
  selectionIntent D (store w) s = Some t ->
  run D (S n) p (checkSelectedSource_body D i) w
  = Some (awaiting_imported p t
            match t with
            | togglePrettyPrint _ => fun v => Return v
            | _ => fun _ => Return VUndefined
            end w).
Proof.
  intros Hs Ht. unfold checkSelectedSource_body, selectionIntent in *. cbn [run exec_sync].
  rewrite Hs. cbn [exec_sync].
  destruct (getPendingSelectedLocation (store w)) as [pl|]; [|done].
  destruct (Loc.url pl) as [u|]; [|done].
  destruct (Src.url s) as [su|] eqn:Hu; [|done].
  destruct (truthy (Some u)), (truthy (Some su)); cbn [negb orb andb] in *; try done.
  destruct (decide (Some (getRawSourceURL D u) = Some su)) as [Heq|Hne].
  2: { rewrite bool_decide_eq_false_2 in Ht by congruence. done. }
  rewrite bool_decide_eq_true_2 in Ht by congruence. injection Ht as <-.
  destruct (isPrettyURL D u); cbn [exec_sync body await]; reflexivity.
Qed.

(** X15: [checkSelectedSource i] dispatched by the host for a registered
    source whose pending selection asks for the thunk [t].  The task
    dispatches [t] and nothing else, and settles as [t] does: when [t] is
    the pretty-print toggle its value is returned ([return await]), when it
    is the selection the task returns [undefined] whatever the selection
    returned, and in both cases a rejection of [t] rejects the task with the
    same error.  Nothing is dispatched afterwards, whatever is scheduled. *)
Theorem checkSelectedSource_settles_as_its_thunk (D : Deps) n i s st t o chs :
  getSource st i = Some s ->
  selectionIntent D st s = Some t ->
  exists w1 w,
    dispatch D (S (S (S (S n)))) (checkSelectedSource i) (initial st) = Some w1 /\
    schedule D (S (S (S (S n)))) (Settle 2 o :: Resume 1 :: chs) w1 = Some w /\
    dispatched 1 (trace w) = [t] /\
    outcome_at w 1
      = Some match t with
             | togglePrettyPrint _ => o
             | _ => passed_on o
             end.
Proof.
  intros Hs Ht.
  set (w0 := emit (EDispatch 0 (checkSelectedSource i) 1)
               (alloc (checkSelectedSource i) Running (initial st))).
  set (k := match t with
            | togglePrettyPrint _ => fun v => Return v
            | _ => fun _ : value => Return VUndefined
            end).
  set (w1 := set_status 0 (Waiting (Await 1 (fun _ => Return VUndefined)))
               (awaiting_imported 1 t k w0)).
  assert (Hd : dispatch D (S (S (S (S n)))) (checkSelectedSource i) (initial st) = Some w1).
  { unfold dispatch, host_script.
    change (run D (S (S (S (S n))))) with (exec_sync D (run D (S (S (S n))))).
    cbn [exec_sync body]. change (length (promises (initial st))) with 1. fold w0.
    by rewrite (checkSelectedSource_sync D _ 1 i s w0 t Hs Ht). }
  set (w2 := settle 1 match t with
                      | togglePrettyPrint _ => o
                      | _ => passed_on o
                      end (set_status 1 Running (settle 2 o w1))).
  assert (Hsch2 : schedule D (S (S (S (S n)))) [Settle 2 o; Resume 1] w1 = Some w2).
  { unfold w2, w1, k. destruct t, o; reflexivity. }
  assert (Hdis : dispatched 1 (trace w2) = [t]) by reflexivity.
  assert (Ho : outcome_at w2 1
               = Some match t with
                      | togglePrettyPrint _ => o
                      | _ => passed_on o
                      end) by reflexivity.
  pose proof (dispatch_shaped D _ _ _ _ Hd) as Hsh1.
  assert (Hsh2 : shaped D (checkSelectedSource i) w2).
  { cbn [schedule] in Hsch2.
    destruct (step D _ (Settle 2 o) w1) as [wa|] eqn:Ha; [|done].
    destruct (step D _ (Resume 1) wa) as [wb|] eqn:Hb; [|done].
    injection Hsch2 as <-.
    eapply step_shaped; [|exact Hb]. by eapply step_shaped. }
  destruct (schedule_total D (checkSelectedSource i) n chs w2 Hsh2) as (w & Hsch & _).
  destruct (schedule_settled_own D _ chs 1 _ w2 w Ho Hsch) as [Hown Ho'].
  exists w1, w. split; [exact Hd|]. split.
  - change (Settle 2 o :: Resume 1 :: chs) with ([Settle 2 o; Resume 1] ++ chs).
    by eapply schedule_app.
  - split; [|exact Ho']. unfold dispatched. by rewrite Hown.
Qed.

Lemma checkSelectedSource_settles_as_its_thunk_witness :
  exists w1 w,
    dispatch Example.deps 4 (checkSelectedSource "foo") (initial Example.pending_state)
      = Some w1 /\
    schedule Example.deps 4 (Settle 2 (Fulfilled (VArray [])) :: Resume 1 :: [Resume 0]) w1
      = Some w /\
    dispatched 1 (trace w) = [togglePrettyPrint "foo"] /\
    outcome_at w 1 = Some (Fulfilled (VArray [])).
Proof.
  apply (checkSelectedSource_settles_as_its_thunk Example.deps 0 "foo" Example.Foo
           Example.pending_state (togglePrettyPrint "foo") (Fulfilled (VArray []))
           [Resume 0]); reflexivity.
Defined.
